(** * easy-ble (BLE Master 1.7.8): a shallow embedding of
      [easy-ble-npm/dist/ble-master.src.js] and the properties of its
      connection lifecycle, operation queue, profile compiler and
      wildcard address lookup. *)

From Stdlib Require Import ZArith Lia Bool Ascii String List.
From stdpp Require Import base strings list gmap.

Local Open Scope string_scope.
Local Open Scope Z_scope.

(** ** JavaScript string primitives used by the library *)

Module Js.

(** [String.prototype.toLowerCase], on the ASCII range. *)
Definition lower_ascii (c : ascii) : ascii :=
  let n := nat_of_ascii c in
  if (Nat.leb 65 n && Nat.leb n 90)%bool then ascii_of_nat (n + 32) else c.

Fixpoint toLowerCase (s : string) : string :=
  match s with
  | EmptyString => EmptyString
  | String c s' => String (lower_ascii c) (toLowerCase s')
  end.

(** [String.prototype.split] with a one-character separator: the result
    is never empty, and the empty string splits to one empty part. *)
Fixpoint split (sep : ascii) (s : string) : list string :=
  match s with
  | EmptyString => [EmptyString]
  | String c s' =>
      if Ascii.eqb c sep then EmptyString :: split sep s'
      else match split sep s' with
           | [] => [String c EmptyString]
           | p :: ps => String c p :: ps
           end
  end.

(** [s] begins with [sub]. *)
Fixpoint starts_with (sub s : string) : bool :=
  match sub, s with
  | EmptyString, _ => true
  | String a sub', String b s' => Ascii.eqb a b && starts_with sub' s'
  | String _ _, EmptyString => false
  end.

(** [String.prototype.includes]. *)
Fixpoint includes (s sub : string) : bool :=
  starts_with sub s ||
  match s with
  | EmptyString => false
  | String _ s' => includes s' sub
  end.

(** Value of a hexadecimal digit, either case. *)
Definition hex_digit (c : ascii) : option Z :=
  let n := nat_of_ascii c in
  if (Nat.leb 48 n && Nat.leb n 57)%bool then Some (Z.of_nat n - 48)
  else if (Nat.leb 97 n && Nat.leb n 102)%bool then Some (Z.of_nat n - 87)
  else if (Nat.leb 65 n && Nat.leb n 70)%bool then Some (Z.of_nat n - 55)
  else None.

Definition is_hex (c : ascii) : bool :=
  match hex_digit c with Some _ => true | None => false end.

(** The white space [parseInt] skips (ASCII part). *)
Definition is_space (c : ascii) : bool :=
  let n := nat_of_ascii c in
  (Nat.eqb n 32 || Nat.eqb n 9 || Nat.eqb n 10 || Nat.eqb n 11
   || Nat.eqb n 12 || Nat.eqb n 13)%bool.

Fixpoint skip_spaces (s : string) : string :=
  match s with
  | String c s' => if is_space c then skip_spaces s' else s
  | EmptyString => s
  end.

(** The longest prefix of hexadecimal digits, accumulated most
    significant digit first; [None] when there is no digit at all. *)
Fixpoint hex_prefix (acc : option Z) (s : string) : option Z :=
  match s with
  | String c s' =>
      match hex_digit c with
      | Some d =>
          hex_prefix (Some (match acc with Some a => a * 16 + d | None => d end)) s'
      | None => acc
      end
  | EmptyString => acc
  end.

Definition strip_0x (s : string) : string :=
  match s with
  | String "0" (String "x" s') => s'
  | String "0" (String "X" s') => s'
  | _ => s
  end.

(** [parseInt(s, 16)]; [None] is NaN. *)
Definition parseInt16 (s : string) : option Z :=
  match skip_spaces s with
  | String "-" s' => Z.opp <$> hex_prefix None (strip_0x s')
  | String "+" s' => hex_prefix None (strip_0x s')
  | s' => hex_prefix None (strip_0x s')
  end.

(** Storing a number into a [Uint8Array]: NaN becomes 0, the rest wraps
    modulo 256. *)
Definition toUint8 (v : option Z) : Z :=
  match v with
  | Some n => n mod 256
  | None => 0
  end.

(** [s.substring(0, 2)] and the remainder, used to walk a string two
    characters at a time. *)
Fixpoint chunks2 (fuel : nat) (s : string) : list string :=
  match fuel, s with
  | _, EmptyString => []
  | O, _ => []
  | S _, String a EmptyString => [String a EmptyString]
  | S fuel', String a (String b s') =>
      String a (String b EmptyString) :: chunks2 fuel' s'
  end.

(** [/^[0-9A-Fa-f]+$/.test(s)]. *)
Fixpoint all_hex (s : string) : bool :=
  match s with
  | EmptyString => true
  | String c s' => is_hex c && all_hex s'
  end.

Definition hex_only (s : string) : bool :=
  match s with
  | EmptyString => false
  | _ => all_hex s
  end.

Definition chars (s : string) : list ascii := list_ascii_of_string s.

(** JavaScript truthiness of a string. *)
Definition truthy (s : string) : bool :=
  match s with EmptyString => false | _ => true end.

End Js.

(** ** Helper functions of the library (section HELPERS of the source) *)

(** [mac2ab]: one byte per colon-separated part. The [byteLength] of the
    buffer is the length of the list. *)
Definition mac2ab (mac : string) : list Z :=
  map (fun byte => Js.toUint8 (Js.parseInt16 byte)) (Js.split ":" mac).

(** The payload accepted by the write calls. *)
Inductive data :=
| DArrayBuffer (bytes : list Z)
| DUint8Array (bytes : list Z)
| DString (s : string).

(** [str2ab_with_len(str).data_ab], on a string of 8-bit characters, where
    storing a character code in the [Uint8Array] changes nothing;
    [str2ab_units] is the function on arbitrary code units. *)
Definition str2ab (s : string) : list Z :=
  map (fun c => Z.of_nat (nat_of_ascii c) mod 256) (Js.chars s).

(** [data2ab]. *)
Definition data2ab (d : data) : list Z :=
  match d with
  | DArrayBuffer b => b
  | DUint8Array b => b
  | DString s =>
      if Js.hex_only s
      then map (fun h => Js.toUint8 (Js.parseInt16 h))
               (Js.chunks2 (String.length s) s)
      else str2ab s
  end.

(** [isValidMacAddress]: the regular expression
    [/^[0-9A-Fa-f]{2}([-:])[0-9A-Fa-f]{2}(\1[0-9A-Fa-f]{2}){4}$/],
    that is six hex pairs separated by five copies of the same separator,
    a colon or a dash. *)
Definition is_sep (c : ascii) : bool :=
  (Ascii.eqb c "-" || Ascii.eqb c ":")%bool.

Fixpoint sep_pairs (n : nat) (sep : ascii) (cs : list ascii) : bool :=
  match n, cs with
  | O, [] => true
  | S n', s :: a :: b :: cs' =>
      Ascii.eqb s sep && Js.is_hex a && Js.is_hex b && sep_pairs n' sep cs'
  | _, _ => false
  end.

Definition isValidMacAddress (mac : string) : bool :=
  match Js.chars mac with
  | a :: b :: sep :: c :: d :: rest =>
      Js.is_hex a && Js.is_hex b && is_sep sep && Js.is_hex c && Js.is_hex d
      && sep_pairs 4 sep rest
  | _ => false
  end.

(** The loop of [isMacAddressMatch] over the index [i]: both lists have
    the same length when it runs. *)
Fixpoint match_bytes (mac_bytes pattern_bytes : list string) : bool :=
  match mac_bytes, pattern_bytes with
  | m :: ms, p :: ps =>
      if (negb (String.eqb p "xx") && negb (String.eqb p m))%bool then false
      else match_bytes ms ps
  | _, _ => true
  end.

(** [isMacAddressMatch(mac, pattern)]. *)
Definition isMacAddressMatch (mac pattern : string) : bool :=
  let mac_bytes := Js.split ":" mac in
  let pattern_bytes := Js.split ":" pattern in
  if negb (Nat.eqb (length mac_bytes) (length pattern_bytes)) then false
  else match_bytes mac_bytes pattern_bytes.

(** The keys of a registry object in enumeration order ([for ... in]):
    the registry is kept as an association list in that order. *)
Fixpoint find_key (keys : list string) (pattern : string) : option string :=
  match keys with
  | [] => None
  | mac :: keys' =>
      if isMacAddressMatch mac pattern then Some mac else find_key keys' pattern
  end.

(** [findMatchingMacAddress(devices, pattern)]; [None] is [null]. *)
Definition findMatchingMacAddress {A} (devices : list (string * A))
    (pattern : string) : option string :=
  let pattern := Js.toLowerCase pattern in
  find_key (map fst devices) pattern.

(** ** Devices and the registry *)

(** A device object of [#devices]. [connect_id] is [None] when the field
    is absent or not a number, [profile_pid] is [None] when undefined, and
    an absent [is_connected] reads as [false]. *)
Record device := mkDevice {
  dev_name : option string;
  connect_id : option Z;
  is_connected : bool;
  profile_pid : option Z
}.

(** [devices[key]]. *)
Fixpoint dev_get (key : string) (ds : list (string * device)) : option device :=
  match ds with
  | [] => None
  | (k, d) :: ds' => if String.eqb k key then Some d else dev_get key ds'
  end.

(** [devices[key] = d]: an existing key keeps its place in the
    enumeration order, a new key goes last. *)
Fixpoint dev_set (key : string) (d : device) (ds : list (string * device))
  : list (string * device) :=
  match ds with
  | [] => [(key, d)]
  | (k, d') :: ds' =>
      if String.eqb k key then (k, d) :: ds' else (k, d') :: dev_set key d ds'
  end.

(** ** The attribute tree handed to the transport *)

Record descriptor_node := mkDesc {
  d_uuid : string;
  d_permission : Z
}.

(** A characteristic node; [c_list] is absent when there is no
    descriptor. *)
Record characteristic_node := mkChara {
  c_uuid : string;
  c_permission : Z;
  c_desc : Z;
  c_len : Z;
  c_list : option (list descriptor_node)
}.

Record service_node := mkService {
  s_uuid : string;
  s_permission : Z;
  s_len1 : Z;
  s_len2 : Z;
  s_list : list characteristic_node
}.

(** The one entry of the root list; its [uuid] is the constant [true]. *)
Record service_list := mkServiceList {
  sl_uuid : bool;
  sl_size : Z;
  sl_len : Z;
  sl_list : list service_node
}.

Record profile_object := mkProfile {
  p_pair : bool;
  p_id : Z;
  p_profile : string;
  p_dev : list Z;
  p_len : Z;
  p_list : list service_list
}.

(** ** The native transport [hmBle], as the calls made into it *)

(** [mstOn c own] stands for the nine [hmBle.mstOn<c>(closure)] calls: the
    closure handed over is the one written in [On.<c>], which captures the
    [On] instance it was created on; [own] is the [#profile_pid] of that
    instance. *)

Inductive capability :=
| charaReadComplete | charaValueArrived | charaWriteComplete
| descReadComplete | descValueArrived | descWriteComplete
| charaNotification | serviceChangeBegin | serviceChangeEnd.

Inductive hm_call :=
| mstConnect (dev_addr : list Z)
| mstDisconnect (id : option Z)
| mstOffAllCb
| mstDestroyProfileInstance (profile : Z)
| mstStopScan
| mstOn (c : capability) (own : Z)
| mstOnPrepare
| mstBuildProfile (profile_object : profile_object)
| mstWriteCharacteristic (profile : Z) (uuid : string) (data_ab : list Z) (byteLength : Z)
| mstWriteCharacteristicWithoutResponse (profile : Z) (uuid : string)
    (data_ab : list Z) (byteLength : Z)
| mstWriteDescriptor (profile : Z) (chara desc : string) (data_ab : list Z) (byteLength : Z)
| mstReadCharacteristic (profile : Z) (uuid : string)
| mstReadDescriptor (profile : Z) (uuid_chara : option string) (uuid_desc : option string).

(** What the library does that its environment can see, oldest first. *)
Inductive event :=
| Call (c : hm_call)
| Continuation (err : option string)
| ConnectResponse (connected : bool) (status : string)
| PrepareResponse (success : bool) (message : string) (code : option string)
| Handler (c : capability).

(** ** Error messages (the [ERR] table) *)

Definition ERR_PREFIX := "ERR: ".
Definition ERR_DEVICE_NOT_CONNECTED :=
  ERR_PREFIX ++ "Device not connected. Please connect before attempting this operation.".
Definition ERR_INVALID_MAC_ADDR := ERR_PREFIX ++ "Invalid MAC address format".
Definition ERR_DEVICE_NOT_FOUND := ERR_PREFIX ++ "Device not found".
Definition ERR_CHAR_WRITE_OPERATION_TIMEOUT :=
  ERR_PREFIX ++ "Characteristic write operation timeout. Make sure to subscribe to the .on.charaWriteComplete(...) event!".
Definition ERR_CHAR_READ_OPERATION_TIMEOUT :=
  ERR_PREFIX ++ "Characteristic read operation timeout. Make sure to subscribe to either the .on.charaValueArrived(...) or .on.charaReadComplete(...) event!".
Definition ERR_DESC_WRITE_OPERATION_TIMEOUT :=
  ERR_PREFIX ++ "Descriptor write operation timeout. Make sure to subscribe to the .on.descWriteComplete(...) event!".
Definition ERR_DESC_READ_OPERATION_TIMEOUT :=
  ERR_PREFIX ++ "Descriptor read operation timeout. Make sure to subscribe to either the .on.descValueArrived(...) or .on.descReadComplete(...) event!".

(** ** State of the module *)

(** The private fields of [BLEMaster]. [on_off] is [Some pid] once
    [this.on = new On(pid)] and [this.off = new Off()] have been set. *)
Record BLEMaster := mkBLEMaster {
  devices : list (string * device);
  last_connected_mac : option string;
  connection_in_progress : bool;
  listener_starting : bool;
  prepare_starting : bool;
  is_scanning : bool;
  on_off : option Z
}.

Definition handler := nat.

(** The static completion flags of [On]. *)
Record On_flags := mkFlags {
  chara_write_complete_flag : bool;
  desc_write_complete_flag : bool;
  chara_read_complete_flag : bool;
  desc_read_complete_flag : bool
}.

(** The static callback storage of [On]; [None] is [null]. *)
Record On_cbs := mkCbs {
  _cb_charaReadComplete : option handler;
  _cb_charaValueArrived : option handler;
  _cb_charaWriteComplete : option handler;
  _cb_descReadComplete : option handler;
  _cb_descValueArrived : option handler;
  _cb_descWriteComplete : option handler;
  _cb_charaNotification : option handler;
  _cb_serviceChangeBegin : option handler;
  _cb_serviceChangeEnd : option handler
}.

(** A queued operation: the arguments its [execute] closure captured. *)
Inductive operation :=
| CharaWrite (uuid : string) (d : data) (write_without_response : bool)
| DescriptorWrite (chara desc : string) (d : data)
| ReadOperation (uuid : string) (is_descriptor : bool).

Record QueueManager := mkQueue {
  operation_queue_arr : list operation;
  is_processing : bool
}.

Inductive operation_type := Char | Desc.

(** The closure [cb_check_completion] with what it captured. *)
Inductive check :=
| WriteCheck (ty : operation_type) (start_time : Z)
| ReadCheck (is_descriptor : bool) (start_time : Z).

(** The host: the clock read by [Date.now()], the one poll callback
    handed to [setTimeout] with the time it is due, the names bound in the
    global scope, and the log of events. *)
Record Host := mkHost {
  now : Z;
  timer : option (check * Z);
  global_names : list string;
  trace : list event
}.

Record world := mkWorld {
  ble : BLEMaster;
  flags : On_flags;
  cbs : On_cbs;
  qm : QueueManager;
  host : Host
}.

Definition set_ble (b : BLEMaster) (w : world) : world :=
  mkWorld b (flags w) (cbs w) (qm w) (host w).
Definition set_flags (f : On_flags) (w : world) : world :=
  mkWorld (ble w) f (cbs w) (qm w) (host w).
Definition set_cbs (c : On_cbs) (w : world) : world :=
  mkWorld (ble w) (flags w) c (qm w) (host w).
Definition set_qm (q : QueueManager) (w : world) : world :=
  mkWorld (ble w) (flags w) (cbs w) q (host w).
Definition set_host (h : Host) (w : world) : world :=
  mkWorld (ble w) (flags w) (cbs w) (qm w) h.

Definition with_devices (ds : list (string * device)) (b : BLEMaster) :=
  mkBLEMaster ds (last_connected_mac b) (connection_in_progress b)
    (listener_starting b) (prepare_starting b) (is_scanning b) (on_off b).
Definition with_last_connected_mac (m : option string) (b : BLEMaster) :=
  mkBLEMaster (devices b) m (connection_in_progress b)
    (listener_starting b) (prepare_starting b) (is_scanning b) (on_off b).
Definition with_connection_in_progress (v : bool) (b : BLEMaster) :=
  mkBLEMaster (devices b) (last_connected_mac b) v
    (listener_starting b) (prepare_starting b) (is_scanning b) (on_off b).
Definition with_listener_starting (v : bool) (b : BLEMaster) :=
  mkBLEMaster (devices b) (last_connected_mac b) (connection_in_progress b)
    v (prepare_starting b) (is_scanning b) (on_off b).
Definition with_prepare_starting (v : bool) (b : BLEMaster) :=
  mkBLEMaster (devices b) (last_connected_mac b) (connection_in_progress b)
    (listener_starting b) v (is_scanning b) (on_off b).
Definition with_is_scanning (v : bool) (b : BLEMaster) :=
  mkBLEMaster (devices b) (last_connected_mac b) (connection_in_progress b)
    (listener_starting b) (prepare_starting b) v (on_off b).
Definition with_on_off (v : option Z) (b : BLEMaster) :=
  mkBLEMaster (devices b) (last_connected_mac b) (connection_in_progress b)
    (listener_starting b) (prepare_starting b) (is_scanning b) v.

Definition with_now (t : Z) (h : Host) :=
  mkHost t (timer h) (global_names h) (trace h).
Definition with_timer (t : option (check * Z)) (h : Host) :=
  mkHost (now h) t (global_names h) (trace h).
Definition with_trace (tr : list event) (h : Host) :=
  mkHost (now h) (timer h) (global_names h) tr.

(** Appends one event to the log. *)
Definition log (e : event) (w : world) : world :=
  set_host (with_trace (trace (host w) ++ [e]) (host w)) w.

(** ** Completions: a call returns a value or throws *)

Inductive exn :=
| ReferenceError (name : string)
| TypeError (msg : string).

Inductive completion (A : Type) :=
| Normal (a : A)
| Abrupt (e : exn).
Arguments Normal {A} a.
Arguments Abrupt {A} e.

Definition M (A : Type) : Type := world -> completion A * world.

Definition ret {A} (a : A) : M A := fun w => (Normal a, w).
Definition bind {A B} (m : M A) (k : A -> M B) : M B :=
  fun w => match m w with
           | (Normal a, w') => k a w'
           | (Abrupt e, w') => (Abrupt e, w')
           end.
Definition throw {A} (e : exn) : M A := fun w => (Abrupt e, w).
Definition emit (e : event) : M unit := fun w => (Normal tt, log e w).
Definition read {A} (f : world -> A) : M A := fun w => (Normal (f w), w).
Definition update (f : world -> world) : M unit := fun w => (Normal tt, f w).
Definition update_ble (f : BLEMaster -> BLEMaster) : M unit :=
  update (fun w => set_ble (f (ble w)) w).
Definition when (b : bool) (m : M unit) : M unit := if b then m else ret tt.

Notation "'let!' x ':=' m 'in' k" := (bind m (fun x => k))
  (at level 10, x name, m at level 100, k at level 200).
Notation "'do!' m 'in' k" := (bind m (fun _ => k))
  (at level 10, m at level 100, k at level 200).

(** Reading an identifier that no enclosing scope declares: it resolves
    in the global scope of the host or throws. *)
Definition resolve (x : string) : M unit :=
  fun w => if existsb (String.eqb x) (global_names (host w))
           then (Normal tt, w)
           else (Abrupt (ReferenceError x), w).

(** ** [BLEMaster] *)

(** [#getCurrentlyConnectedDevice]: [None] is [null] or [undefined]. *)
Definition getCurrentlyConnectedDevice (b : BLEMaster) : option device :=
  match last_connected_mac b with
  | Some mac => if Js.truthy mac then dev_get mac (devices b) else None
  | None => None
  end.

(** [Get.isConnected], as a truth value. *)
Definition isConnected (b : BLEMaster) : bool :=
  match getCurrentlyConnectedDevice b with
  | Some d => is_connected d
  | None => false
  end.

(** [#initiateConnection(dev_addr, response_callback)] up to the transport
    call; the callback it hands over is [on_connect_result]. *)
Definition initiateConnection (dev_addr : string) : M unit :=
  do! update_ble (with_connection_in_progress true) in
  emit (Call (mstConnect (mac2ab dev_addr))).

(** [connect(dev_addr, response_callback)]; the calls of
    [response_callback] are logged as [ConnectResponse]. *)
Definition connect (dev_addr : string) : M bool :=
  if negb (Js.truthy dev_addr) then ret false
  else
    let dev_addr := Js.toLowerCase dev_addr in
    let! b := read ble in
    let resolved :=
      if Js.includes dev_addr "xx" then
        match findMatchingMacAddress (devices b) dev_addr with
        | Some m => if Js.truthy m then Some m else None
        | None => None
        end
      else Some dev_addr in
    match resolved with
    | None => do! emit (ConnectResponse false "device not found") in ret false
    | Some dev_addr =>
        if isConnected b then
          do! emit (ConnectResponse true "connected") in ret true
        else if negb (isValidMacAddress dev_addr) then
          do! emit (ConnectResponse false "invalid mac") in ret false
        else if connection_in_progress b then
          do! emit (ConnectResponse false "in progress") in ret false
        else if match dev_get dev_addr (devices b) with
                | Some d => is_connected d
                | None => false
                end then
          do! emit (ConnectResponse true "connected") in ret true
        else
          do! resolve "attempt" in
          do! resolve "max_attempts" in
          do! resolve "timeout_duration" in
          do! initiateConnection dev_addr in
          ret true
    end.

(** The result object the transport passes to the callback of
    [mstConnect]. *)
Record connect_result := mkResult {
  r_dev_addr : list Z;
  r_connected : Z;
  r_connect_id : option Z
}.

(** [#handleSuccessfulConnection(result_mod)]. *)
Definition handleSuccessfulConnection (dev_addr : string) (id : option Z) : M unit :=
  update_ble (fun b =>
    let old := dev_get dev_addr (devices b) in
    let d := mkDevice (old ≫= dev_name) id true (old ≫= profile_pid) in
    with_last_connected_mac (Some dev_addr) (with_devices (dev_set dev_addr d (devices b)) b)).

(** The callback given to [mstConnect] by [#initiateConnection]. *)
Definition on_connect_result (dev_addr : string) (result : connect_result) : M unit :=
  do! (if r_connected result =? 0 then
     let! b := read ble in
     do! when (match dev_get dev_addr (devices b) with Some _ => false | None => true end)
       (update_ble (fun b =>
          with_devices (dev_set dev_addr
            (mkDevice (Some "default") (r_connect_id result) true None) (devices b)) b)) in
     do! handleSuccessfulConnection dev_addr (r_connect_id result) in
     emit (ConnectResponse true "connected")
   else
     emit (ConnectResponse false
             (if r_connected result =? 1 then "failed" else "disconnected"))) in
  update_ble (with_connection_in_progress false).

(** [disconnect()]; [ok] is what [hmBle.mstDisconnect] answers. *)
Definition disconnect (ok : bool) : M bool :=
  let! b := read ble in
  match last_connected_mac b with
  | None => ret false
  | Some mac =>
      if negb (Js.truthy mac) then ret false
      else match dev_get mac (devices b) with
           | None => ret false
           | Some device =>
               if negb (is_connected device) then ret false
               else
                 do! emit (Call (mstDisconnect (connect_id device))) in
                 do! when ok (update_ble (with_last_connected_mac None)) in
                 ret ok
           end
  end.

(** The [BX_CORE_CODES] table: message and code of a backend status. *)
Definition BX_CORE_CODES (status : Z) : option (string * string) :=
  if status =? -10 then Some ("Missing Attribute", "BX_CORE_MISS_ATT")
  else if status =? -9 then Some ("System Error", "BX_CORE_SYS")
  else if status =? -8 then Some ("Authentication Error", "BX_CORE_AUTH")
  else if status =? -7 then Some ("Invalid Parameter", "BX_CORE_PARAM")
  else if status =? -6 then Some ("Invalid Operation", "BX_CORE_INVALID")
  else if status =? -5 then Some ("Invalid State", "BX_CORE_STATE")
  else if status =? -4 then Some ("Busy", "BX_CORE_BUSY")
  else if status =? -3 then Some ("Timeout", "BX_CORE_TIMEOUT")
  else if status =? -2 then Some ("Uninitialized", "BX_CORE_UNINIT")
  else if status =? -1 then Some ("Fail", "BX_CORE_FAIL")
  else if status =? 0 then Some ("Success", "BX_CORE_SUCCESS")
  else None.

(** [startListener(profile_object, response_callback)] up to the
    registration of the prepare callback; the two functions it hands over,
    to [mstOnPrepare] and to [setTimeout], are [on_prepare] and
    [build_later]. The result tells whether it went past the guard. *)
Definition startListener : M bool :=
  let! b := read ble in
  if listener_starting b then ret false
  else
    do! update_ble (with_listener_starting true) in
    do! emit (Call mstOnPrepare) in
    ret true.

(** The callback that [startListener] gives to [mstOnPrepare], run by the
    transport with [{status, profile}]. *)
Definition on_prepare (status profile : Z) : M unit :=
  let! b := read ble in
  if prepare_starting b then ret tt
  else
    do! update_ble (with_prepare_starting true) in
    let status_info :=
      match BX_CORE_CODES status with
      | Some i => i
      | None => ("Unknown Error", "UNKNOWN")
      end in
    if status =? 0 then
      match last_connected_mac b ≫= (fun mac => dev_get mac (devices b)),
            last_connected_mac b with
      | Some d, Some mac =>
          do! update_ble (fun b =>
                with_on_off (Some profile)
                  (with_devices
                     (dev_set mac (mkDevice (dev_name d) (connect_id d)
                                     (is_connected d) (Some profile)) (devices b)) b)) in
          emit (PrepareResponse true (fst status_info) None)
      | _, _ => throw (TypeError "cannot set properties of undefined")
      end
    else
      emit (PrepareResponse false (fst status_info) (Some (snd status_info))).

(** The function that [startListener] gives to [setTimeout], run by the
    host [SHORT_DELAY] later. *)
Definition build_later (profile_object : profile_object) : M unit :=
  do! emit (Call (mstBuildProfile profile_object)) in
  do! update_ble (with_listener_starting false) in
  update_ble (with_prepare_starting false).

Definition cb_of (c : capability) (k : On_cbs) : option handler :=
  match c with
  | charaReadComplete => _cb_charaReadComplete k
  | charaValueArrived => _cb_charaValueArrived k
  | charaWriteComplete => _cb_charaWriteComplete k
  | descReadComplete => _cb_descReadComplete k
  | descValueArrived => _cb_descValueArrived k
  | descWriteComplete => _cb_descWriteComplete k
  | charaNotification => _cb_charaNotification k
  | serviceChangeBegin => _cb_serviceChangeBegin k
  | serviceChangeEnd => _cb_serviceChangeEnd k
  end.

(** [On._cb_<c> = v]. *)
Definition set_cb (c : capability) (v : option handler) (k : On_cbs) : On_cbs :=
  match c with
  | charaReadComplete =>
      mkCbs v (_cb_charaValueArrived k) (_cb_charaWriteComplete k) (_cb_descReadComplete k)
        (_cb_descValueArrived k) (_cb_descWriteComplete k) (_cb_charaNotification k)
        (_cb_serviceChangeBegin k) (_cb_serviceChangeEnd k)
  | charaValueArrived =>
      mkCbs (_cb_charaReadComplete k) v (_cb_charaWriteComplete k) (_cb_descReadComplete k)
        (_cb_descValueArrived k) (_cb_descWriteComplete k) (_cb_charaNotification k)
        (_cb_serviceChangeBegin k) (_cb_serviceChangeEnd k)
  | charaWriteComplete =>
      mkCbs (_cb_charaReadComplete k) (_cb_charaValueArrived k) v (_cb_descReadComplete k)
        (_cb_descValueArrived k) (_cb_descWriteComplete k) (_cb_charaNotification k)
        (_cb_serviceChangeBegin k) (_cb_serviceChangeEnd k)
  | descReadComplete =>
      mkCbs (_cb_charaReadComplete k) (_cb_charaValueArrived k) (_cb_charaWriteComplete k) v
        (_cb_descValueArrived k) (_cb_descWriteComplete k) (_cb_charaNotification k)
        (_cb_serviceChangeBegin k) (_cb_serviceChangeEnd k)
  | descValueArrived =>
      mkCbs (_cb_charaReadComplete k) (_cb_charaValueArrived k) (_cb_charaWriteComplete k)
        (_cb_descReadComplete k) v (_cb_descWriteComplete k) (_cb_charaNotification k)
        (_cb_serviceChangeBegin k) (_cb_serviceChangeEnd k)
  | descWriteComplete =>
      mkCbs (_cb_charaReadComplete k) (_cb_charaValueArrived k) (_cb_charaWriteComplete k)
        (_cb_descReadComplete k) (_cb_descValueArrived k) v (_cb_charaNotification k)
        (_cb_serviceChangeBegin k) (_cb_serviceChangeEnd k)
  | charaNotification =>
      mkCbs (_cb_charaReadComplete k) (_cb_charaValueArrived k) (_cb_charaWriteComplete k)
        (_cb_descReadComplete k) (_cb_descValueArrived k) (_cb_descWriteComplete k) v
        (_cb_serviceChangeBegin k) (_cb_serviceChangeEnd k)
  | serviceChangeBegin =>
      mkCbs (_cb_charaReadComplete k) (_cb_charaValueArrived k) (_cb_charaWriteComplete k)
        (_cb_descReadComplete k) (_cb_descValueArrived k) (_cb_descWriteComplete k)
        (_cb_charaNotification k) v (_cb_serviceChangeEnd k)
  | serviceChangeEnd =>
      mkCbs (_cb_charaReadComplete k) (_cb_charaValueArrived k) (_cb_charaWriteComplete k)
        (_cb_descReadComplete k) (_cb_descValueArrived k) (_cb_descWriteComplete k)
        (_cb_charaNotification k) (_cb_serviceChangeBegin k) v
  end.

(** No callback stored: the initial value of the nine statics. *)
Definition no_cbs : On_cbs := mkCbs None None None None None None None None None.

(** [ble.on.<c>(callback)] with a function: stores the callback in the
    static slot and hands the transport a closure over the current [On]
    instance, whose [#profile_pid] is [own]; [ble.on] is undefined before a
    profile is prepared. *)
Definition on_subscribe (c : capability) (callback : handler) : M unit :=
  let! b := read ble in
  match on_off b with
  | None => throw (TypeError "cannot read properties of undefined")
  | Some own =>
      do! update (fun w => set_cbs (set_cb c (Some callback) (cbs w)) w) in
      emit (Call (mstOn c own))
  end.

(** [Off.deregisterAll()]: the nine assignments of [null]. *)
Definition deregisterAll : M unit :=
  do! update (fun w => set_cbs (set_cb charaReadComplete None (cbs w)) w) in
  do! update (fun w => set_cbs (set_cb charaValueArrived None (cbs w)) w) in
  do! update (fun w => set_cbs (set_cb charaWriteComplete None (cbs w)) w) in
  do! update (fun w => set_cbs (set_cb descReadComplete None (cbs w)) w) in
  do! update (fun w => set_cbs (set_cb descValueArrived None (cbs w)) w) in
  do! update (fun w => set_cbs (set_cb descWriteComplete None (cbs w)) w) in
  do! update (fun w => set_cbs (set_cb charaNotification None (cbs w)) w) in
  do! update (fun w => set_cbs (set_cb serviceChangeBegin None (cbs w)) w) in
  update (fun w => set_cbs (set_cb serviceChangeEnd None (cbs w)) w).

(** [#disconnectDevice(device)], where [device] is the object stored
    under [mac]: the assignment to [is_connected] changes that entry. *)
Definition disconnectDevice (mac : string) (device : device) : M unit :=
  do! emit (Call mstOffAllCb) in
  do! match profile_pid device with
      | Some pid => emit (Call (mstDestroyProfileInstance pid))
      | None => ret tt
      end in
  do! emit (Call (mstDisconnect (connect_id device))) in
  update_ble (fun b =>
    with_devices
      (dev_set mac (mkDevice (dev_name device) (connect_id device) false
                      (profile_pid device)) (devices b)) b).

(** [stopScan()]. *)
Definition stopScan : M unit :=
  let! b := read ble in
  if is_scanning b then
    do! update_ble (with_is_scanning false) in
    emit (Call mstStopScan)
  else ret tt.

(** [quit()]. *)
Definition quit : M unit :=
  let! b := read ble in
  match last_connected_mac b with
  | None => ret tt
  | Some mac =>
      if negb (Js.truthy mac) then ret tt
      else
        do! match dev_get mac (devices b) with
            | Some device =>
                if is_connected device then disconnectDevice mac device else ret tt
            | None => ret tt
            end in
        do! match on_off b with
            | Some _ => deregisterAll
            | None => ret tt
            end in
        do! update_ble (with_last_connected_mac None) in
        let! b' := read ble in
        if is_scanning b' then stopScan else ret tt
  end.

(** ** The profile compiler: [generateProfileObject] *)

(** What [generateProfileObject] returns: [{success: false, error}] or
    the profile object. *)
Inductive generated :=
| GenError (error : string)
| GenProfile (p : profile_object).

(** The services argument as [Object.entries] enumerates it, and the
    permissions argument as a map from UUID to the [value] of its entry. *)
Definition services_map := list (string * list (string * list string)).

Definition perm_of (permissions : gmap string Z) (uuid : string) : Z :=
  match permissions !! uuid with
  | Some v => v
  | None => 32
  end.

Definition len_of {A} (l : list A) : Z := Z.of_nat (length l).

Definition make_descriptor (permissions : gmap string Z) (descriptor_uuid : string)
  : descriptor_node :=
  mkDesc descriptor_uuid (perm_of permissions descriptor_uuid).

Definition make_characteristic (permissions : gmap string Z)
    (entry : string * list string) : characteristic_node :=
  let (chara_uuid, desc_uuids) := entry in
  mkChara chara_uuid (perm_of permissions chara_uuid)
    (len_of desc_uuids) (len_of desc_uuids)
    (if 0 <? len_of desc_uuids
     then Some (map (make_descriptor permissions) desc_uuids)
     else None).

Definition make_service (permissions : gmap string Z)
    (entry : string * list (string * list string)) : service_node :=
  let (serv_uuid, characteristics) := entry in
  let chara_len := len_of characteristics in
  mkService serv_uuid 0 chara_len chara_len
    (map (make_characteristic permissions) characteristics).

Definition generateProfileObject (b : BLEMaster) (services : services_map)
    (permissions : gmap string Z) : generated :=
  match last_connected_mac b with
  | None => GenError ERR_DEVICE_NOT_CONNECTED
  | Some dev_addr =>
      if negb (Js.truthy dev_addr) then GenError ERR_DEVICE_NOT_CONNECTED
      else
        match dev_get dev_addr (devices b) with
        | None => GenError (ERR_DEVICE_NOT_FOUND ++ ": " ++ dev_addr)
        | Some device =>
            if negb (is_connected device) then GenError ERR_DEVICE_NOT_CONNECTED
            else
              match connect_id device with
              | None => GenError ERR_DEVICE_NOT_CONNECTED
              | Some id =>
                  let dev := mac2ab dev_addr in
                  if negb (len_of dev =? 6)
                  then GenError (ERR_INVALID_MAC_ADDR ++ ": " ++ dev_addr)
                  else
                    let serv_len := len_of services in
                    GenProfile
                      (mkProfile true id
                         (match dev_name device with
                          | Some n => if Js.truthy n then n else "undefined"
                          | None => "undefined"
                          end)
                         dev 1
                         [mkServiceList true serv_len serv_len
                            (map (make_service permissions) services)])
              end
        end
  end.

(** ** The operation queue: [QueueManager], [Write], [Read] *)

Definition queue_timeout : Z := 5000.
Definition queue_check_interval : Z := 100.

Definition _setCharaWriteCompleteFlag (v : bool) (f : On_flags) : On_flags :=
  mkFlags v (desc_write_complete_flag f) (chara_read_complete_flag f)
    (desc_read_complete_flag f).
Definition _setDescWriteCompleteFlag (v : bool) (f : On_flags) : On_flags :=
  mkFlags (chara_write_complete_flag f) v (chara_read_complete_flag f)
    (desc_read_complete_flag f).
Definition _setCharaReadCompleteFlag (v : bool) (f : On_flags) : On_flags :=
  mkFlags (chara_write_complete_flag f) (desc_write_complete_flag f) v
    (desc_read_complete_flag f).
Definition _setDescReadCompleteFlag (v : bool) (f : On_flags) : On_flags :=
  mkFlags (chara_write_complete_flag f) (desc_write_complete_flag f)
    (chara_read_complete_flag f) v.

(** [setTimeout(cb_check_completion, check_interval)]. *)
Definition setTimeout (cb : check) (delay : Z) (w : world) : world :=
  set_host (with_timer (Some (cb, now (host w) + delay)) (host w)) w.

(** The functions below return the new state and whether [callback] was
    invoked; every invocation of [callback] in the source is the last
    action of its branch, so the caller runs the continuation next. *)

(** [cb_check_completion] of [#waitForWriteCompletion]. *)
Definition write_check_completion (operation_type : operation_type)
    (start_time : Z) (w : world) : world * bool :=
  if now (host w) - start_time >? queue_timeout then
    match operation_type with
    | Char => (log (Continuation (Some ERR_CHAR_WRITE_OPERATION_TIMEOUT)) w, true)
    | Desc => (log (Continuation (Some ERR_DESC_WRITE_OPERATION_TIMEOUT)) w, true)
    end
  else if (desc_write_complete_flag (flags w) || chara_write_complete_flag (flags w))%bool
  then
    let w := set_flags (_setDescWriteCompleteFlag false (flags w)) w in
    let w := set_flags (_setCharaWriteCompleteFlag false (flags w)) w in
    (log (Continuation None) w, true)
  else (setTimeout (WriteCheck operation_type start_time) queue_check_interval w, false).

(** [cb_check_completion] of [#waitForReadCompletion]. *)
Definition read_check_completion (is_descriptor : bool)
    (start_time : Z) (w : world) : world * bool :=
  if now (host w) - start_time >? queue_timeout then
    if is_descriptor
    then (log (Continuation (Some ERR_DESC_READ_OPERATION_TIMEOUT)) w, true)
    else (log (Continuation (Some ERR_CHAR_READ_OPERATION_TIMEOUT)) w, true)
  else if ((is_descriptor && desc_read_complete_flag (flags w))
           || (negb is_descriptor && chara_read_complete_flag (flags w)))%bool
  then
    let w := set_flags (_setDescReadCompleteFlag false (flags w)) w in
    let w := set_flags (_setCharaReadCompleteFlag false (flags w)) w in
    (log (Continuation None) w, true)
  else (setTimeout (ReadCheck is_descriptor start_time) queue_check_interval w, false).

Definition run_check (cb : check) (w : world) : world * bool :=
  match cb with
  | WriteCheck ty start_time => write_check_completion ty start_time w
  | ReadCheck is_descriptor start_time => read_check_completion is_descriptor start_time w
  end.

(** [#waitForWriteCompletion] and [#waitForReadCompletion]: the start
    time is read, then the check runs once at once. *)
Definition waitForWriteCompletion (operation_type : operation_type) (w : world)
  : world * bool :=
  let start_time := now (host w) in
  write_check_completion operation_type start_time w.

Definition waitForReadCompletion (is_descriptor : bool) (w : world) : world * bool :=
  let start_time := now (host w) in
  read_check_completion is_descriptor start_time w.

(** The profile handle the operations use, when there is a current
    device that has one. *)
Definition current_pid (w : world) : option Z :=
  match getCurrentlyConnectedDevice (ble w) with
  | Some device => profile_pid device
  | None => None
  end.

(** [Write.#performCharaWrite]. *)
Definition performCharaWrite (uuid : string) (d : data)
    (write_without_response : bool) (w : world) : world * bool :=
  match current_pid w with
  | None => (log (Continuation None) w, true)
  | Some profile_pid =>
      let data_ab := data2ab d in
      if write_without_response then
        let w := log (Call (mstWriteCharacteristicWithoutResponse
                              profile_pid uuid data_ab (len_of data_ab))) w in
        (log (Continuation None) w, true)
      else
        let w := log (Call (mstWriteCharacteristic
                              profile_pid uuid data_ab (len_of data_ab))) w in
        waitForWriteCompletion Char w
  end.

(** [Write.#performDescriptorWrite]. *)
Definition performDescriptorWrite (chara desc : string) (d : data) (w : world)
  : world * bool :=
  match current_pid w with
  | None => (log (Continuation None) w, true)
  | Some profile_pid =>
      let data_ab := data2ab d in
      let w := log (Call (mstWriteDescriptor
                            profile_pid chara desc data_ab (len_of data_ab))) w in
      waitForWriteCompletion Desc w
  end.

(** [Read.#performReadOperation]. *)
Definition performReadOperation (uuid : string) (is_descriptor : bool) (w : world)
  : world * bool :=
  match current_pid w with
  | None => (log (Continuation None) w, true)
  | Some profile_pid =>
      let w :=
        if is_descriptor then
          let parts := Js.split "-" uuid in
          log (Call (mstReadDescriptor profile_pid (parts !! 0%nat) (parts !! 1%nat))) w
        else log (Call (mstReadCharacteristic profile_pid uuid)) w in
      waitForReadCompletion is_descriptor w
  end.

(** [operation.execute(callback)]. *)
Definition execute (op : operation) (w : world) : world * bool :=
  match op with
  | CharaWrite uuid d wwr => performCharaWrite uuid d wwr w
  | DescriptorWrite chara desc d => performDescriptorWrite chara desc d w
  | ReadOperation uuid is_descriptor => performReadOperation uuid is_descriptor w
  end.

Definition with_queue (q : list operation) (m : QueueManager) :=
  mkQueue q (is_processing m).
Definition with_is_processing (v : bool) (m : QueueManager) :=
  mkQueue (operation_queue_arr m) v.

(** [processQueue] once it is past its guard, with the queue it found:
    it takes the head and executes it; when the operation called back, the
    continuation clears [is_processing] and runs [processQueue] again, on
    the rest of the queue. *)
Fixpoint drain (queue : list operation) (w : world) : world :=
  match queue with
  | [] => w
  | operation :: rest =>
      let w := set_qm (mkQueue rest true) w in
      let (w, called_back) := execute operation w in
      if called_back
      then drain rest (set_qm (with_is_processing false (qm w)) w)
      else w
  end.

(** [QueueManager.processQueue]. *)
Definition processQueue (w : world) : world :=
  if (is_processing (qm w)
      || Nat.eqb (length (operation_queue_arr (qm w))) 0)%bool
  then w
  else drain (operation_queue_arr (qm w)) w.

(** The continuation that [processQueue] passes to [execute]. *)
Definition continuation (w : world) : world :=
  processQueue (set_qm (with_is_processing false (qm w)) w).

(** [QueueManager.enqueueOperation]. *)
Definition enqueueOperation (op : operation) (w : world) : world :=
  processQueue (set_qm (with_queue (operation_queue_arr (qm w) ++ [op]) (qm w)) w).

(** The public calls of [Write] and [Read]. *)
Definition write_characteristic (uuid : string) (d : data)
    (write_without_response : bool) : world -> world :=
  enqueueOperation (CharaWrite uuid d write_without_response).
Definition write_descriptor (chara desc : string) (d : data) : world -> world :=
  enqueueOperation (DescriptorWrite chara desc d).
Definition enableCharaNotifications (chara : string) (enable : bool) : world -> world :=
  let cccd_val := if enable then "0100" else "0000" in
  let uuid_cccd := "2902" in
  enqueueOperation (DescriptorWrite chara uuid_cccd (DString cccd_val)).
Definition read_characteristic (uuid : string) : world -> world :=
  enqueueOperation (ReadOperation uuid false).
Definition read_descriptor (chara desc : string) : world -> world :=
  enqueueOperation (ReadOperation (chara ++ "-" ++ desc) true).

(** ** The host and the transport driving the queue *)

(** The closure that [ble.on.<c>] hands to the transport, created on the
    [On] instance whose [#profile_pid] is [own], run by the transport with
    a response for [profile]. It compares the response with the handle of
    its own instance, not with the handle of the current one; the flags and
    the callback slots are static, shared by all instances. *)
Definition listener (c : capability) (own profile : Z) (w : world) : world :=
  if own =? profile then
    let w :=
      match c with
      | charaReadComplete | charaValueArrived =>
          set_flags (_setCharaReadCompleteFlag true (flags w)) w
      | charaWriteComplete =>
          set_flags (_setCharaWriteCompleteFlag true (flags w)) w
      | descReadComplete | descValueArrived =>
          set_flags (_setDescReadCompleteFlag true (flags w)) w
      | descWriteComplete =>
          set_flags (_setDescWriteCompleteFlag true (flags w)) w
      | _ => w
      end in
    match cb_of c (cbs w) with
    | Some _ => log (Handler c) w
    | None => w
    end
  else w.

(** The host runs the pending poll callback, once it is due. *)
Definition fire_timer (w : world) : world :=
  match timer (host w) with
  | Some (cb, due) =>
      if due <=? now (host w) then
        let w := set_host (with_timer None (host w)) w in
        let (w, called_back) := run_check cb w in
        if called_back then continuation w else w
      else w
  | None => w
  end.

(** What the environment does: the application submits an operation, time
    passes, the host runs the pending timer, the transport runs the closure
    of [c] created on the instance [own] with a response for [profile]. *)
Inductive env_event :=
| EvEnqueue (op : operation)
| EvAdvance (ms : nat)
| EvTimer
| EvPush (c : capability) (own profile : Z).

Definition step (e : env_event) (w : world) : world :=
  match e with
  | EvEnqueue op => enqueueOperation op w
  | EvAdvance ms => set_host (with_now (now (host w) + Z.of_nat ms) (host w)) w
  | EvTimer => fire_timer w
  | EvPush c own profile => listener c own profile w
  end.

Definition run (schedule : list env_event) (w : world) : world :=
  fold_left (fun w e => step e w) schedule w.

(** A punctual host: the clock reaches the due time of the pending poll
    and the poll runs. *)
Definition tick (w : world) : world :=
  match timer (host w) with
  | Some (_, due) => run [EvAdvance (Z.to_nat (due - now (host w))); EvTimer] w
  | None => w
  end.

(** ** Reading the log *)

(** The attribute reads and writes, the calls the queue serializes. *)
Definition attribute_io (c : hm_call) : bool :=
  match c with
  | mstWriteCharacteristic _ _ _ _
  | mstWriteCharacteristicWithoutResponse _ _ _ _
  | mstWriteDescriptor _ _ _ _ _
  | mstReadCharacteristic _ _
  | mstReadDescriptor _ _ _ => true
  | _ => false
  end.

Fixpoint io_calls (tr : list event) : list hm_call :=
  match tr with
  | [] => []
  | Call c :: tr' => if attribute_io c then c :: io_calls tr' else io_calls tr'
  | _ :: tr' => io_calls tr'
  end.

(** Scans a log with the flag "an operation is in flight": [None] as soon
    as an attribute call is issued while one is in flight, else the flag at
    the end. *)
Fixpoint in_flight (busy : bool) (tr : list event) : option bool :=
  match tr with
  | [] => Some busy
  | Call c :: tr' =>
      if attribute_io c
      then (if busy then None else in_flight true tr')
      else in_flight busy tr'
  | Continuation _ :: tr' => in_flight false tr'
  | _ :: tr' => in_flight busy tr'
  end.

Definition serialized (tr : list event) : Prop := is_Some (in_flight false tr).

(** The transport call an operation issues for the profile [pid]. *)
Definition transport_call (pid : Z) (op : operation) : hm_call :=
  match op with
  | CharaWrite uuid d true =>
      mstWriteCharacteristicWithoutResponse pid uuid (data2ab d) (len_of (data2ab d))
  | CharaWrite uuid d false =>
      mstWriteCharacteristic pid uuid (data2ab d) (len_of (data2ab d))
  | DescriptorWrite chara desc d =>
      mstWriteDescriptor pid chara desc (data2ab d) (len_of (data2ab d))
  | ReadOperation uuid true =>
      mstReadDescriptor pid (Js.split "-" uuid !! 0%nat) (Js.split "-" uuid !! 1%nat)
  | ReadOperation uuid false => mstReadCharacteristic pid uuid
  end.

(** The operations a schedule submits, in order. *)
Fixpoint enqueued (schedule : list env_event) : list operation :=
  match schedule with
  | [] => []
  | EvEnqueue op :: s => op :: enqueued s
  | _ :: s => enqueued s
  end.

(** The queue at rest in front of a device whose profile is prepared. *)
Definition idle_prepared (pid : Z) (w : world) : Prop :=
  current_pid w = Some pid
  /\ qm w = mkQueue [] false
  /\ timer (host w) = None
  /\ trace (host w) = [].

(** A concrete device, master and world used in examples. *)
Definition sample_device : device := mkDevice (Some "sensor") (Some 1) true (Some 7).
Definition sample_master : BLEMaster :=
  mkBLEMaster [("aa:bb:cc:dd:ee:ff", sample_device)] (Some "aa:bb:cc:dd:ee:ff")
    false false false false (Some 7).
Definition no_flags : On_flags := mkFlags false false false false.
Definition sample_world : world :=
  mkWorld sample_master no_flags no_cbs (mkQueue [] false) (mkHost 1000 None [] []).
Definition fresh_master : BLEMaster := mkBLEMaster [] None false false false false None.
Definition fresh_world (globals : list string) : world :=
  mkWorld fresh_master no_flags no_cbs (mkQueue [] false) (mkHost 0 None globals []).

(** ** Vocabulary of the statements *)

(** A pattern octet agrees with an address octet. *)
Definition octet_agrees (p m : string) : Prop := p = "xx" \/ p = m.

(** The device that [generateProfileObject] accepts: tracked, connected,
    with a numeric connection id and an address of six parts. *)
Definition ready (b : BLEMaster) (dev_addr : string) (device : device) (id : Z) : Prop :=
  last_connected_mac b = Some dev_addr
  /\ dev_get dev_addr (devices b) = Some device
  /\ is_connected device = true
  /\ connect_id device = Some id
  /\ length (Js.split ":" dev_addr) = 6%nat.

Definition profile_name (device : device) : string :=
  match dev_name device with
  | Some n => if Js.truthy n then n else "undefined"
  | None => "undefined"
  end.


(** The states in which [generateProfileObject] answers with an error:
    no tracked device that is marked connected, a connection id that is
    not a number, or an address that does not split into six parts. *)
Definition rejected (b : BLEMaster) : Prop :=
  isConnected b = false
  \/ (exists d, getCurrentlyConnectedDevice b = Some d /\ connect_id d = None)
  \/ (exists m, last_connected_mac b = Some m /\ length (Js.split ":" m) <> 6%nat).

(** The state a call leaves behind. *)
Definition exec {A} (m : M A) (w : world) : world := snd (m w).

(** The three identifiers that the call site of [#initiateConnection]
    reads without declaring them. *)
Definition free_identifiers : list string :=
  ["attempt"; "max_attempts"; "timeout_duration"].

(** The registry entry for an address is marked connected. *)
Definition entry_connected (b : BLEMaster) (dev_addr : string) : bool :=
  match dev_get dev_addr (devices b) with
  | Some d => is_connected d
  | None => false
  end.

(** A session with one subscription whose device was then disconnected
    with [disconnect()]: connect, the transport reports success, the
    profile is prepared, a write-complete handler is registered, and
    [disconnect()] succeeds. *)
Definition lingering_world : world :=
  let w := fresh_world free_identifiers in
  let w := exec (connect "AA:BB:CC:DD:EE:FF") w in
  let w := exec (on_connect_result "aa:bb:cc:dd:ee:ff"
                   (mkResult [170; 187; 204; 221; 238; 255] 0 (Some 1))) w in
  let profile := generateProfileObject (ble w) [("180F", [("2A19", ["2902"])])] ∅ in
  let w := exec startListener w in
  let w := match profile with
           | GenProfile p => exec (build_later p) w
           | GenError _ => w
           end in
  let w := exec (on_prepare 0 7) w in
  let w := exec (on_subscribe charaWriteComplete 1%nat) w in
  exec (disconnect true) w.

(** The completion flag that a pending check waits for is raised. *)
Definition flag_raised (cb : check) (f : On_flags) : bool :=
  match cb with
  | WriteCheck _ _ => desc_write_complete_flag f || chara_write_complete_flag f
  | ReadCheck is_descriptor _ =>
      (is_descriptor && desc_read_complete_flag f)
      || (negb is_descriptor && chara_read_complete_flag f)
  end.

(** Both write flags, then both read flags, reset. *)
Definition write_flags_reset (f : On_flags) : On_flags :=
  _setCharaWriteCompleteFlag false (_setDescWriteCompleteFlag false f).

(** No device is tracked: [!this.#last_connected_mac] holds. *)
Definition untracked (b : BLEMaster) : bool :=
  match last_connected_mac b with
  | Some mac => negb (Js.truthy mac)
  | None => true
  end.

(** The start time a pending check captured, the error it reports on a
    timeout, and the flags it resets on completion. *)
Definition start_of (cb : check) : Z :=
  match cb with
  | WriteCheck _ start_time | ReadCheck _ start_time => start_time
  end.

Definition timeout_message (cb : check) : string :=
  match cb with
  | WriteCheck Char _ => ERR_CHAR_WRITE_OPERATION_TIMEOUT
  | WriteCheck Desc _ => ERR_DESC_WRITE_OPERATION_TIMEOUT
  | ReadCheck true _ => ERR_DESC_READ_OPERATION_TIMEOUT
  | ReadCheck false _ => ERR_CHAR_READ_OPERATION_TIMEOUT
  end.

Definition reset_flags (cb : check) (f : On_flags) : On_flags :=
  match cb with
  | WriteCheck _ _ => write_flags_reset f
  | ReadCheck _ _ => _setCharaReadCompleteFlag false (_setDescReadCompleteFlag false f)
  end.

(** The check that an operation issued at [start_time] waits on; a write
    without response waits on none. *)
Definition check_of (op : operation) (start_time : Z) : option check :=
  match op with
  | CharaWrite _ _ true => None
  | CharaWrite _ _ false => Some (WriteCheck Char start_time)
  | DescriptorWrite _ _ _ => Some (WriteCheck Desc start_time)
  | ReadOperation _ is_descriptor => Some (ReadCheck is_descriptor start_time)
  end.

(** The events whose closure raises the flag that the check [cb] reads:
    either write-complete event for a write of either kind, the
    read-complete and value-arrived events of the same kind for a read. *)
Definition completes (c : capability) (cb : check) : bool :=
  match c, cb with
  | (charaWriteComplete | descWriteComplete), WriteCheck _ _ => true
  | (charaReadComplete | charaValueArrived), ReadCheck false _ => true
  | (descReadComplete | descValueArrived), ReadCheck true _ => true
  | _, _ => false
  end.

(** The event sets the flag that [cb] reads: such an event, accepted by
    its closure. *)
Definition sets_flag (cb : check) (e : env_event) : bool :=
  match e with
  | EvPush c own profile => completes c cb && (own =? profile)
  | _ => false
  end.

(** A schedule during which the flag that [cb] reads is never set;
    anything else may happen: submissions, other events, events for other
    handles, time passing, timers running early or late. *)
Definition flag_never_set (cb : check) (schedule : list env_event) : Prop :=
  forallb (fun e => negb (sets_flag cb e)) schedule = true.




(** The user handlers a log may gain while an operation waits. *)
Definition handlers (hs : list capability) : list event := map Handler hs.

(** An operation waiting on [cb] whose log since the issue, [tr0], has
    gained nothing but user handlers: a poll is scheduled, the flag is
    down, the queue is busy. *)
Definition pending (cb : check) (tr0 : list event) (w : world) : Prop :=
  (exists due, timer (host w) = Some (cb, due))
  /\ flag_raised cb (flags w) = false
  /\ is_processing (qm w) = true
  /\ exists hs, trace (host w) = (tr0 ++ handlers hs)%list.


(** Both write flags are down. *)
Definition write_flags_down (f : On_flags) : Prop :=
  chara_write_complete_flag f = false /\ desc_write_complete_flag f = false.

(** The queue waiting on [cb] since the poll at time [t]. *)
Definition polling (w : world) (cb : check) (t : Z) : world :=
  set_host (mkHost t (Some (cb, t + queue_check_interval))
              (global_names (host w)) (trace (host w))) w.

(** What holds of the queue in every reachable state, for the profile
    [pid] and the operations [enq] submitted so far: a poll is pending
    exactly while an operation is in flight, and with none pending the
    queue is empty; the log is serialized; the calls issued followed by
    the calls of the operations still queued are the calls of [enq]. *)
Definition queue_inv (pid : Z) (enq : list operation) (w : world) : Prop :=
  current_pid w = Some pid
  /\ match timer (host w) with
     | Some _ => is_processing (qm w) = true
     | None => qm w = mkQueue [] false
     end
  /\ in_flight false (trace (host w)) = Some (is_processing (qm w))
  /\ (io_calls (trace (host w))
      ++ map (transport_call pid) (operation_queue_arr (qm w)))%list
     = map (transport_call pid) enq.

(** How far the pending check is from its timeout. *)
Definition polls_left (w : world) : nat :=
  match timer (host w) with
  | Some (cb, due) => Z.to_nat (queue_timeout + 1 - (due - start_of cb))
  | None => O
  end.

(** The state in which [processQueue] finds the queue [queue] at rest. *)
Definition at_rest (pid : Z) (enq queue : list operation) (w : world) : Prop :=
  current_pid w = Some pid
  /\ timer (host w) = None
  /\ qm w = mkQueue queue false
  /\ in_flight false (trace (host w)) = Some false
  /\ (io_calls (trace (host w)) ++ map (transport_call pid) queue)%list
     = map (transport_call pid) enq.

(** ** The remaining conversion helpers *)

(** The digit of [Number.prototype.toString(16)] for a value below 16. *)
Definition hex_char (d : Z) : ascii :=
  if d <? 10 then ascii_of_nat (Z.to_nat (48 + d)) else ascii_of_nat (Z.to_nat (87 + d)).

Fixpoint hex_digits (fuel : nat) (n : Z) (acc : string) : string :=
  match fuel with
  | O => acc
  | S fuel' =>
      let acc' := String (hex_char (n mod 16)) acc in
      if n / 16 =? 0 then acc' else hex_digits fuel' (n / 16) acc'
  end.

(** [n.toString(16)] for a non-negative integer: lowercase digits, no
    leading zero. *)
Definition toString16 (n : Z) : string :=
  hex_digits (S (Z.to_nat (Z.log2 n))) n EmptyString.

(** [s.padStart(2, '0')]. *)
Definition padStart2 (s : string) : string :=
  match s with
  | EmptyString => "00"
  | String c EmptyString => String "0" s
  | _ => s
  end.

(** [s.slice(-2)]: the last two characters. *)
Fixpoint slice_last2 (s : string) : string :=
  match s with
  | String _ (String _ (String _ _) as s') => slice_last2 s'
  | _ => s
  end.

(** [parts.join(sep)]. *)
Fixpoint join (sep : string) (parts : list string) : string :=
  match parts with
  | [] => EmptyString
  | [p] => p
  | p :: ps => p ++ sep ++ join sep ps
  end.

(** [String.prototype.toUpperCase], on the ASCII range. *)
Definition upper_ascii (c : ascii) : ascii :=
  let n := nat_of_ascii c in
  if (Nat.leb 97 n && Nat.leb n 122)%bool then ascii_of_nat (n - 32) else c.

Fixpoint toUpperCase (s : string) : string :=
  match s with
  | EmptyString => EmptyString
  | String c s' => String (upper_ascii c) (toUpperCase s')
  end.

(** The elements of a [Uint8Array]: integers from 0 to 255. *)
Definition is_byte (b : Z) : Prop := 0 <= b < 256.

(** [ab2mac]. *)
Definition ab2mac (ab : list Z) : string :=
  join ":" (map (fun byte => padStart2 (toString16 byte)) ab).

(** [ab2str_stripped]. *)
Definition ab2str_stripped (buffer : list Z) : string :=
  join "" (map (fun u => slice_last2 ("00" ++ toString16 u)) buffer).

(** [ab2hex(buffer, space)]. *)
Definition ab2hex (buffer : list Z) (space : bool) : string :=
  toUpperCase
    (join (if space then " " else "")
       (map (fun byte => slice_last2 ("0" ++ toString16 byte)) buffer)).

(** Conversion to a signed 32-bit integer, as the bitwise operators of
    JavaScript apply it to their operands and result. *)
Definition toInt32 (z : Z) : Z := (z + 2 ^ 31) mod 2 ^ 32 - 2 ^ 31.

(** [ab2num]: the loop [num = (num << 8) | uint8_arr[i]]. *)
Definition ab2num (buffer : list Z) : Z :=
  fold_left (fun num byte => toInt32 (Z.lor (toInt32 (Z.shiftl (toInt32 num) 8)) byte))
    buffer 0.

(** The big-endian value of a sequence of bytes. *)
Definition big_endian (buffer : list Z) : Z :=
  fold_left (fun num byte => num * 256 + byte) buffer 0.

(** [ab2str] and [bytes2str]: [String.fromCharCode] of every byte. *)
Definition ab2str (buffer : list Z) : string :=
  string_of_list_ascii (map (fun b => ascii_of_nat (Z.to_nat b)) buffer).

(** [arr2ab] on an array of integers, and [ab2arr]. *)
Definition arr2ab (arr : list Z) : list Z := map (fun n => Js.toUint8 (Some n)) arr.
Definition ab2arr (arr_buf : list Z) : list Z := arr_buf.

(** A string of exactly two hexadecimal digits. *)
Definition two_hex (p : string) : bool :=
  match p with
  | String c (String d EmptyString) => Js.is_hex c && Js.is_hex d
  | _ => false
  end.

(** The character between the first two octets of an address. *)
Definition separator (mac : string) : option ascii := Js.chars mac !! 2%nat.

(** A string without the character [sep]. *)
Definition free_of (sep : ascii) (s : string) : Prop :=
  Forall (fun c => c <> sep) (Js.chars s).

(** The twenty-two hexadecimal digits. *)
Definition hex_chars : list ascii := Js.chars "0123456789abcdefABCDEF".

(** ** The getters of [Get] on the current session *)

(** [Get.profilePID()] and [Get.connectionID()]: [None] is [null] or
    [undefined]. *)
Definition profilePID (b : BLEMaster) : option Z :=
  match getCurrentlyConnectedDevice b with
  | Some device => if is_connected device then profile_pid device else None
  | None => None
  end.

Definition connectionID (b : BLEMaster) : option Z :=
  match getCurrentlyConnectedDevice b with
  | Some device => if is_connected device then connect_id device else None
  | None => None
  end.

(** [Get.hasMAC(dev_addr)]. *)
Definition hasMAC (b : BLEMaster) (dev_addr : string) : bool :=
  if negb (Js.truthy dev_addr) then false
  else
    let dev_addr := Js.toLowerCase dev_addr in
    if Js.includes dev_addr "xx" then
      match findMatchingMacAddress (devices b) dev_addr with
      | Some _ => true
      | None => false
      end
    else
      match dev_get dev_addr (devices b) with
      | Some _ => true
      | None => false
      end.

(** ** Count fields of a compiled profile *)

Definition chara_counted (c : characteristic_node) : Prop :=
  c_desc c = c_len c
  /\ c_len c = len_of (default [] (c_list c))
  /\ (c_list c = None <-> c_len c = 0).

Definition service_counted (s : service_node) : Prop :=
  s_len1 s = s_len2 s
  /\ s_len2 s = len_of (s_list s)
  /\ Forall chara_counted (s_list s).

Definition list_counted (sl : service_list) : Prop :=
  sl_size sl = sl_len sl
  /\ sl_len sl = len_of (sl_list sl)
  /\ Forall service_counted (sl_list sl).

(** The transport calls of a log. *)
Fixpoint calls (tr : list event) : list hm_call :=
  match tr with
  | [] => []
  | Call c :: tr' => c :: calls tr'
  | _ :: tr' => calls tr'
  end.

(** The transport calls that [quit] makes for a tracked, connected device,
    in order. *)
Definition teardown_calls (d : device) (scanning : bool) : list hm_call :=
  ([mstOffAllCb]
   ++ match profile_pid d with
      | Some pid => [mstDestroyProfileInstance pid]
      | None => []
      end
   ++ [mstDisconnect (connect_id d)]
   ++ (if scanning then [mstStopScan] else []))%list.

(** ** Completion events *)

(** What the listener of [c] logs: the user's handler, when one is
    stored. *)
Definition handler_log (c : capability) (w : world) : list event :=
  match cb_of c (cbs w) with
  | Some _ => [Handler c]
  | None => []
  end.

(** A characteristic write issued without response. *)
Definition without_response (op : operation) : bool :=
  match op with
  | CharaWrite _ _ true => true
  | _ => false
  end.

(** ** Text as code units *)

(** A JavaScript string is a sequence of 16-bit code units; the strings
    of this development have 8-bit characters, and [units] gives their
    code units. The functions below are the text path of [data2ab] and
    [ab2str] on arbitrary code units. *)
Definition code_unit (u : Z) : Prop := 0 <= u < 65536.

Definition units (s : string) : list Z :=
  map (fun c => Z.of_nat (nat_of_ascii c)) (Js.chars s).

(** The code unit of a hexadecimal digit. *)
Definition unit_is_hex (u : Z) : bool :=
  ((48 <=? u) && (u <=? 57)) || ((65 <=? u) && (u <=? 70))
  || ((97 <=? u) && (u <=? 102)).

(** [/^[0-9A-Fa-f]+$/.test(data)]. *)
Definition hex_only_units (s : list Z) : bool :=
  match s with
  | [] => false
  | _ => forallb unit_is_hex s
  end.

(** [str2ab_with_len(str).data_ab]: [charCodeAt(0)] of every character,
    stored in a [Uint8Array], that is modulo 256. *)
Definition str2ab_units (s : list Z) : list Z := map (fun u => u mod 256) s.

(** [data2ab] of a string: a string that passes the test has
    hexadecimal digits only and is read two digits at a time. *)
Definition data2ab_units (s : list Z) : list Z :=
  if hex_only_units s
  then map (fun h => Js.toUint8 (Js.parseInt16 h)) (Js.chunks2 (length s) (ab2str s))
  else str2ab_units s.

(** [ab2str(buffer)] as code units: [String.fromCharCode] of every
    element. *)
Definition ab2str_units (buffer : list Z) : list Z := map (fun b => b mod 65536) buffer.
(** * Properties *)

(** ** Wildcard address matching *)

Lemma match_bytes_agree (ms ps : list string) :
  length ms = length ps ->
  match_bytes ms ps = true <-> Forall2 octet_agrees ps ms.
Proof.
  revert ps; induction ms as [|m ms IH]; intros [|p ps] Hlen; simpl in *; try discriminate.
  - split; [constructor | reflexivity].
  - injection Hlen as Hlen. specialize (IH ps Hlen).
    destruct (String.eqb_spec p "xx") as [Hx|Hx];
      destruct (String.eqb_spec p m) as [Hm|Hm]; simpl.
    + rewrite IH. split; [intros H; constructor; [left|]; done | by inversion 1].
    + rewrite IH. split; [intros H; constructor; [left|]; done | by inversion 1].
    + rewrite IH. split; [intros H; constructor; [right|]; done | by inversion 1].
    + split; [discriminate|].
      inversion 1 as [|? ? ? ? [E|E]]; subst; contradiction.
Qed.

Lemma isMacAddressMatch_spec (mac pattern : string) :
  isMacAddressMatch mac pattern = true <->
  Forall2 octet_agrees (Js.split ":" pattern) (Js.split ":" mac).
Proof.
  unfold isMacAddressMatch.
  destruct (Nat.eqb_spec (length (Js.split ":" mac)) (length (Js.split ":" pattern)))
    as [Hlen|Hlen]; simpl.
  - by apply match_bytes_agree.
  - split; [discriminate|]. intros H. apply Forall2_length in H. congruence.
Qed.

Lemma find_key_spec (keys : list string) (pattern : string) :
  match find_key keys pattern with
  | Some mac =>
      exists before after,
        keys = (before ++ mac :: after)%list
        /\ isMacAddressMatch mac pattern = true
        /\ Forall (fun k => isMacAddressMatch k pattern = false) before
  | None => Forall (fun k => isMacAddressMatch k pattern = false) keys
  end.
Proof.
  induction keys as [|k keys IH]; simpl; [constructor|].
  destruct (isMacAddressMatch k pattern) eqn:Hk.
  - exists [], keys. by repeat split.
  - destruct (find_key keys pattern) as [mac|].
    + destruct IH as (before & after & -> & Hm & Hb).
      exists (k :: before), after. repeat split; [done|]. by constructor.
    + by constructor.
Qed.

(** C6. A pattern octet [xx] agrees with any octet, any other pattern
    octet has to equal the address octet, and a different number of octets
    never matches; the two addresses of the specification match and do not
    match the pattern [11:xx:33:44:55:66]; the wildcard lookup returns the
    first key of the registry, in enumeration order, that matches the
    lowercased pattern, or [null] when no key matches. *)
Theorem C6_wildcard_matching :
  (forall mac pattern,
      isMacAddressMatch mac pattern = true <->
      Forall2 octet_agrees (Js.split ":" pattern) (Js.split ":" mac))
  /\ (forall mac pattern,
      length (Js.split ":" mac) <> length (Js.split ":" pattern) ->
      isMacAddressMatch mac pattern = false)
  /\ isMacAddressMatch "11:22:33:44:55:66" "11:xx:33:44:55:66" = true
  /\ isMacAddressMatch "11:22:99:44:55:66" "11:xx:33:44:55:66" = false
  /\ (forall (registry : list (string * device)) (pattern : string),
      match findMatchingMacAddress registry pattern with
      | Some mac =>
          exists before after,
            map fst registry = (before ++ mac :: after)%list
            /\ isMacAddressMatch mac (Js.toLowerCase pattern) = true
            /\ Forall (fun k => isMacAddressMatch k (Js.toLowerCase pattern) = false) before
      | None =>
          Forall (fun k => isMacAddressMatch k (Js.toLowerCase pattern) = false)
                 (map fst registry)
      end).
Proof.
  split; [exact isMacAddressMatch_spec|].
  split.
  { intros mac pattern Hlen. unfold isMacAddressMatch.
    by destruct (Nat.eqb_spec (length (Js.split ":" mac)) (length (Js.split ":" pattern))). }
  split; [reflexivity|]. split; [reflexivity|].
  intros registry pattern. unfold findMatchingMacAddress. apply find_key_spec.
Qed.

(** ** The profile compiler *)

Lemma mac2ab_length (mac : string) : length (mac2ab mac) = length (Js.split ":" mac).
Proof. unfold mac2ab. by rewrite length_map. Qed.

Lemma six_parts_truthy (mac : string) :
  length (Js.split ":" mac) = 6%nat -> Js.truthy mac = true.
Proof. destruct mac; [discriminate | reflexivity]. Qed.

Lemma generate_ready b dev_addr device id services permissions :
  ready b dev_addr device id ->
  generateProfileObject b services permissions =
  GenProfile
    (mkProfile true id (profile_name device) (mac2ab dev_addr) 1
       [mkServiceList true (len_of services) (len_of services)
          (map (make_service permissions) services)]).
Proof.
  intros (Hmac & Hdev & Hconn & Hid & Hlen).
  unfold generateProfileObject.
  rewrite Hmac, (six_parts_truthy _ Hlen); simpl.
  rewrite Hdev, Hconn, Hid; simpl.
  unfold len_of at 1. rewrite mac2ab_length, Hlen. reflexivity.
Qed.

(** C3. For a tracked device that is connected, has a numeric connection
    id and an address of six parts, the services map with the one service
    180F, its one characteristic 2A19 and its one descriptor 2902, without
    permission overrides, compiles to a tree with exactly these three
    nodes, permission 0x20 on the characteristic and on the descriptor, and
    every child-count field equal to 1. *)
Theorem C3_single_service_profile b dev_addr device id :
  ready b dev_addr device id ->
  generateProfileObject b [("180F", [("2A19", ["2902"])])] ∅ =
  GenProfile
    {| p_pair := true; p_id := id; p_profile := profile_name device;
       p_dev := mac2ab dev_addr; p_len := 1;
       p_list :=
         [ {| sl_uuid := true; sl_size := 1; sl_len := 1;
              sl_list :=
                [ {| s_uuid := "180F"; s_permission := 0; s_len1 := 1; s_len2 := 1;
                     s_list :=
                       [ {| c_uuid := "2A19"; c_permission := 0x20;
                            c_desc := 1; c_len := 1;
                            c_list := Some [ {| d_uuid := "2902";
                                                d_permission := 0x20 |} ] |} ] |} ] |} ] |}.
Proof.
  intros Hready. rewrite (generate_ready _ _ _ _ _ _ Hready). reflexivity.
Qed.

Lemma sample_ready : ready sample_master "aa:bb:cc:dd:ee:ff" sample_device 1.
Proof. by repeat split. Qed.

Lemma C3_single_service_profile_witness :
  ready sample_master "aa:bb:cc:dd:ee:ff" sample_device 1
  /\ generateProfileObject sample_master [("180F", [("2A19", ["2902"])])] ∅ =
     GenProfile
       (mkProfile true 1 "sensor" [170; 187; 204; 221; 238; 255] 1
          [mkServiceList true 1 1
             [mkService "180F" 0 1 1
                [mkChara "2A19" 32 1 1 (Some [mkDesc "2902" 32])]]]).
Proof.
  split; [exact sample_ready|].
  exact (C3_single_service_profile sample_master "aa:bb:cc:dd:ee:ff" sample_device 1
           sample_ready).
Defined.

(** C4, as stated, at a concrete state: a connected device and an empty
    services map give a profile tree, not an error. *)
Lemma C4_empty_services_counterexample :
  isConnected sample_master = true
  /\ generateProfileObject sample_master [] ∅ =
     GenProfile (mkProfile true 1 "sensor" [170; 187; 204; 221; 238; 255] 1
                   [mkServiceList true 0 0 []])
  /\ ~ (exists error, generateProfileObject sample_master [] ∅ = GenError error).
Proof.
  split; [reflexivity|]. split; [reflexivity|]. intros [error H]. discriminate H.
Qed.

(** C4, amended. [generateProfileObject] answers with the error object
    when no tracked device is marked connected, when the connection id is
    not a number, and when the address does not split into six parts; an
    empty services map is not rejected: for a ready device it compiles to
    a tree whose service list is empty, with [size] and [len] 0. *)
Theorem C4_structured_errors b services permissions :
  (rejected b ->
   exists error, generateProfileObject b services permissions = GenError error)
  /\ (forall dev_addr device id,
       ready b dev_addr device id ->
       generateProfileObject b [] permissions =
       GenProfile (mkProfile true id (profile_name device) (mac2ab dev_addr) 1
                     [mkServiceList true 0 0 []])).
Proof.
  split.
  - intros Hrej. unfold generateProfileObject.
    destruct (last_connected_mac b) as [m|] eqn:Hm; [|eauto].
    destruct (Js.truthy m) eqn:Ht; simpl; [|eauto].
    destruct (dev_get m (devices b)) as [d|] eqn:Hd; [|eauto].
    destruct (is_connected d) eqn:Hc; simpl; [|eauto].
    destruct (connect_id d) as [id|] eqn:Hid; [|eauto].
    destruct (len_of (mac2ab m) =? 6) eqn:Hlen; simpl; [|eauto].
    exfalso. unfold rejected, isConnected, getCurrentlyConnectedDevice in Hrej.
    rewrite Hm, Ht, Hd, Hc in Hrej.
    destruct Hrej as [H|[(d' & H1 & H2)|(m' & H1 & H2)]]; [discriminate| |].
    + injection H1 as <-. congruence.
    + injection H1 as <-. apply H2. apply Z.eqb_eq in Hlen.
      unfold len_of in Hlen. rewrite mac2ab_length in Hlen. lia.
  - intros dev_addr device id Hready.
    by rewrite (generate_ready _ _ _ _ [] permissions Hready).
Qed.

Lemma C4_structured_errors_witness :
  (exists error, generateProfileObject fresh_master [("180F", [])] ∅ = GenError error)
  /\ generateProfileObject sample_master [] ∅ =
     GenProfile (mkProfile true 1 (profile_name sample_device)
                   (mac2ab "aa:bb:cc:dd:ee:ff") 1 [mkServiceList true 0 0 []]).
Proof.
  split.
  - apply (proj1 (C4_structured_errors fresh_master [("180F", [])] ∅)).
    left. reflexivity.
  - apply (proj2 (C4_structured_errors sample_master [] ∅)
             "aa:bb:cc:dd:ee:ff" sample_device 1).
    repeat split; reflexivity.
Defined.

(** ** [connect] *)

Lemma truthy_lower (s : string) : Js.truthy (Js.toLowerCase s) = Js.truthy s.
Proof. by destruct s. Qed.

(** C8, as stated, at a concrete input: the address [XX] does not contain
    [xx], the tracked device is connected, and [connect] answers "device
    not found" and returns false. *)
Lemma C8_uppercase_wildcard_counterexample :
  Js.truthy "XX" = true
  /\ Js.includes "XX" "xx" = false
  /\ isConnected (ble sample_world) = true
  /\ connect "XX" sample_world =
     (Normal false, log (ConnectResponse false "device not found") sample_world).
Proof. repeat split; reflexivity. Qed.

(** C8, amended. For every non-empty address whose lowercased form does
    not contain [xx], when the tracked device is marked connected, whatever
    its address, [connect] calls back with connected: true and status
    "connected" and returns true; it makes no transport call and does not
    look at the format of the address. *)
Theorem C8_connected_short_circuit (dev_addr : string) (w : world) :
  Js.truthy dev_addr = true ->
  Js.includes (Js.toLowerCase dev_addr) "xx" = false ->
  isConnected (ble w) = true ->
  connect dev_addr w = (Normal true, log (ConnectResponse true "connected") w).
Proof.
  intros Ht Hx Hc. unfold connect. rewrite Ht; simpl.
  unfold bind at 1, read at 1. rewrite Hx, Hc. reflexivity.
Qed.

Lemma C8_connected_short_circuit_witness :
  connect "not a mac" sample_world =
  (Normal true, log (ConnectResponse true "connected") sample_world).
Proof.
  apply (C8_connected_short_circuit "not a mac" sample_world); reflexivity.
Defined.

Lemma is_hex_not_x (c : ascii) : Js.is_hex c = true -> c <> "x"%char.
Proof. intros H ->. discriminate H. Qed.

Lemma is_sep_not_x (c : ascii) : is_sep c = true -> c <> "x"%char.
Proof. intros H ->. discriminate H. Qed.

Lemma sep_pairs_not_x (n : nat) (sep : ascii) (cs : list ascii) :
  is_sep sep = true -> sep_pairs n sep cs = true ->
  Forall (fun c => c <> "x"%char) cs.
Proof.
  intros Hsep. revert cs. induction n as [|n IH]; intros cs H.
  - destruct cs; [constructor | discriminate].
  - destruct cs as [|s [|a [|b cs]]]; try discriminate. simpl in H.
    repeat (apply andb_prop in H as [H ?]).
    apply Ascii.eqb_eq in H as ->.
    repeat constructor; auto using is_hex_not_x, is_sep_not_x.
Qed.

Lemma valid_not_x (mac : string) :
  isValidMacAddress mac = true -> Forall (fun c => c <> "x"%char) (Js.chars mac).
Proof.
  unfold isValidMacAddress.
  destruct (Js.chars mac) as [|a [|b [|sep [|c [|d rest]]]]]; try discriminate.
  intros H. repeat (apply andb_prop in H as [H ?]).
  repeat constructor; eauto using is_hex_not_x, is_sep_not_x, sep_pairs_not_x.
Qed.

Lemma not_x_includes (s : string) :
  Forall (fun c => c <> "x"%char) (Js.chars s) -> Js.includes s "xx" = false.
Proof.
  induction s as [|c s IH]; intros H; [reflexivity|].
  inversion H as [|? ? Hc Hs]; subst.
  change (Js.includes (String c s) "xx")
    with ((Ascii.eqb "x" c && Js.starts_with "x" s) || Js.includes s "xx")%bool.
  destruct (Ascii.eqb_spec "x" c) as [E|E]; [by subst|]. by apply IH.
Qed.

Lemma valid_truthy (mac : string) : isValidMacAddress mac = true -> Js.truthy mac = true.
Proof. by destruct mac. Qed.

Lemma resolve_bound (x : string) (w : world) :
  In x (global_names (host w)) -> resolve x w = (Normal tt, w).
Proof.
  intros H. unfold resolve.
  replace (existsb (String.eqb x) (global_names (host w))) with true; [done|].
  symmetry. apply existsb_exists. exists x. split; [done | apply String.eqb_refl].
Qed.

Lemma chars_lower (s : string) :
  Js.chars (Js.toLowerCase s) = map Js.lower_ascii (Js.chars s).
Proof. induction s as [|c s IH]; [done|]. simpl. by rewrite <- IH. Qed.

Lemma is_hex_lower (c : ascii) : Js.is_hex c = true -> Js.is_hex (Js.lower_ascii c) = true.
Proof. destruct c as [[] [] [] [] [] [] [] []]; vm_compute; done. Qed.

Lemma is_sep_lower (c : ascii) : is_sep c = true -> Js.lower_ascii c = c.
Proof. destruct c as [[] [] [] [] [] [] [] []]; vm_compute; done. Qed.

Lemma sep_pairs_lower (n : nat) (sep : ascii) (cs : list ascii) :
  is_sep sep = true -> sep_pairs n sep cs = true ->
  sep_pairs n sep (map Js.lower_ascii cs) = true.
Proof.
  intros Hsep. revert cs. induction n as [|n IH]; intros cs H.
  - by destruct cs.
  - destruct cs as [|s [|a [|b cs]]]; try discriminate. simpl in *.
    repeat (apply andb_prop in H as [H ?]).
    apply Ascii.eqb_eq in H as ->.
    rewrite (is_sep_lower _ Hsep), Ascii.eqb_refl, !is_hex_lower, IH; done.
Qed.

(** The format check does not depend on the letter case. *)
Lemma valid_lower (mac : string) :
  isValidMacAddress mac = true -> isValidMacAddress (Js.toLowerCase mac) = true.
Proof.
  unfold isValidMacAddress. rewrite chars_lower.
  destruct (Js.chars mac) as [|a [|b [|sep [|c [|d rest]]]]]; try discriminate.
  intros H. repeat (apply andb_prop in H as [H ?]).
  assert (Hsep : is_sep sep = true) by done.
  rewrite !map_cons. cbv beta iota.
  rewrite (is_sep_lower _ Hsep), Hsep, !is_hex_lower, sep_pairs_lower; done.
Qed.

(** The path of [connect] to the call site of [#initiateConnection]. *)
Lemma connect_reaches_call_site (dev_addr : string) (w : world) :
  isValidMacAddress dev_addr = true ->
  connection_in_progress (ble w) = false ->
  isConnected (ble w) = false ->
  entry_connected (ble w) (Js.toLowerCase dev_addr) = false ->
  connect dev_addr w =
  (do! resolve "attempt" in
   do! resolve "max_attempts" in
   do! resolve "timeout_duration" in
   do! initiateConnection (Js.toLowerCase dev_addr) in
   ret true) w.
Proof.
  intros Hvalid Hprog Hconn Hentry. unfold connect.
  rewrite (valid_truthy _ Hvalid); simpl. unfold bind at 1, read at 1.
  apply valid_lower in Hvalid.
  rewrite (not_x_includes _ (valid_not_x _ Hvalid)), Hconn, Hvalid, Hprog; simpl.
  unfold entry_connected in Hentry. by rewrite Hentry.
Qed.

Lemma resolve_unbound (x : string) (w : world) :
  ~ In x (global_names (host w)) -> resolve x w = (Abrupt (ReferenceError x), w).
Proof.
  intros H. unfold resolve.
  destruct (existsb (String.eqb x) (global_names (host w))) eqn:E; [|done].
  apply existsb_exists in E as (y & Hy & Heq). apply String.eqb_eq in Heq. by subst.
Qed.

Lemma resolve_cases (x : string) (w : world) :
  (In x (global_names (host w)) /\ resolve x w = (Normal tt, w))
  \/ (~ In x (global_names (host w)) /\ resolve x w = (Abrupt (ReferenceError x), w)).
Proof.
  unfold resolve.
  destruct (existsb (String.eqb x) (global_names (host w))) eqn:E.
  - left. split; [|done].
    apply existsb_exists in E as (y & Hy & Heq). apply String.eqb_eq in Heq. by subst.
  - right. split; [|done]. intros Hin.
    assert (existsb (String.eqb x) (global_names (host w)) = true); [|congruence].
    apply existsb_exists. exists x. split; [done | apply String.eqb_refl].
Qed.

(** Where the three identifiers do resolve, the call is issued: exactly
    one transport call, the connect call for the bytes of the lowercased
    address, with the in-progress flag set and [true] returned. *)
Lemma connect_issues_one_call_when_bound (dev_addr : string) (w : world) :
  isValidMacAddress dev_addr = true ->
  connection_in_progress (ble w) = false ->
  isConnected (ble w) = false ->
  entry_connected (ble w) (Js.toLowerCase dev_addr) = false ->
  (forall x, In x free_identifiers -> In x (global_names (host w))) ->
  connect dev_addr w =
  (Normal true,
   log (Call (mstConnect (mac2ab (Js.toLowerCase dev_addr))))
     (set_ble (with_connection_in_progress true (ble w)) w)).
Proof.
  intros Hvalid Hprog Hconn Hentry Hglob.
  rewrite connect_reaches_call_site by done.
  unfold bind. rewrite !resolve_bound by (apply Hglob; simpl; auto).
  reflexivity.
Qed.

(** C2. The defect at line 267: the call of [#initiateConnection] reads
    the identifiers [attempt], [max_attempts] and [timeout_duration], which
    no scope of the module declares. For every address that passes the
    format check, while no connection is in progress and no device is
    marked connected, in every host whose global scope lacks one of the
    three, [connect] throws a ReferenceError for one of them before it
    reaches the transport: no connect call is made, the in-progress flag is
    not set, the callback is not invoked and nothing is returned. *)
Theorem C2_connect_throws_before_transport (dev_addr x : string) (w : world) :
  isValidMacAddress dev_addr = true ->
  connection_in_progress (ble w) = false ->
  isConnected (ble w) = false ->
  entry_connected (ble w) (Js.toLowerCase dev_addr) = false ->
  In x free_identifiers -> ~ In x (global_names (host w)) ->
  exists y, In y free_identifiers
            /\ ~ In y (global_names (host w))
            /\ connect dev_addr w = (Abrupt (ReferenceError y), w).
Proof.
  intros Hvalid Hprog Hconn Hentry Hx Hun.
  rewrite connect_reaches_call_site by done. unfold bind.
  destruct (resolve_cases "attempt" w) as [[H1 ->]|[H1 ->]].
  2:{ exists "attempt". cbn. auto. }
  destruct (resolve_cases "max_attempts" w) as [[H2 ->]|[H2 ->]].
  2:{ exists "max_attempts". cbn. auto. }
  destruct (resolve_cases "timeout_duration" w) as [[H3 ->]|[H3 ->]].
  2:{ exists "timeout_duration". cbn. auto. }
  exfalso. apply Hun. cbn in Hx. destruct Hx as [<-|[<-|[<-|[]]]]; done.
Qed.

Lemma C2_connect_throws_before_transport_witness :
  exists y, In y free_identifiers
            /\ ~ In y (global_names (host (fresh_world [])))
            /\ connect "AA:BB:CC:DD:EE:FF" (fresh_world [])
               = (Abrupt (ReferenceError y), fresh_world []).
Proof.
  apply (C2_connect_throws_before_transport "AA:BB:CC:DD:EE:FF" "attempt" (fresh_world []));
    try reflexivity.
  - cbn. auto.
  - intros [].
Defined.

(** The same call in a host with an empty global scope, and in one that
    binds the three names. *)
Example connect_in_plain_host :
  connect "AA:BB:CC:DD:EE:FF" (fresh_world []) =
  (Abrupt (ReferenceError "attempt"), fresh_world []).
Proof. reflexivity. Qed.

Example connect_in_binding_host :
  connect "AA:BB:CC:DD:EE:FF" (fresh_world free_identifiers) =
  (Normal true,
   log (Call (mstConnect [170; 187; 204; 221; 238; 255]))
     (set_ble (with_connection_in_progress true fresh_master)
        (fresh_world free_identifiers))).
Proof. reflexivity. Qed.

(** ** [quit] *)

Lemma quit_when_untracked (w : world) :
  untracked (ble w) = true -> quit w = (Normal tt, w).
Proof.
  unfold untracked, quit, bind, read. destruct (last_connected_mac (ble w)) as [m|]; [|done].
  by intros ->.
Qed.

(** Unfolds [quit] down to the state it builds and splits on what it
    tests: the tracked address, the registry entry, the profile handle, the
    [off] object and the scan flag. *)
Ltac quit_cases w :=
  unfold quit, deregisterAll, disconnectDevice, stopScan, bind, read,
    update_ble, update, emit, ret;
  cbv beta;
  destruct (last_connected_mac (ble w)) as [?m|]; [|done];
  destruct (Js.truthy m); [|done]; simpl;
  destruct (dev_get m (devices (ble w))) as [?d|];
    [destruct (is_connected d); [destruct (profile_pid d)|]|];
    destruct (on_off (ble w)); simpl;
    repeat match goal with
           | |- context [is_scanning ?b] => destruct (is_scanning b) eqn:?; simpl
           end;
    repeat match goal with
           | H : ?x = _ |- context [?x] => rewrite H; simpl
           end.

(** [quit] never throws and leaves no tracked device. *)
Lemma quit_untracks (w : world) :
  fst (quit w) = Normal tt /\ untracked (ble (exec quit w)) = true.
Proof.
  unfold exec. destruct (untracked (ble w)) eqn:Hu.
  { by rewrite (quit_when_untracked _ Hu). }
  unfold untracked in Hu. quit_cases w; done.
Qed.

(** A second [quit] changes nothing. *)
Lemma quit_idempotent (w : world) : quit (exec quit w) = (Normal tt, exec quit w).
Proof. apply quit_when_untracked, quit_untracks. Qed.

(** C7, at the state reached by connecting, preparing a profile,
    registering a write-complete handler and calling [disconnect()]: no
    device is tracked, so [quit] returns at its first guard, before the
    deregistration, and the handler stays registered. *)
Theorem C7_quit_keeps_subscription :
  last_connected_mac (ble lingering_world) = None
  /\ cb_of charaWriteComplete (cbs lingering_world) = Some 1%nat
  /\ quit lingering_world = (Normal tt, lingering_world)
  /\ cbs (exec quit lingering_world) <> no_cbs.
Proof.
  split; [reflexivity|]. split; [reflexivity|]. split; [reflexivity|].
  vm_compute. discriminate.
Qed.

(** With a tracked device and a prepared profile, [quit] does clear the
    nine callbacks. *)
Lemma quit_clears_when_tracked (w : world) (pid : Z) :
  untracked (ble w) = false -> on_off (ble w) = Some pid ->
  cbs (exec quit w) = no_cbs.
Proof.
  intros Hu Hon. unfold untracked in Hu. unfold exec. quit_cases w; done.
Qed.

(** ** Operations without a prepared profile, and the write waiter *)

Lemma run_check_completes (cb : check) (w : world) :
  now (host w) - start_of cb <= queue_timeout ->
  flag_raised cb (flags w) = true ->
  snd (run_check cb w) = true
  /\ trace (host (fst (run_check cb w))) = (trace (host w) ++ [Continuation None])%list.
Proof.
  intros Ht Hf. destruct cb as [ty s|d s]; simpl in *.
  - unfold write_check_completion.
    destruct (Z.gtb_spec (now (host w) - s) queue_timeout) as [?|_]; [lia|].
    by rewrite Hf.
  - unfold read_check_completion.
    destruct (Z.gtb_spec (now (host w) - s) queue_timeout) as [?|_]; [lia|].
    by rewrite Hf.
Qed.

Lemma execute_no_profile (op : operation) (w : world) :
  current_pid w = None -> execute op w = (log (Continuation None) w, true).
Proof.
  intros Hpid.
  destruct op; simpl;
    unfold performCharaWrite, performDescriptorWrite, performReadOperation;
    by rewrite Hpid.
Qed.

Lemma io_calls_app (tr1 tr2 : list event) :
  io_calls (tr1 ++ tr2) = (io_calls tr1 ++ io_calls tr2)%list.
Proof.
  induction tr1 as [|e tr1 IH]; [done|].
  destruct e as [c| | | |]; simpl; rewrite ?IH; try done.
  by destruct (attribute_io c).
Qed.

(** C9. When no device is tracked, or the tracked device has no profile
    handle, every queued operation makes no transport call and calls back
    at once without an error argument; submitted to an idle queue it
    leaves the queue idle with only that callback logged; and the callback
    of an operation that completed carries no argument either. *)
Theorem C9_no_profile_calls_back_plainly (op : operation) (w : world) :
  current_pid w = None ->
  execute op w = (log (Continuation None) w, true)
  /\ io_calls (trace (host (fst (execute op w)))) = io_calls (trace (host w))
  /\ (qm w = mkQueue [] false -> enqueueOperation op w = log (Continuation None) w)
  /\ (forall cb w',
        now (host w') - start_of cb <= queue_timeout ->
        flag_raised cb (flags w') = true ->
        trace (host (fst (run_check cb w'))) =
        (trace (host w') ++ [Continuation None])%list).
Proof.
  intros Hpid.
  split; [by apply execute_no_profile|]. split.
  { rewrite (execute_no_profile _ _ Hpid). simpl.
    rewrite io_calls_app. simpl. apply app_nil_r. }
  split.
  { intros Hq. unfold enqueueOperation, processQueue. rewrite Hq.
    cbn [with_queue is_processing operation_queue_arr qm set_qm app length Nat.eqb orb drain].
    rewrite execute_no_profile by exact Hpid.
    destruct w as [b f c q h]; simpl in *; by subst. }
  intros cb w' Ht Hf. by apply run_check_completes.
Qed.

Lemma C9_no_profile_calls_back_plainly_witness :
  enqueueOperation (ReadOperation "2A19" false) (fresh_world []) =
  log (Continuation None) (fresh_world []).
Proof.
  apply (C9_no_profile_calls_back_plainly (ReadOperation "2A19" false) (fresh_world []));
    reflexivity.
Defined.

(** ** The operation queue *)

Lemma in_flight_app (busy : bool) (tr1 tr2 : list event) :
  in_flight busy (tr1 ++ tr2) = in_flight busy tr1 ≫= (fun b => in_flight b tr2).
Proof.
  revert busy; induction tr1 as [|e tr1 IH]; intros busy; [done|].
  destruct e as [c| | | |]; simpl; try apply IH.
  destruct (attribute_io c); [destruct busy; [done|]|]; apply IH.
Qed.

Lemma transport_call_io (pid : Z) (op : operation) :
  attribute_io (transport_call pid op) = true.
Proof. by destruct op as [? ? []| |? []]. Qed.

(** The three ways a check can go. *)
Lemma run_check_cases (cb : check) (w : world) :
  (queue_timeout < now (host w) - start_of cb
   /\ run_check cb w = (log (Continuation (Some (timeout_message cb))) w, true))
  \/ (now (host w) - start_of cb <= queue_timeout
      /\ flag_raised cb (flags w) = true
      /\ run_check cb w =
         (log (Continuation None) (set_flags (reset_flags cb (flags w)) w), true))
  \/ (now (host w) - start_of cb <= queue_timeout
      /\ flag_raised cb (flags w) = false
      /\ run_check cb w = (setTimeout cb queue_check_interval w, false)).
Proof.
  destruct cb as [ty s|d s]; simpl;
    unfold write_check_completion, read_check_completion;
    destruct (Z.gtb_spec (now (host w) - s) queue_timeout) as [Hgt|Hle].
  - left. split; [lia|]. by destruct ty.
  - right.
    destruct (desc_write_complete_flag (flags w) || chara_write_complete_flag (flags w))%bool;
      [left | right]; done.
  - left. split; [lia|]. by destruct d.
  - right.
    destruct ((d && desc_read_complete_flag (flags w))
              || (negb d && chara_read_complete_flag (flags w)))%bool;
      [left | right]; done.
Qed.

(** With a prepared profile an operation issues its transport call, then
    calls back at once (write without response) or runs its check. *)
Lemma execute_prepared (op : operation) (w : world) (pid : Z) :
  current_pid w = Some pid ->
  execute op w =
  match check_of op (now (host w)) with
  | None => (log (Continuation None) (log (Call (transport_call pid op)) w), true)
  | Some cb => run_check cb (log (Call (transport_call pid op)) w)
  end.
Proof.
  intros Hpid.
  destruct op as [uuid d [|]|chara desc d|uuid [|]]; simpl;
    unfold performCharaWrite, performDescriptorWrite, performReadOperation;
    rewrite Hpid; reflexivity.
Qed.

Lemma check_of_start (op : operation) (t : Z) (cb : check) :
  check_of op t = Some cb -> start_of cb = t.
Proof. destruct op as [? ? []| |? ?]; simpl; intros H; by simplify_eq. Qed.

Lemma drain_inv (pid : Z) (enq queue : list operation) (w : world) :
  at_rest pid enq queue w ->
  queue_inv pid enq (drain queue w)
  /\ (timer (host (drain queue w)) = None
      \/ (length (operation_queue_arr (qm (drain queue w))) < length queue)%nat).
Proof.
  revert w. induction queue as [|op rest IH]; intros w (Hpid & Htimer & Hqm & Hfl & Hio).
  - simpl. split; [|by left]. unfold queue_inv. rewrite Htimer, Hqm. simpl.
    by repeat split.
  - cbn [drain].
    set (w1 := set_qm (mkQueue rest true) w).
    assert (Hpid1 : current_pid w1 = Some pid) by exact Hpid.
    rewrite (execute_prepared op w1 pid Hpid1).
    set (w2 := log (Call (transport_call pid op)) w1).
    assert (Hpid2 : current_pid w2 = Some pid) by exact Hpid.
    assert (Htimer2 : timer (host w2) = None) by exact Htimer.
    assert (Hqm2 : qm w2 = mkQueue rest true) by reflexivity.
    assert (Hnow2 : now (host w2) = now (host w1)) by reflexivity.
    assert (Hfl2 : in_flight false (trace (host w2)) = Some true).
    { subst w2 w1. simpl. rewrite in_flight_app, Hfl. simpl.
      by rewrite transport_call_io. }
    assert (Hio2 : (io_calls (trace (host w2)) ++ map (transport_call pid) rest)%list
                   = map (transport_call pid) enq).
    { subst w2 w1. simpl. rewrite io_calls_app. simpl. rewrite transport_call_io.
      rewrite <- Hio. simpl. by rewrite <- app_assoc. }
    clearbody w2. clearbody w1.
    assert (Hrest : forall w3,
               current_pid w3 = Some pid -> timer (host w3) = None ->
               qm w3 = mkQueue rest true ->
               trace (host w3) = (trace (host w2) ++ [Continuation None])%list ->
               queue_inv pid enq
                 (drain rest (set_qm (with_is_processing false (qm w3)) w3))
               /\ (timer (host (drain rest (set_qm (with_is_processing false (qm w3)) w3)))
                   = None
                   \/ (length (operation_queue_arr
                                 (qm (drain rest
                                        (set_qm (with_is_processing false (qm w3)) w3))))
                       < length (op :: rest))%nat)).
    { intros w3 H1 H2 H3 H4.
      destruct (IH (set_qm (with_is_processing false (qm w3)) w3)) as [Hinv Hlen].
      - unfold at_rest. split; [exact H1|]. split; [exact H2|].
        split; [by rewrite H3|]. simpl. rewrite H4. split.
        + by rewrite in_flight_app, Hfl2.
        + rewrite io_calls_app. simpl. by rewrite app_nil_r.
      - split; [done|]. destruct Hlen as [?|?]; [by left | right; simpl; lia]. }
    destruct (check_of op (now (host w1))) as [cb|] eqn:Hcb.
    + pose proof (check_of_start _ _ _ Hcb) as Hstart.
      destruct (run_check_cases cb w2) as [(Hgt & _)|[(_ & _ & ->)|(_ & _ & ->)]].
      * exfalso. unfold queue_timeout in Hgt. lia.
      * apply Hrest; [exact Hpid2 | exact Htimer2 | exact Hqm2 | reflexivity].
      * split; [|right; simpl; rewrite Hqm2; simpl; lia].
        unfold queue_inv. split; [exact Hpid2|]. simpl. rewrite Hqm2. simpl.
        by repeat split.
    + apply Hrest; [exact Hpid2 | exact Htimer2 | exact Hqm2 | reflexivity].
Qed.

Lemma processQueue_drain (queue : list operation) (w : world) :
  qm w = mkQueue queue false -> processQueue w = drain queue w.
Proof. intros H. unfold processQueue. rewrite H. by destruct queue. Qed.

(** After the operation in flight has called back, the continuation
    restores the invariant. *)
Lemma continuation_inv (pid : Z) (enq : list operation) (w : world) :
  current_pid w = Some pid ->
  timer (host w) = None ->
  in_flight false (trace (host w)) = Some false ->
  (io_calls (trace (host w))
   ++ map (transport_call pid) (operation_queue_arr (qm w)))%list
  = map (transport_call pid) enq ->
  queue_inv pid enq (continuation w)
  /\ (timer (host (continuation w)) = None
      \/ (length (operation_queue_arr (qm (continuation w)))
          < length (operation_queue_arr (qm w)))%nat).
Proof.
  intros Hpid Htimer Hfl Hio. unfold continuation.
  rewrite (processQueue_drain (operation_queue_arr (qm w))) by reflexivity.
  apply (drain_inv pid enq (operation_queue_arr (qm w))).
  by repeat split.
Qed.

Lemma listener_inv (pid : Z) (enq : list operation) (c : capability) (own profile : Z)
    (w : world) :
  queue_inv pid enq w -> queue_inv pid enq (listener c own profile w).
Proof.
  intros (Hpid & Htimer & Hfl & Hio). unfold listener.
  destruct (own =? profile); [|done].
  assert (Hh : forall w', current_pid w' = Some pid ->
                 timer (host w') = timer (host w) -> qm w' = qm w ->
                 trace (host w') = trace (host w) ->
                 queue_inv pid enq
                   match cb_of c (cbs w') with
                   | Some _ => log (Handler c) w'
                   | None => w'
                   end).
  { intros w' H1 H2 H3 H4.
    destruct (cb_of c (cbs w')); unfold queue_inv; simpl; rewrite H2, H3, H4.
    - split; [exact H1|]. split; [done|].
      rewrite in_flight_app, Hfl, io_calls_app. simpl. by rewrite app_nil_r.
    - by split; [exact H1|]. }
  destruct c; apply Hh; done.
Qed.

Lemma fire_timer_inv (pid : Z) (enq : list operation) (w : world) :
  queue_inv pid enq w ->
  queue_inv pid enq (fire_timer w)
  /\ (forall cb due, timer (host w) = Some (cb, due) -> due <= now (host w) ->
      timer (host (fire_timer w)) = None
      \/ (length (operation_queue_arr (qm (fire_timer w)))
          < length (operation_queue_arr (qm w)))%nat
      \/ (length (operation_queue_arr (qm (fire_timer w)))
          = length (operation_queue_arr (qm w))
          /\ (polls_left (fire_timer w) < polls_left w)%nat)).
Proof.
  intros Hinv. pose proof Hinv as (Hpid & Htimer & Hfl & Hio). unfold fire_timer.
  destruct (timer (host w)) as [[cb due]|] eqn:Ht; [|by split].
  destruct (Z.leb_spec due (now (host w))) as [Hdue|Hdue].
  2:{ split; [done|]. intros cb' due' [= <- <-] ?. lia. }
  set (w1 := set_host (with_timer None (host w)) w).
  assert (Hpid1 : current_pid w1 = Some pid) by exact Hpid.
  assert (Hnow1 : now (host w1) = now (host w)) by reflexivity.
  assert (Hqm1 : qm w1 = qm w) by reflexivity.
  assert (Htr1 : trace (host w1) = trace (host w)) by reflexivity.
  assert (Htimer1 : timer (host w1) = None) by reflexivity.
  clearbody w1.
  assert (Hdone : forall w2,
             current_pid w2 = Some pid -> timer (host w2) = None -> qm w2 = qm w ->
             (exists err, trace (host w2) = (trace (host w) ++ [Continuation err])%list) ->
             queue_inv pid enq (continuation w2)
             /\ (timer (host (continuation w2)) = None
                 \/ (length (operation_queue_arr (qm (continuation w2)))
                     < length (operation_queue_arr (qm w)))%nat)).
  { intros w2 H1 H2 H3 [err H4]. rewrite <- H3.
    apply continuation_inv; try done.
    - by rewrite H4, in_flight_app, Hfl.
    - rewrite H4, io_calls_app, H3. simpl. by rewrite app_nil_r. }
  destruct (run_check_cases cb w1) as [(_ & ->)|[(_ & _ & ->)|(Hle & _ & ->)]].
  - destruct (Hdone (log (Continuation (Some (timeout_message cb))) w1))
      as [Hinv2 Hlen]; try done.
    { simpl. rewrite Htr1. eauto. }
    split; [done|]. intros _ _ _ _. destruct Hlen; auto.
  - destruct (Hdone (log (Continuation None)
                       (set_flags (reset_flags cb (flags w1)) w1)))
      as [Hinv2 Hlen]; try done.
    { simpl. rewrite Htr1. eauto. }
    split; [done|]. intros _ _ _ _. destruct Hlen; auto.
  - split.
    + unfold queue_inv. split; [exact Hpid1|]. simpl. rewrite Hqm1, Htr1.
      by repeat split.
    + intros cb' due' [= <- <-] _. right; right. simpl. rewrite Hqm1.
      split; [done|]. unfold polls_left. simpl. rewrite Ht.
      unfold queue_timeout, queue_check_interval in *. lia.
Qed.

Lemma step_inv (pid : Z) (enq : list operation) (e : env_event) (w : world) :
  queue_inv pid enq w -> queue_inv pid (enq ++ enqueued [e]) (step e w).
Proof.
  intros Hinv. destruct e as [op|ms| |c profile]; simpl; rewrite ?app_nil_r.
  - destruct Hinv as (Hpid & Htimer & Hfl & Hio). unfold enqueueOperation.
    set (w1 := set_qm (with_queue (operation_queue_arr (qm w) ++ [op]) (qm w)) w).
    destruct (timer (host w)) as [t|] eqn:Ht.
    + assert (Hp : processQueue w1 = w1).
      { unfold processQueue. subst w1. simpl. by rewrite Htimer. }
      rewrite Hp. subst w1. unfold queue_inv. simpl. rewrite Ht.
      split; [exact Hpid|]. split; [done|]. split; [done|].
      by rewrite !map_app, app_assoc, Hio.
    + rewrite (processQueue_drain [op]) by (subst w1; simpl; by rewrite Htimer).
      apply drain_inv. subst w1. unfold at_rest. simpl. rewrite Ht.
      split; [exact Hpid|]. split; [done|]. rewrite Htimer in *. simpl in *.
      rewrite app_nil_r in Hio. by rewrite map_app, <- Hio.
  - destruct Hinv as (Hpid & Htimer & Hfl & Hio).
    unfold queue_inv. by split; [exact Hpid|].
  - by apply fire_timer_inv.
  - by apply listener_inv.
Qed.

Lemma enqueued_app (s1 s2 : list env_event) :
  enqueued (s1 ++ s2) = (enqueued s1 ++ enqueued s2)%list.
Proof.
  induction s1 as [|e s1 IH]; [done|]. destruct e; simpl; by rewrite ?IH.
Qed.

Lemma run_inv (pid : Z) (schedule : list env_event) (enq : list operation) (w : world) :
  queue_inv pid enq w -> queue_inv pid (enq ++ enqueued schedule) (run schedule w).
Proof.
  revert enq w. induction schedule as [|e s IH]; intros enq w Hinv.
  - simpl. by rewrite app_nil_r.
  - change (enqueued (e :: s)) with (enqueued ([e] ++ s)).
    rewrite enqueued_app, app_assoc.
    apply (IH _ _ (step_inv pid enq e w Hinv)).
Qed.

Lemma idle_inv (pid : Z) (w : world) : idle_prepared pid w -> queue_inv pid [] w.
Proof.
  intros (Hpid & Hqm & Htimer & Htrace). unfold queue_inv.
  by rewrite Htimer, Hqm, Htrace.
Qed.

(** One tick of the punctual host keeps the invariant and makes
    progress: the queue goes idle, or gets shorter, or the pending check
    gets closer to its timeout. *)
Lemma tick_progress (pid : Z) (enq : list operation) (w : world) :
  queue_inv pid enq w ->
  queue_inv pid enq (tick w)
  /\ (timer (host (tick w)) = None
      \/ (length (operation_queue_arr (qm (tick w)))
          < length (operation_queue_arr (qm w)))%nat
      \/ (length (operation_queue_arr (qm (tick w)))
          = length (operation_queue_arr (qm w))
          /\ (polls_left (tick w) < polls_left w)%nat)).
Proof.
  intros Hinv. unfold tick.
  destruct (timer (host w)) as [[cb due]|] eqn:Ht; [|split; [done | by left]].
  cbn [run fold_left step].
  set (w1 := set_host (with_now (now (host w) + Z.of_nat (Z.to_nat (due - now (host w))))
                         (host w)) w).
  assert (Hinv1 : queue_inv pid enq w1).
  { destruct Hinv as (Hpid & Htimer & Hfl & Hio).
    unfold queue_inv. by split; [exact Hpid|]. }
  assert (Ht1 : timer (host w1) = Some (cb, due)) by exact Ht.
  assert (Hnow1 : due <= now (host w1)) by (subst w1; simpl; lia).
  assert (Hqm1 : qm w1 = qm w) by reflexivity.
  assert (Hpl1 : polls_left w1 = polls_left w) by reflexivity.
  clearbody w1. destruct (fire_timer_inv pid enq w1 Hinv1) as [Hinv2 Hprog].
  split; [done|]. rewrite <- Hqm1, <- Hpl1. by apply (Hprog cb due).
Qed.

Lemma iter_tick_succ (k : nat) (w : world) :
  Nat.iter (S k) tick w = Nat.iter k tick (tick w).
Proof. induction k as [|k IH]; [done|]. simpl in *. by rewrite IH. Qed.

(** Under the punctual host the queue goes idle. *)
Lemma eventually_idle (pid : Z) (enq : list operation) (n m : nat) (w : world) :
  queue_inv pid enq w ->
  (length (operation_queue_arr (qm w)) <= n)%nat ->
  (polls_left w <= m)%nat ->
  exists k, timer (host (Nat.iter k tick w)) = None
            /\ queue_inv pid enq (Nat.iter k tick w).
Proof.
  revert m w. induction n as [|n IHn]; intros m; induction m as [|m IHm];
    intros w Hinv Hn Hm;
    (destruct (timer (host w)) eqn:Ht; [|by exists 0%nat]);
    destruct (tick_progress pid enq w Hinv) as [Hinv' [Hidle|[Hlt|[Heq Hpl]]]];
    try lia;
    try (exists 1%nat; done).
  - destruct (IHm (tick w) Hinv') as (k & Hk); [lia..|].
    exists (S k). by rewrite iter_tick_succ.
  - destruct (IHn (polls_left (tick w)) (tick w) Hinv') as (k & Hk); [lia..|].
    exists (S k). by rewrite iter_tick_succ.
  - destruct (IHn (polls_left (tick w)) (tick w) Hinv') as (k & Hk); [lia..|].
    exists (S k). by rewrite iter_tick_succ.
  - destruct (IHm (tick w) Hinv') as (k & Hk); [lia..|].
    exists (S k). by rewrite iter_tick_succ.
Qed.

(** C1. From a queue at rest in front of a prepared profile, along every
    schedule of submissions, clock advances, timer runs and completion
    events: no attribute call is issued while an earlier operation has not
    called back; the calls issued so far, followed by those of the
    operations still queued, are the calls of the submitted operations in
    submission order; and the punctual host brings the queue to rest, with
    the log still serialized and exactly one call per submitted operation,
    in submission order. *)
Theorem C1_queue_serializes (pid : Z) (schedule : list env_event) (w0 : world) :
  idle_prepared pid w0 ->
  let w := run schedule w0 in
  serialized (trace (host w))
  /\ (io_calls (trace (host w))
      ++ map (transport_call pid) (operation_queue_arr (qm w)))%list
     = map (transport_call pid) (enqueued schedule)
  /\ exists k,
       let w' := Nat.iter k tick w in
       qm w' = mkQueue [] false
       /\ serialized (trace (host w'))
       /\ io_calls (trace (host w')) = map (transport_call pid) (enqueued schedule)
       /\ length (io_calls (trace (host w'))) = length (enqueued schedule).
Proof.
  intros Hidle w.
  pose proof (run_inv pid schedule [] w0 (idle_inv pid w0 Hidle)) as Hinv.
  simpl in Hinv. fold w in Hinv.
  pose proof Hinv as (Hpid & Htimer & Hfl & Hio).
  split; [unfold serialized; by rewrite Hfl|]. split; [done|].
  destruct (eventually_idle pid (enqueued schedule)
              (length (operation_queue_arr (qm w))) (polls_left w) w Hinv)
    as (k & Hnone & (Hpid' & Htimer' & Hfl' & Hio')); [lia..|].
  exists k. cbv zeta. rewrite Hnone in Htimer'. rewrite Htimer' in Hio', Hfl'.
  simpl in Hio'. rewrite app_nil_r in Hio'.
  split; [done|]. split; [unfold serialized; by rewrite Hfl'|].
  split; [done|]. by rewrite Hio', length_map.
Qed.

Lemma C1_queue_serializes_witness :
  let schedule :=
    [EvEnqueue (CharaWrite "2A19" (DString "0100") false);
     EvEnqueue (ReadOperation "2A19" false);
     EvPush charaReadComplete 7 7; EvAdvance 100; EvTimer] in
  let w := run schedule sample_world in
  serialized (trace (host w))
  /\ exists k,
       let w' := Nat.iter k tick w in
       qm w' = mkQueue [] false
       /\ io_calls (trace (host w')) =
          [mstWriteCharacteristic 7 "2A19" [1; 0] 2; mstReadCharacteristic 7 "2A19"].
Proof.
  intros schedule w.
  destruct (C1_queue_serializes 7 schedule sample_world) as (Hser & _ & k & Hq & _ & Hio & _).
  { repeat split; reflexivity. }
  split; [exact Hser|]. exists k. split; [exact Hq | exact Hio].
Defined.

(** The scan does reject a log in which a second attribute call comes
    before the callback of the first. *)
Example overlap_is_not_serialized :
  ~ serialized [Call (mstReadCharacteristic 7 "2A19");
                Call (mstReadCharacteristic 7 "2A1A")].
Proof. intros [b H]. discriminate H. Qed.

(** The scenario of the specification: a write then a read are submitted,
    the completion event of the read arrives first; the read is issued
    only after the write has called back, here by its timeout. *)
Example read_event_before_write_event :
  let schedule :=
    [EvEnqueue (CharaWrite "2A19" (DString "0100") false);
     EvEnqueue (ReadOperation "2A19" false);
     EvPush charaReadComplete 7 7] in
  io_calls (trace (host (run schedule sample_world))) =
    [mstWriteCharacteristic 7 "2A19" [1; 0] 2]
  /\ trace (host (Nat.iter 52 tick (run schedule sample_world))) =
     [Call (mstWriteCharacteristic 7 "2A19" [1; 0] 2);
      Continuation (Some ERR_CHAR_WRITE_OPERATION_TIMEOUT);
      Call (mstReadCharacteristic 7 "2A19");
      Continuation None].
Proof. split; vm_compute; reflexivity. Qed.

(** ** The timeout of a queued operation *)

Lemma tick_due (w : world) (cb : check) (due : Z) :
  timer (host w) = Some (cb, due) -> now (host w) <= due ->
  tick w = fire_timer (set_host (with_now due (host w)) w).
Proof.
  intros Ht Hnow. unfold tick. rewrite Ht. cbn [run fold_left step].
  by replace (now (host w) + Z.of_nat (Z.to_nat (due - now (host w)))) with due by lia.
Qed.

Lemma polling_tick (w : world) (cb : check) (t : Z) :
  flag_raised cb (flags w) = false ->
  t + queue_check_interval - start_of cb <= queue_timeout ->
  tick (polling w cb t) = polling w cb (t + queue_check_interval).
Proof.
  intros Hflag Hle.
  rewrite (tick_due _ cb (t + queue_check_interval)) by (simpl; unfold queue_check_interval; first [lia | done]).
  unfold fire_timer. cbn [polling set_host with_now host timer now].
  rewrite Z.leb_refl.
  match goal with
  | |- context [run_check ?c ?x] => destruct (run_check_cases c x)
      as [(Hgt & _)|[(_ & Hf & _)|(_ & _ & ->)]]
  end.
  - simpl in Hgt. lia.
  - simpl in Hf. congruence.
  - reflexivity.
Qed.


Lemma iter_polling (w : world) (cb : check) (t : Z) (k : nat) :
  flag_raised cb (flags w) = false ->
  t + Z.of_nat k * queue_check_interval - start_of cb <= queue_timeout ->
  Nat.iter k tick (polling w cb t) = polling w cb (t + Z.of_nat k * queue_check_interval).
Proof.
  intros Hflag. induction k as [|k IH]; intros Hle.
  - simpl. by rewrite Z.add_0_r.
  - cbn [Nat.iter nat_rect]. unfold Nat.iter in IH. rewrite IH.
    + rewrite polling_tick; [|done|unfold queue_check_interval in *; lia].
      f_equal. unfold queue_check_interval. lia.
    + unfold queue_check_interval in *. lia.
Qed.

(** Issued on an idle queue with its flag down, an operation that waits
    leaves the queue polling from the issue time. *)
Lemma enqueue_polls (op : operation) (cb : check) (pid : Z) (w : world) :
  current_pid w = Some pid ->
  qm w = mkQueue [] false ->
  check_of op (now (host w)) = Some cb ->
  flag_raised cb (flags w) = false ->
  enqueueOperation op w =
  polling (log (Call (transport_call pid op)) (set_qm (mkQueue [] true) w))
    cb (now (host w)).
Proof.
  intros Hpid Hqm Hcb Hflag. unfold enqueueOperation. rewrite Hqm.
  rewrite (processQueue_drain [op]) by reflexivity.
  cbn [drain with_queue operation_queue_arr app].
  assert (Hpid1 : current_pid (set_qm (mkQueue [] true)
                                 (set_qm (mkQueue [op] false) w)) = Some pid) by exact Hpid.
  rewrite (execute_prepared _ _ pid Hpid1).
  change (now (host (set_qm (mkQueue [] true) (set_qm (mkQueue [op] false) w))))
    with (now (host w)).
  rewrite Hcb. pose proof (check_of_start _ _ _ Hcb) as Hstart.
  match goal with
  | |- context [run_check ?c ?x] =>
      destruct (run_check_cases c x)
        as [(Hgt & _)|[(_ & Hf & _)|(_ & _ & ->)]]
  end.
  - simpl in Hgt. unfold queue_timeout in Hgt. lia.
  - simpl in Hf. congruence.
  - reflexivity.
Qed.

(** Nothing but the host moves the clock. *)
Lemma run_check_now (cb : check) (w : world) :
  now (host (fst (run_check cb w))) = now (host w).
Proof.
  destruct (run_check_cases cb w) as [(_ & ->)|[(_ & _ & ->)|(_ & _ & ->)]]; done.
Qed.

Lemma execute_now (op : operation) (w : world) :
  now (host (fst (execute op w))) = now (host w).
Proof.
  destruct op as [uuid d wwr|chara desc d|uuid is_descriptor]; simpl;
    unfold performCharaWrite, performDescriptorWrite, performReadOperation;
    destruct (current_pid w); try done.
  all: try (destruct wwr; [done|]).
  all: try destruct is_descriptor.
  all: match goal with
       | |- now (host (fst (waitForWriteCompletion ?ty ?x))) = _ =>
           exact (run_check_now (WriteCheck ty (now (host x))) x)
       | |- now (host (fst (waitForReadCompletion ?d ?x))) = _ =>
           exact (run_check_now (ReadCheck d (now (host x))) x)
       end.
Qed.

Lemma drain_now (queue : list operation) (w : world) :
  now (host (drain queue w)) = now (host w).
Proof.
  revert w. induction queue as [|op rest IH]; intros w; [done|].
  cbn [drain].
  pose proof (execute_now op (set_qm (mkQueue rest true) w)) as He.
  destruct (execute op (set_qm (mkQueue rest true) w)) as [w' [|]]; simpl in He.
  - by rewrite IH.
  - done.
Qed.

Lemma processQueue_now (w : world) : now (host (processQueue w)) = now (host w).
Proof.
  unfold processQueue.
  destruct (is_processing (qm w) || Nat.eqb (length (operation_queue_arr (qm w))) 0)%bool;
    [done | apply drain_now].
Qed.

Lemma step_now (e : env_event) (w : world) : now (host w) <= now (host (step e w)).
Proof.
  destruct e as [op|ms| |c p]; simpl.
  - unfold enqueueOperation. by rewrite processQueue_now.
  - lia.
  - unfold fire_timer. destruct (timer (host w)) as [[cb due]|]; [|done].
    destruct (due <=? now (host w)); [|done].
    pose proof (run_check_now cb (set_host (with_timer None (host w)) w)) as Hc.
    destruct (run_check cb (set_host (with_timer None (host w)) w)) as [w' [|]];
      simpl in Hc; [|lia].
    unfold continuation. rewrite processQueue_now. simpl. lia.
  - unfold listener. destruct (_ =? _); [|done].
    destruct (cb_of c _); destruct c; simpl; lia.
Qed.

(** ** Events while an operation waits *)

Lemma listener_frame (c : capability) (own profile : Z) (w : world) :
  ble (listener c own profile w) = ble w
  /\ qm (listener c own profile w) = qm w
  /\ cbs (listener c own profile w) = cbs w
  /\ now (host (listener c own profile w)) = now (host w)
  /\ timer (host (listener c own profile w)) = timer (host w)
  /\ global_names (host (listener c own profile w)) = global_names (host w).
Proof.
  unfold listener. destruct (_ =? _); [|done].
  destruct c; unfold cb_of;
    match goal with
    | |- context [match ?x with Some _ => _ | None => _ end] => destruct x
    end; done.
Qed.

Lemma listener_handlers (c : capability) (own profile : Z) (w : world) :
  exists hs, trace (host (listener c own profile w)) = (trace (host w) ++ handlers hs)%list.
Proof.
  unfold listener. destruct (_ =? _); [|exists []; cbn; by rewrite app_nil_r].
  destruct c; cbn;
    match goal with
    | |- context [match ?x with Some _ => _ | None => _ end] => destruct x
    end; cbn;
    first [by eexists [_] | exists []; cbn; by rewrite app_nil_r].
Qed.

Lemma listener_raises (c : capability) (cb : check) (own : Z) (w : world) :
  completes c cb = true -> flag_raised cb (flags (listener c own own w)) = true.
Proof.
  intros Hc. unfold listener. rewrite Z.eqb_refl.
  destruct c, cb as [ty s|[|] s]; try discriminate Hc;
    unfold cb_of;
    match goal with
    | |- context [match ?x with Some _ => _ | None => _ end] => destruct x
    end; cbn; rewrite ?orb_true_r; reflexivity.
Qed.

Lemma listener_keeps (c : capability) (cb : check) (own profile : Z) (w : world) :
  (completes c cb && (own =? profile))%bool = false ->
  flag_raised cb (flags (listener c own profile w)) = flag_raised cb (flags w).
Proof.
  intros H. unfold listener. destruct (own =? profile); [|done].
  rewrite andb_true_r in H.
  destruct c, cb as [ty s|[|] s]; try discriminate H; cbn;
    match goal with
    | |- context [match ?x with Some _ => _ | None => _ end] => destruct x
    end; reflexivity.
Qed.

Lemma handlers_app (hs1 hs2 : list capability) :
  handlers (hs1 ++ hs2) = (handlers hs1 ++ handlers hs2)%list.
Proof. apply map_app. Qed.

(** A submission while the queue is busy only lengthens the queue. *)
Lemma enqueue_while_processing (op : operation) (w : world) :
  is_processing (qm w) = true ->
  enqueueOperation op w
  = set_qm (with_queue (operation_queue_arr (qm w) ++ [op]) (qm w)) w.
Proof. intros H. unfold enqueueOperation, processQueue. cbn. by rewrite H. Qed.

(** ** What a run of the queue adds to the log and does to the flags *)

Lemma run_check_trace (cb : check) (w : world) :
  exists suffix, trace (host (fst (run_check cb w))) = (trace (host w) ++ suffix)%list.
Proof.
  destruct (run_check_cases cb w) as [(_ & ->)|[(_ & _ & ->)|(_ & _ & ->)]]; cbn.
  - by eexists.
  - by eexists.
  - exists []. by rewrite app_nil_r.
Qed.

Lemma execute_trace (op : operation) (w : world) :
  exists suffix, trace (host (fst (execute op w))) = (trace (host w) ++ suffix)%list.
Proof.
  destruct (current_pid w) as [pid|] eqn:Hpid.
  - rewrite (execute_prepared op w pid Hpid).
    destruct (check_of op (now (host w))) as [cb|].
    + destruct (run_check_trace cb (log (Call (transport_call pid op)) w)) as [suffix ->].
      cbn. rewrite <- app_assoc. by eexists.
    + cbn. rewrite <- app_assoc. by eexists.
  - rewrite (execute_no_profile op w Hpid). cbn. by eexists.
Qed.

Lemma drain_trace (queue : list operation) (w : world) :
  exists suffix, trace (host (drain queue w)) = (trace (host w) ++ suffix)%list.
Proof.
  revert w. induction queue as [|op rest IH]; intros w.
  - exists []. cbn. by rewrite app_nil_r.
  - cbn [drain].
    destruct (execute_trace op (set_qm (mkQueue rest true) w)) as [s1 H1].
    destruct (execute op (set_qm (mkQueue rest true) w)) as [w' [|]]; cbn in H1.
    + destruct (IH (set_qm (with_is_processing false (qm w')) w')) as [s2 H2].
      rewrite H2. cbn. rewrite H1, <- app_assoc. by eexists.
    + rewrite H1. by eexists.
Qed.

Lemma processQueue_trace (w : world) :
  exists suffix, trace (host (processQueue w)) = (trace (host w) ++ suffix)%list.
Proof.
  unfold processQueue.
  destruct (is_processing (qm w) || Nat.eqb (length (operation_queue_arr (qm w))) 0)%bool.
  - exists []. by rewrite app_nil_r.
  - apply drain_trace.
Qed.

Lemma continuation_trace (w : world) :
  exists suffix, trace (host (continuation w)) = (trace (host w) ++ suffix)%list.
Proof. unfold continuation. apply (processQueue_trace (set_qm _ w)). Qed.

Lemma continuation_now (w : world) : now (host (continuation w)) = now (host w).
Proof. unfold continuation. by rewrite processQueue_now. Qed.

Lemma run_check_write_flags (cb : check) (w : world) :
  write_flags_down (flags w) -> write_flags_down (flags (fst (run_check cb w))).
Proof.
  intros [Hc Hd].
  destruct (run_check_cases cb w) as [(_ & ->)|[(_ & _ & ->)|(_ & _ & ->)]]; cbn.
  - by split.
  - destruct cb; by split.
  - by split.
Qed.

Lemma execute_write_flags (op : operation) (w : world) :
  write_flags_down (flags w) -> write_flags_down (flags (fst (execute op w))).
Proof.
  intros H. destruct (current_pid w) as [pid|] eqn:Hpid.
  - rewrite (execute_prepared op w pid Hpid).
    destruct (check_of op (now (host w))) as [cb|]; [|exact H].
    by apply run_check_write_flags.
  - by rewrite (execute_no_profile op w Hpid).
Qed.

Lemma drain_write_flags (queue : list operation) (w : world) :
  write_flags_down (flags w) -> write_flags_down (flags (drain queue w)).
Proof.
  revert w. induction queue as [|op rest IH]; intros w H; [done|].
  cbn [drain].
  pose proof (execute_write_flags op (set_qm (mkQueue rest true) w) H) as He.
  destruct (execute op (set_qm (mkQueue rest true) w)) as [w' [|]]; cbn in He.
  - by apply IH.
  - done.
Qed.

Lemma continuation_write_flags (w : world) :
  write_flags_down (flags w) -> write_flags_down (flags (continuation w)).
Proof.
  intros H. unfold continuation, processQueue.
  destruct (_ || _)%bool; [done|]. by apply drain_write_flags.
Qed.

(** ** The timeout of a queued operation *)

(** Every operation is issued by a run of [processQueue] that finds it at
    the head of the queue with the queue not busy: the submission to an
    idle queue, or the continuation of the operation before it. When it
    waits and its flag is down, it leaves the queue polling from the issue
    time. *)
Lemma processQueue_issue (op : operation) (rest : list operation) (cb : check)
    (pid : Z) (w : world) :
  current_pid w = Some pid ->
  qm w = mkQueue (op :: rest) false ->
  check_of op (now (host w)) = Some cb ->
  flag_raised cb (flags w) = false ->
  processQueue w =
  polling (log (Call (transport_call pid op)) (set_qm (mkQueue rest true) w))
    cb (now (host w)).
Proof.
  intros Hpid Hqm Hcb Hflag.
  rewrite (processQueue_drain (op :: rest)) by exact Hqm.
  cbn [drain].
  assert (Hpid1 : current_pid (set_qm (mkQueue rest true) w) = Some pid) by exact Hpid.
  rewrite (execute_prepared _ _ pid Hpid1).
  change (now (host (set_qm (mkQueue rest true) w))) with (now (host w)).
  rewrite Hcb. pose proof (check_of_start _ _ _ Hcb) as Hstart.
  match goal with
  | |- context [run_check ?c ?x] =>
      destruct (run_check_cases c x)
        as [(Hgt & _)|[(_ & Hf & _)|(_ & _ & ->)]]
  end.
  - simpl in Hgt. unfold queue_timeout in Hgt. lia.
  - simpl in Hf. congruence.
  - reflexivity.
Qed.

(** The two callers of [processQueue]: a submission, and the continuation
    of the operation that has just called back. Either finds the next
    operation at the head of the queue with the queue not busy. *)
Lemma enqueue_is_issue (op : operation) (w : world) :
  qm w = mkQueue [] false ->
  enqueueOperation op w = processQueue (set_qm (mkQueue [op] false) w).
Proof. intros H. unfold enqueueOperation. by rewrite H. Qed.

Lemma continuation_is_issue (queue : list operation) (w : world) :
  qm w = mkQueue queue true ->
  continuation w = processQueue (set_qm (mkQueue queue false) w).
Proof. intros H. unfold continuation. by rewrite H. Qed.

(** Whatever happens that does not set the flag, the operation in flight
    has not called back, or more than the timeout has elapsed. *)
Lemma step_pending (cb : check) (tr0 : list event) (e : env_event) (w : world) :
  sets_flag cb e = false ->
  pending cb tr0 w \/ queue_timeout < now (host w) - start_of cb ->
  pending cb tr0 (step e w) \/ queue_timeout < now (host (step e w)) - start_of cb.
Proof.
  intros He [([due Hdue] & Hf & Hp & [hs Htr])|Hgt];
    [|right; pose proof (step_now e w); lia].
  destruct e as [op|ms| |c own profile]; cbn [step].
  - left. rewrite (enqueue_while_processing op w Hp). unfold pending. cbn.
    rewrite Hdue, Hp. eauto 6.
  - left. unfold pending. cbn. rewrite Hdue. eauto 6.
  - unfold fire_timer. rewrite Hdue.
    destruct (due <=? now (host w)); [|left; unfold pending; eauto 6].
    destruct (run_check_cases cb (set_host (with_timer None (host w)) w))
      as [(Hgt & ->)|[(_ & Hf' & _)|(_ & _ & ->)]].
    + right. rewrite continuation_now. exact Hgt.
    + simpl in Hf'. congruence.
    + left. unfold pending. cbn. eauto 6.
  - left. cbn [sets_flag] in He.
    destruct (listener_frame c own profile w) as (_ & Hq & _ & _ & Ht & _).
    destruct (listener_handlers c own profile w) as [hs' Htr'].
    unfold pending. rewrite Ht, Hq, (listener_keeps c cb own profile w He), Htr', Htr.
    split; [eauto|]. split; [done|]. split; [done|].
    exists (hs ++ hs')%list. by rewrite handlers_app, app_assoc.
Qed.

Lemma run_pending (cb : check) (tr0 : list event) (schedule : list env_event)
    (w : world) :
  flag_never_set cb schedule ->
  pending cb tr0 w \/ queue_timeout < now (host w) - start_of cb ->
  pending cb tr0 (run schedule w)
  \/ queue_timeout < now (host (run schedule w)) - start_of cb.
Proof.
  revert w. induction schedule as [|e s IH]; intros w Hq H; [done|].
  unfold flag_never_set in Hq. cbn [forallb] in Hq. apply andb_prop in Hq as [He Hs].
  cbn [run fold_left]. apply (IH _ Hs).
  apply step_pending; [by apply negb_true_iff | done].
Qed.










(** Two operations submitted together: the second is issued by the
    continuation of the first, 5100 ms after the submission, and its own
    window starts there. *)
Example second_operation_times_out :
  let w := run [EvEnqueue (CharaWrite "2A19" (DString "0100") false);
                EvEnqueue (ReadOperation "2A19" false)] sample_world in
  trace (host (Nat.iter 51 tick w))
  = [Call (mstWriteCharacteristic 7 "2A19" [1; 0] 2);
     Continuation (Some ERR_CHAR_WRITE_OPERATION_TIMEOUT);
     Call (mstReadCharacteristic 7 "2A19")]
  /\ now (host (Nat.iter 51 tick w)) = 1000 + 5100
  /\ trace (host (Nat.iter 102 tick w))
     = [Call (mstWriteCharacteristic 7 "2A19" [1; 0] 2);
        Continuation (Some ERR_CHAR_WRITE_OPERATION_TIMEOUT);
        Call (mstReadCharacteristic 7 "2A19");
        Continuation (Some ERR_CHAR_READ_OPERATION_TIMEOUT)]
  /\ now (host (Nat.iter 102 tick w)) = 1000 + 5100 + 5100.
Proof. vm_compute. repeat split; reflexivity. Qed.

(** ** The two write flags *)

(** The poll that is due, run within the timeout: with the flag down it
    schedules the next poll, with the flag up it calls back. *)
Lemma poll_flag_down (cb : check) (due : Z) (ms : nat) (w : world) :
  timer (host w) = Some (cb, due) ->
  due <= now (host w) + Z.of_nat ms ->
  now (host w) + Z.of_nat ms - start_of cb <= queue_timeout ->
  flag_raised cb (flags w) = false ->
  run [EvAdvance ms; EvTimer] w
  = set_host (mkHost (now (host w) + Z.of_nat ms)
                (Some (cb, now (host w) + Z.of_nat ms + queue_check_interval))
                (global_names (host w)) (trace (host w))) w.
Proof.
  intros Ht Hdue Hle Hf. cbn [run fold_left step]. unfold fire_timer. cbn.
  rewrite Ht. destruct (Z.leb_spec due (now (host w) + Z.of_nat ms)); [|lia].
  match goal with
  | |- context [run_check ?c ?x] => destruct (run_check_cases c x)
      as [(Hgt & _)|[(_ & Hf' & _)|(_ & _ & ->)]]
  end.
  - cbn in Hgt. lia.
  - cbn in Hf'. congruence.
  - reflexivity.
Qed.

Lemma poll_flag_up (cb : check) (due : Z) (ms : nat) (w : world) :
  timer (host w) = Some (cb, due) ->
  due <= now (host w) + Z.of_nat ms ->
  now (host w) + Z.of_nat ms - start_of cb <= queue_timeout ->
  flag_raised cb (flags w) = true ->
  run [EvAdvance ms; EvTimer] w
  = continuation
      (log (Continuation None)
         (set_flags (reset_flags cb (flags w))
            (set_host (mkHost (now (host w) + Z.of_nat ms) None
                         (global_names (host w)) (trace (host w))) w))).
Proof.
  intros Ht Hdue Hle Hf. cbn [run fold_left step]. unfold fire_timer. cbn.
  rewrite Ht. destruct (Z.leb_spec due (now (host w) + Z.of_nat ms)); [|lia].
  match goal with
  | |- context [run_check ?c ?x] => destruct (run_check_cases c x)
      as [(Hgt & _)|[(_ & _ & ->)|(_ & Hf' & _)]]
  end.
  - cbn in Hgt. lia.
  - reflexivity.
  - cbn in Hf'. congruence.
Qed.

(** C10, as stated, at a concrete input: a descriptor write is pending
    and its own completion event sets its flag 5000 ms after the issue,
    yet the operation does not complete successfully: the next poll, 100 ms
    later, calls back with the timeout error, and the flag is left set. *)
Lemma C10_late_flag_counterexample :
  let issued := enqueueOperation (DescriptorWrite "2A19" "2902" (DString "0100"))
                  sample_world in
  let pending := Nat.iter 50 tick issued in
  let flagged := step (EvPush descWriteComplete 7 7) pending in
  trace (host pending) = [Call (mstWriteDescriptor 7 "2A19" "2902" [1; 0] 2)]
  /\ qm pending = mkQueue [] true
  /\ now (host flagged) - now (host issued) = queue_timeout
  /\ desc_write_complete_flag (flags flagged) = true
  /\ trace (host (tick flagged))
     = [Call (mstWriteDescriptor 7 "2A19" "2902" [1; 0] 2);
        Continuation (Some ERR_DESC_WRITE_OPERATION_TIMEOUT)]
  /\ desc_write_complete_flag (flags (tick flagged)) = true.
Proof. vm_compute. repeat split; reflexivity. Qed.

(** C10, amended. A write that waits, of either kind, issued with both
    write flags down, on an idle queue or by the continuation of the
    operation before it: as long as neither flag is set it has not called
    back, and a poll that is due finds it pending and schedules the next
    poll one interval later. Once either write-complete event, the
    characteristic one or the descriptor one, has set its flag, the next
    poll, if it runs no later than the timeout after the issue, calls back
    without an error, and both write flags are down afterwards. *)
Theorem C10_write_flags_interchangeable
    (op : operation) (rest : list operation) (ty : operation_type) (pid : Z)
    (c : capability) (own : Z) (schedule : list env_event) (ms : nat) (w : world) :
  let t0 := now (host w) in
  let cb := WriteCheck ty t0 in
  current_pid w = Some pid ->
  qm w = mkQueue (op :: rest) false ->
  check_of op t0 = Some cb ->
  write_flags_down (flags w) ->
  c = charaWriteComplete \/ c = descWriteComplete ->
  flag_never_set cb schedule ->
  let waited := run schedule (processQueue w) in
  (forall due, timer (host waited) = Some (cb, due) ->
               due <= now (host waited) + Z.of_nat ms) ->
  now (host waited) + Z.of_nat ms - t0 <= queue_timeout ->
  let polled := run [EvAdvance ms; EvTimer] waited in
  let completed := run [EvPush c own own; EvAdvance ms; EvTimer] waited in
  (exists hs, trace (host polled)
              = (trace (host w) ++ Call (transport_call pid op) :: handlers hs)%list)
  /\ timer (host polled) = Some (cb, now (host polled) + queue_check_interval)
  /\ write_flags_down (flags polled)
  /\ (exists hs suffix,
        trace (host completed)
        = (trace (host w) ++ Call (transport_call pid op) :: handlers hs
           ++ Continuation None :: suffix)%list)
  /\ write_flags_down (flags completed).
Proof.
  intros t0 cb Hpid Hqm Hcb [Hfc Hfd] Hc Hq waited Hdue Hle polled completed.
  assert (Hflag : flag_raised cb (flags w) = false) by (cbn; by rewrite Hfc, Hfd).
  pose proof (processQueue_issue op rest cb pid w Hpid Hqm Hcb Hflag) as Hissued.
  set (issued := processQueue w) in *.
  assert (Htr0 : trace (host issued)
                 = (trace (host w) ++ [Call (transport_call pid op)])%list)
    by (by rewrite Hissued).
  assert (Hp0 : pending cb (trace (host issued)) issued).
  { rewrite Hissued. unfold pending. cbn. split; [eauto|]. repeat split; try done.
    exists []. cbn. by rewrite app_nil_r. }
  clearbody issued. clear Hissued.
  pose proof (run_pending cb (trace (host issued)) schedule issued Hq (or_introl Hp0))
    as Hrun.
  change (run schedule issued) with waited in Hrun.
  destruct Hrun as [([due Ht] & Hf & Hp & [hs Htr])|Hgt].
  2:{ cbn [start_of cb] in Hgt. lia. }
  specialize (Hdue due Ht).
  assert (Hwf : write_flags_down (flags waited)).
  { cbn in Hf. apply orb_false_elim in Hf as [? ?]. by split. }
  clearbody waited.
  assert (Hpolled : polled = set_host (mkHost (now (host waited) + Z.of_nat ms)
                (Some (cb, now (host waited) + Z.of_nat ms + queue_check_interval))
                (global_names (host waited)) (trace (host waited))) waited)
    by (by apply (poll_flag_down cb due)).
  split; [|split; [|split; [|split]]].
  - exists hs. rewrite Hpolled. cbn. by rewrite Htr, Htr0, <- app_assoc.
  - by rewrite Hpolled.
  - by rewrite Hpolled.
  - subst completed. change (run [EvPush c own own; EvAdvance ms; EvTimer] waited)
      with (run [EvAdvance ms; EvTimer] (listener c own own waited)).
    destruct (listener_frame c own own waited) as (_ & _ & _ & Hn & Hti & _).
    destruct (listener_handlers c own own waited) as [hs' Htr'].
    rewrite (poll_flag_up cb due) by
      (rewrite ?Hn, ?Hti; first [done | apply listener_raises; by destruct Hc as [-> | ->]]).
    match goal with |- context [continuation ?x] =>
      destruct (continuation_trace x) as [suffix ->] end.
    exists (hs ++ hs')%list, suffix. cbn.
    by rewrite Htr', Htr, Htr0, handlers_app, <- !app_assoc.
  - subst completed. change (run [EvPush c own own; EvAdvance ms; EvTimer] waited)
      with (run [EvAdvance ms; EvTimer] (listener c own own waited)).
    destruct (listener_frame c own own waited) as (_ & _ & _ & Hn & Hti & _).
    rewrite (poll_flag_up cb due) by
      (rewrite ?Hn, ?Hti; first [done | apply listener_raises; by destruct Hc as [-> | ->]]).
    apply continuation_write_flags. cbn. by split.
Qed.

Lemma C10_write_flags_interchangeable_witness :
  let w := set_qm (mkQueue [DescriptorWrite "2A19" "2902" (DString "0100");
                            ReadOperation "2A19" false] false)
             (exec (on_subscribe charaWriteComplete 1%nat) sample_world) in
  let waited := run [EvAdvance 100; EvTimer; EvPush charaReadComplete 7 7;
                     EvAdvance 250] (processQueue w) in
  let completed := run [EvPush charaWriteComplete 7 7; EvAdvance 0; EvTimer] waited in
  (exists hs suffix,
      trace (host completed)
      = (trace (host w)
         ++ Call (transport_call 7 (DescriptorWrite "2A19" "2902" (DString "0100")))
            :: handlers hs ++ Continuation None :: suffix)%list)
  /\ write_flags_down (flags completed).
Proof.
  refine (proj2 (proj2 (proj2
    (C10_write_flags_interchangeable
       (DescriptorWrite "2A19" "2902" (DString "0100")) [ReadOperation "2A19" false]
       Desc 7 charaWriteComplete 7
       [EvAdvance 100; EvTimer; EvPush charaReadComplete 7 7; EvAdvance 250] 0
       (set_qm (mkQueue [DescriptorWrite "2A19" "2902" (DString "0100");
                         ReadOperation "2A19" false] false)
          (exec (on_subscribe charaWriteComplete 1%nat) sample_world))
       eq_refl eq_refl eq_refl (conj eq_refl eq_refl) (or_introl eq_refl) eq_refl
       _ _)))).
  - intros due [= <-]. vm_compute. discriminate.
  - vm_compute. discriminate.
Defined.

(** * Further properties of the library *)

(** ** Splitting and joining *)

Lemma split_nonempty (sep : ascii) (s : string) : Js.split sep s <> [].
Proof.
  destruct s as [|c s]; [done|]. simpl.
  destruct (Ascii.eqb c sep); [done|]. by destruct (Js.split sep s).
Qed.

Lemma split_free (sep : ascii) (s : string) : free_of sep s -> Js.split sep s = [s].
Proof.
  induction s as [|c s IH]; intros H; [done|].
  inversion H as [|? ? Hc Hs]; subst. cbn [Js.split].
  destruct (Ascii.eqb_spec c sep) as [E|_]; [done|]. by rewrite (IH Hs).
Qed.

Lemma append_nil (s : string) : (EmptyString ++ s)%string = s.
Proof. reflexivity. Qed.

Lemma append_cons (c : ascii) (s t : string) :
  (String c s ++ t)%string = String c (s ++ t)%string.
Proof. reflexivity. Qed.

(** Splitting distributes over a separator in the middle. *)
Lemma split_app_sep (sep : ascii) (a b : string) :
  Js.split sep (a ++ String sep b) = (Js.split sep a ++ Js.split sep b)%list.
Proof.
  induction a as [|c a IH]; rewrite ?append_nil, ?append_cons; cbn [Js.split app].
  - by rewrite Ascii.eqb_refl.
  - rewrite IH. destruct (Ascii.eqb c sep); [done|].
    pose proof (split_nonempty sep a). by destruct (Js.split sep a).
Qed.

Lemma join_cons (sep p : string) (ps : list string) :
  ps <> [] -> join sep (p :: ps) = (p ++ sep ++ join sep ps)%string.
Proof. by destruct ps. Qed.

Lemma join_split (sep : ascii) (s : string) :
  join (String sep EmptyString) (Js.split sep s) = s.
Proof.
  induction s as [|c s IH]; [done|]. cbn [Js.split].
  pose proof (split_nonempty sep s) as Hne.
  destruct (Ascii.eqb_spec c sep) as [->|_].
  - rewrite join_cons by done. by rewrite IH.
  - destruct (Js.split sep s) as [|p ps]; [done|].
    destruct ps as [|q ps].
    + cbn [join] in *. by rewrite IH.
    + rewrite join_cons in * by done. by rewrite append_cons, IH.
Qed.

Lemma split_join (sep : ascii) (parts : list string) :
  parts <> [] -> Forall (free_of sep) parts ->
  Js.split sep (join (String sep EmptyString) parts) = parts.
Proof.
  induction parts as [|p ps IH]; intros Hne Hfree; [done|].
  inversion Hfree as [|? ? Hp Hps]; subst.
  destruct ps as [|q ps]; [by apply split_free|].
  rewrite join_cons by done. rewrite (append_cons sep EmptyString), append_nil.
  rewrite split_app_sep, (split_free _ _ Hp), IH; done.
Qed.

(** Splitting is injective: two strings with the same parts are equal. *)
Lemma split_inj (sep : ascii) (s t : string) :
  Js.split sep s = Js.split sep t -> s = t.
Proof. intros H. by rewrite <- (join_split sep s), H, join_split. Qed.

(** ** Bytes and their hexadecimal text *)

Lemma byte_cases (P : Z -> bool) :
  forallb (fun n => P (Z.of_nat n)) (seq 0 256) = true ->
  forall b, is_byte b -> P b = true.
Proof.
  intros H b [Hlo Hhi]. rewrite forallb_forall in H.
  rewrite <- (Z2Nat.id b Hlo). apply H, in_seq. lia.
Qed.

Lemma two_hex_inv (p : string) :
  two_hex p = true ->
  exists c d, p = String c (String d EmptyString)
              /\ Js.is_hex c = true /\ Js.is_hex d = true.
Proof.
  destruct p as [|c [|d [|]]]; try discriminate. intros H.
  apply andb_prop in H as [? ?]. eauto.
Qed.

(** The octet text that [ab2mac] writes for a byte: two lowercase hex
    digits that [parseInt] reads back as the byte. *)
Lemma octet_text (b : Z) :
  is_byte b ->
  two_hex (padStart2 (toString16 b)) = true
  /\ Js.toLowerCase (padStart2 (toString16 b)) = padStart2 (toString16 b)
  /\ Js.toUint8 (Js.parseInt16 (padStart2 (toString16 b))) = b.
Proof.
  intros Hb.
  pose proof (byte_cases
    (fun b => two_hex (padStart2 (toString16 b))
              && String.eqb (Js.toLowerCase (padStart2 (toString16 b)))
                            (padStart2 (toString16 b))
              && (Js.toUint8 (Js.parseInt16 (padStart2 (toString16 b))) =? b))%bool
    ltac:(vm_compute; reflexivity) b Hb) as H.
  apply andb_prop in H as [H H3]. apply andb_prop in H as [H1 H2].
  split; [done|]. split; [by apply String.eqb_eq | by apply Z.eqb_eq].
Qed.

Lemma is_hex_not_colon (c : ascii) : Js.is_hex c = true -> c <> ":"%char.
Proof. intros H ->. discriminate H. Qed.

Lemma two_hex_free (p : string) : two_hex p = true -> free_of ":" p.
Proof.
  intros (c & d & -> & Hc & Hd)%two_hex_inv.
  repeat constructor; by apply is_hex_not_colon.
Qed.

(** X1. Writing a non-empty buffer as an address and reading it back
    gives the same bytes; the empty buffer comes back as one zero byte. *)
Theorem mac2ab_ab2mac (ab : list Z) :
  Forall is_byte ab ->
  mac2ab (ab2mac ab) = match ab with [] => [0] | _ => ab end.
Proof.
  intros Hb. destruct ab as [|b0 ab0]; [reflexivity|].
  set (ab := b0 :: ab0) in *. unfold mac2ab, ab2mac.
  rewrite split_join.
  - rewrite map_map. rewrite <- (map_id ab) at 2. apply map_ext_Forall.
    eapply Forall_impl; [exact Hb|]. intros b Hbyte. by apply octet_text.
  - done.
  - apply Forall_map. eapply Forall_impl; [exact Hb|].
    intros b Hbyte. by apply two_hex_free, octet_text.
Qed.

Lemma mac2ab_ab2mac_witness :
  mac2ab (ab2mac [170; 0; 13; 221; 238; 255]) = [170; 0; 13; 221; 238; 255].
Proof.
  apply (mac2ab_ab2mac [170; 0; 13; 221; 238; 255]).
  repeat constructor; unfold is_byte; lia.
Defined.

Lemma lower_app (s t : string) :
  Js.toLowerCase (s ++ t) = (Js.toLowerCase s ++ Js.toLowerCase t)%string.
Proof.
  induction s as [|c s IH]; [done|].
  rewrite append_cons. cbn [Js.toLowerCase]. by rewrite append_cons, IH.
Qed.

Lemma lower_join (sep : string) (parts : list string) :
  Js.toLowerCase (join sep parts) = join (Js.toLowerCase sep) (map Js.toLowerCase parts).
Proof.
  induction parts as [|p ps IH]; [done|].
  destruct ps as [|q ps]; [done|].
  rewrite join_cons by done. rewrite !lower_app, IH.
  change (map Js.toLowerCase (p :: q :: ps))
    with (Js.toLowerCase p :: map Js.toLowerCase (q :: ps)).
  by rewrite join_cons.
Qed.

(** [ab2mac] writes lowercase text, whatever the buffer. *)
Lemma ab2mac_lower (ab : list Z) :
  Forall is_byte ab -> Js.toLowerCase (ab2mac ab) = ab2mac ab.
Proof.
  intros Hb. unfold ab2mac. rewrite lower_join, map_map. f_equal.
  apply map_ext_Forall. eapply Forall_impl; [exact Hb|].
  intros b Hbyte. by apply octet_text.
Qed.

(** X2. The address that [ab2mac] writes for a buffer of six bytes, the
    key under which a scan stores a device, passes the format check of
    [connect], is already lowercase and is not taken for a wildcard
    pattern. *)
Theorem ab2mac_six_bytes (ab : list Z) :
  length ab = 6%nat -> Forall is_byte ab ->
  isValidMacAddress (ab2mac ab) = true
  /\ Js.toLowerCase (ab2mac ab) = ab2mac ab
  /\ Js.includes (ab2mac ab) "xx" = false
  /\ length (Js.split ":" (ab2mac ab)) = 6%nat.
Proof.
  intros Hlen Hb.
  assert (Hvalid : isValidMacAddress (ab2mac ab) = true).
  { destruct ab as [|b1 [|b2 [|b3 [|b4 [|b5 [|b6 [|]]]]]]]; try discriminate.
    repeat match goal with
           | H : Forall _ (_ :: _) |- _ => inversion H; subst; clear H
           end.
    unfold ab2mac. cbn [map].
    repeat match goal with
           | H : is_byte ?b |- _ =>
               destruct (two_hex_inv _ (proj1 (octet_text b H))) as (? & ? & -> & ? & ?);
               clear H
           end.
    cbn [join]. rewrite ?append_cons, ?append_nil.
    unfold isValidMacAddress. cbn -[Js.is_hex].
    repeat match goal with H : Js.is_hex _ = true |- _ => rewrite H; clear H end.
    reflexivity. }
  split; [done|]. split; [by apply ab2mac_lower|].
  split; [by apply not_x_includes, valid_not_x|].
  unfold ab2mac. rewrite split_join.
  - by rewrite length_map.
  - by destruct ab.
  - apply Forall_map. eapply Forall_impl; [exact Hb|].
    intros b Hbyte. by apply two_hex_free, octet_text.
Qed.

Lemma ab2mac_six_bytes_witness :
  isValidMacAddress (ab2mac [17; 34; 51; 68; 85; 102]) = true.
Proof.
  apply (ab2mac_six_bytes [17; 34; 51; 68; 85; 102]); [reflexivity|].
  repeat constructor; unfold is_byte; lia.
Defined.

(** ** The shape of a valid address *)

Lemma valid_chars (mac : string) :
  isValidMacAddress mac = true ->
  exists sep, separator mac = Some sep /\ is_sep sep = true
              /\ Forall (fun c => Js.is_hex c = true \/ c = sep) (Js.chars mac).
Proof.
  unfold isValidMacAddress, separator.
  destruct (Js.chars mac) as [|a [|b [|sep [|c [|d rest]]]]]; try discriminate.
  intros H. repeat (apply andb_prop in H as [H ?]).
  exists sep. split; [done|]. split; [done|].
  repeat (constructor; [by auto|]).
  assert (Hp : forall n cs, sep_pairs n sep cs = true ->
                 Forall (fun c => Js.is_hex c = true \/ c = sep) cs).
  { induction n as [|n IH]; intros cs Hcs.
    - destruct cs; [constructor | discriminate].
    - destruct cs as [|s [|x [|y cs]]]; try discriminate. simpl in Hcs.
      repeat (apply andb_prop in Hcs as [Hcs ?]).
      apply Ascii.eqb_eq in Hcs as ->. repeat (constructor; [by auto|]). by apply IH. }
  by apply (Hp 4%nat).
Qed.

Lemma split_hex_pairs (n : nat) (a b : ascii) (cs : list ascii) :
  Js.is_hex a = true -> Js.is_hex b = true -> sep_pairs n ":" cs = true ->
  length (Js.split ":" (string_of_list_ascii (a :: b :: cs))) = S n
  /\ Forall (fun p => two_hex p = true)
       (Js.split ":" (string_of_list_ascii (a :: b :: cs))).
Proof.
  revert a b cs. induction n as [|n IH]; intros a b cs Ha Hb Hcs.
  - destruct cs; [|discriminate]. cbn [string_of_list_ascii Js.split].
    destruct (Ascii.eqb_spec a ":") as [->|_]; [discriminate|].
    destruct (Ascii.eqb_spec b ":") as [->|_]; [discriminate|].
    split; [done|]. repeat constructor. unfold two_hex. by rewrite Ha, Hb.
  - destruct cs as [|s [|x [|y cs]]]; try discriminate. cbn [sep_pairs] in Hcs.
    repeat (apply andb_prop in Hcs as [Hcs ?]).
    apply Ascii.eqb_eq in Hcs as ->.
    destruct (IH x y cs) as [Hlen Hall]; try done.
    change (string_of_list_ascii (a :: b :: ":"%char :: x :: y :: cs))
      with (String a (String b (String ":" (string_of_list_ascii (x :: y :: cs))))).
    cbn [Js.split].
    destruct (Ascii.eqb_spec a ":") as [->|_]; [discriminate|].
    destruct (Ascii.eqb_spec b ":") as [->|_]; [discriminate|].
    rewrite Ascii.eqb_refl. cbv beta iota.
    split; [cbn [length]; by rewrite Hlen|].
    constructor; [unfold two_hex; by rewrite Ha, Hb | done].
Qed.

(** A valid address written with colons splits into six octets of two
    hexadecimal digits. *)
Lemma valid_colon_split (mac : string) :
  isValidMacAddress mac = true -> separator mac = Some ":"%char ->
  length (Js.split ":" mac) = 6%nat
  /\ Forall (fun p => two_hex p = true) (Js.split ":" mac).
Proof.
  intros Hvalid Hsep. rewrite <- (string_of_list_ascii_of_string mac).
  unfold isValidMacAddress, separator, Js.chars in *.
  destruct (list_ascii_of_string mac) as [|a [|b [|sep [|c [|d rest]]]]]; try discriminate.
  injection Hsep as ->.
  repeat (apply andb_prop in Hvalid as [Hvalid ?]).
  apply (split_hex_pairs 5 a b (":"%char :: c :: d :: rest)); try done.
  cbn [sep_pairs]. rewrite Ascii.eqb_refl. simpl. by repeat (apply andb_true_intro; split).
Qed.

(** A valid address written with dashes has no colon at all. *)
Lemma valid_dash_split (mac : string) :
  isValidMacAddress mac = true -> separator mac = Some "-"%char ->
  Js.split ":" mac = [mac].
Proof.
  intros Hvalid Hsep. apply split_free.
  destruct (valid_chars mac Hvalid) as (sep & Hsep' & _ & Hall).
  rewrite Hsep in Hsep'. injection Hsep' as <-.
  eapply Forall_impl; [exact Hall|]. intros c [Hc| ->]; [|done].
  by apply is_hex_not_colon.
Qed.

Lemma is_hex_cases (c : ascii) : Js.is_hex c = true -> In c hex_chars.
Proof.
  destruct c as [[] [] [] [] [] [] [] []]; intros H; try discriminate H;
    vm_compute; tauto.
Qed.

(** Reading two hexadecimal digits and writing the byte back gives the
    digits in lowercase. *)
Lemma hex_pair_text (p : string) :
  two_hex p = true ->
  padStart2 (toString16 (Js.toUint8 (Js.parseInt16 p))) = Js.toLowerCase p.
Proof.
  intros (c & d & -> & Hc & Hd)%two_hex_inv.
  assert (H : forallb (fun cd : ascii * ascii =>
                String.eqb
                  (padStart2 (toString16 (Js.toUint8 (Js.parseInt16
                     (String (fst cd) (String (snd cd) EmptyString))))))
                  (Js.toLowerCase (String (fst cd) (String (snd cd) EmptyString))))
              (list_prod hex_chars hex_chars) = true) by (vm_compute; reflexivity).
  rewrite forallb_forall in H.
  apply String.eqb_eq, (H (c, d)), in_prod; by apply is_hex_cases.
Qed.

(** X3. Reading a valid colon-separated address into bytes and writing
    the bytes back normalizes it: the result is the address in lowercase,
    and doing it again changes nothing. *)
Theorem ab2mac_mac2ab_normalizes (mac : string) :
  isValidMacAddress mac = true -> separator mac = Some ":"%char ->
  ab2mac (mac2ab mac) = Js.toLowerCase mac
  /\ ab2mac (mac2ab (ab2mac (mac2ab mac))) = ab2mac (mac2ab mac)
  /\ length (mac2ab mac) = 6%nat.
Proof.
  intros Hvalid Hsep.
  destruct (valid_colon_split mac Hvalid Hsep) as [Hlen Hall].
  assert (Hnorm : ab2mac (mac2ab mac) = Js.toLowerCase mac).
  { unfold ab2mac, mac2ab. rewrite map_map.
    rewrite <- (join_split ":" mac) at 2. rewrite lower_join.
    f_equal. apply map_ext_Forall.
    eapply Forall_impl; [exact Hall|]. intros p Hp. by apply hex_pair_text. }
  split; [done|]. split; [|by rewrite mac2ab_length].
  rewrite Hnorm.
  assert (Hb : Forall is_byte (mac2ab mac)).
  { unfold mac2ab. apply Forall_map. apply Forall_forall. intros p _.
    unfold Js.toUint8. destruct (Js.parseInt16 p); unfold is_byte; [|lia].
    apply Z.mod_pos_bound. lia. }
  rewrite <- Hnorm at 1. rewrite mac2ab_ab2mac by done.
  pose proof (mac2ab_length mac) as Hl. rewrite Hlen in Hl.
  destruct (mac2ab mac) eqn:E; [discriminate Hl | exact Hnorm].
Qed.

Lemma ab2mac_mac2ab_normalizes_witness :
  ab2mac (mac2ab "AA:0b:Cc:1D:e2:FF") = "aa:0b:cc:1d:e2:ff".
Proof.
  apply (ab2mac_mac2ab_normalizes "AA:0b:Cc:1D:e2:FF"); reflexivity.
Defined.

(** ** Patterns without a wildcard *)

(** X4. Every address matches itself, and a pattern none of whose octets
    is the wildcard matches one address only, the pattern itself. *)
Theorem exact_pattern_matches_itself (mac pattern : string) :
  isMacAddressMatch mac mac = true
  /\ (Forall (fun p => p <> "xx") (Js.split ":" pattern) ->
      isMacAddressMatch mac pattern = true -> mac = pattern).
Proof.
  split.
  - apply isMacAddressMatch_spec. induction (Js.split ":" mac); constructor; [by right|done].
  - intros Hno Hm. apply isMacAddressMatch_spec in Hm.
    apply (split_inj ":"). symmetry.
    revert Hno Hm. generalize (Js.split ":" pattern) (Js.split ":" mac).
    induction l as [|p ps IH]; intros ms Hno Hm; inversion Hm; subst; [done|].
    inversion Hno; subst. f_equal; [|by apply IH].
    match goal with H : octet_agrees _ _ |- _ => destruct H as [?|?] end; done.
Qed.

Lemma exact_pattern_matches_itself_witness :
  "11:22:33:44:55:66" = "11:22:33:44:55:66".
Proof.
  apply (proj2 (exact_pattern_matches_itself "11:22:33:44:55:66" "11:22:33:44:55:66"));
    [repeat constructor; discriminate | reflexivity].
Defined.

(** ** Hexadecimal payloads *)

Lemma upper_app (s t : string) :
  toUpperCase (s ++ t) = (toUpperCase s ++ toUpperCase t)%string.
Proof.
  induction s as [|c s IH]; [done|].
  rewrite append_cons. cbn [toUpperCase]. by rewrite append_cons, IH.
Qed.

Lemma upper_join_empty (parts : list string) :
  toUpperCase (join "" parts) = join "" (map toUpperCase parts).
Proof.
  induction parts as [|p ps IH]; [done|].
  destruct ps as [|q ps]; [done|].
  rewrite join_cons by done. rewrite !upper_app, IH.
  change (map toUpperCase (p :: q :: ps)) with (toUpperCase p :: map toUpperCase (q :: ps)).
  by rewrite join_cons.
Qed.

(** The two uppercase digits that [ab2hex] writes for a byte. *)
Lemma hex_text (b : Z) :
  is_byte b ->
  two_hex (toUpperCase (slice_last2 ("0" ++ toString16 b))) = true
  /\ Js.toUint8 (Js.parseInt16 (toUpperCase (slice_last2 ("0" ++ toString16 b)))) = b.
Proof.
  intros Hb.
  pose proof (byte_cases
    (fun b => two_hex (toUpperCase (slice_last2 ("0" ++ toString16 b)))
              && (Js.toUint8 (Js.parseInt16
                    (toUpperCase (slice_last2 ("0" ++ toString16 b)))) =? b))%bool
    ltac:(vm_compute; reflexivity) b Hb) as H.
  apply andb_prop in H as [H1 H2]. split; [done | by apply Z.eqb_eq].
Qed.

Lemma join_empty_cons (p : string) (ps : list string) :
  join "" (p :: ps) = (p ++ join "" ps)%string.
Proof.
  destruct ps as [|q ps]; [|by rewrite join_cons].
  cbn [join]. induction p as [|c p IH]; [done|]. by rewrite append_cons, <- IH.
Qed.

Lemma all_hex_pairs (pairs : list string) :
  Forall (fun p => two_hex p = true) pairs -> Js.all_hex (join "" pairs) = true.
Proof.
  induction 1 as [|p ps Hp _ IH]; [done|]. rewrite join_empty_cons.
  apply two_hex_inv in Hp as (c & d & -> & Hc & Hd).
  rewrite !append_cons, append_nil. cbn [Js.all_hex]. by rewrite Hc, Hd, IH.
Qed.

Lemma chunks2_pairs (pairs : list string) (fuel : nat) :
  Forall (fun p => two_hex p = true) pairs -> (length pairs <= fuel)%nat ->
  Js.chunks2 fuel (join "" pairs) = pairs.
Proof.
  intros Hall. revert fuel. induction Hall as [|p ps Hp _ IH]; intros fuel Hfuel.
  - by destruct fuel.
  - rewrite join_empty_cons.
    apply two_hex_inv in Hp as (c & d & -> & _ & _).
    rewrite !append_cons, append_nil.
    destruct fuel as [|fuel]; [simpl in Hfuel; lia|].
    cbn [Js.chunks2]. rewrite IH; [done | simpl in Hfuel; lia].
Qed.

Lemma length_join_pairs (pairs : list string) :
  Forall (fun p => two_hex p = true) pairs ->
  String.length (join "" pairs) = (2 * length pairs)%nat.
Proof.
  induction 1 as [|p ps Hp _ IH]; [done|]. rewrite join_empty_cons.
  apply two_hex_inv in Hp as (c & d & -> & _ & _).
  rewrite !append_cons, append_nil. cbn [String.length length]. rewrite IH. lia.
Qed.

(** X5. A buffer written by [ab2hex] without spaces and given to a write
    call as a string is sent as the same bytes: [data2ab] undoes [ab2hex],
    also for the empty buffer. *)
Theorem data2ab_ab2hex (buffer : list Z) :
  Forall is_byte buffer -> data2ab (DString (ab2hex buffer false)) = buffer.
Proof.
  intros Hb. unfold ab2hex. rewrite upper_join_empty, map_map.
  set (pairs := map (fun b => toUpperCase (slice_last2 ("0" ++ toString16 b))) buffer).
  assert (Hpairs : Forall (fun p => two_hex p = true) pairs).
  { apply Forall_map. eapply Forall_impl; [exact Hb|]. intros b H. by apply hex_text. }
  destruct buffer as [|b0 buffer0]; [reflexivity|].
  unfold data2ab.
  assert (Hhex : Js.hex_only (join "" pairs) = true).
  { unfold Js.hex_only. rewrite (all_hex_pairs _ Hpairs).
    subst pairs. cbn [map]. rewrite join_empty_cons.
    destruct (two_hex_inv _ (proj1 (hex_text b0 ltac:(by inversion Hb))))
      as (c & d & -> & _). by rewrite append_cons. }
  rewrite Hhex, chunks2_pairs; [|done|rewrite length_join_pairs by done; lia].
  subst pairs. rewrite map_map.
  rewrite <- (map_id (b0 :: buffer0)) at 2. apply map_ext_Forall.
  eapply Forall_impl; [exact Hb|]. intros b H. by apply hex_text.
Qed.

Lemma data2ab_ab2hex_witness :
  data2ab (DString (ab2hex [10; 20; 30; 255] false)) = [10; 20; 30; 255].
Proof.
  apply (data2ab_ab2hex [10; 20; 30; 255]).
  repeat constructor; unfold is_byte; lia.
Defined.

Lemma length_chunks2 (s : string) (fuel : nat) :
  (String.length s <= fuel)%nat ->
  length (Js.chunks2 fuel s) = ((String.length s + 1) / 2)%nat.
Proof.
  revert s. induction fuel as [|fuel IH]; intros s Hfuel.
  - destruct s; [done | simpl in Hfuel; lia].
  - destruct s as [|a [|b s]]; [done|done|].
    cbn [Js.chunks2 length String.length]. rewrite IH by (simpl in Hfuel; lia).
    cbn [String.length].
    replace (S (S (String.length s)) + 1)%nat with (String.length s + 1 + 1 * 2)%nat by lia.
    rewrite Nat.div_add by lia. lia.
Qed.

(** What [data2ab] makes of a string of hexadecimal digits. *)
Lemma hex_data_not_text (s : string) :
  Js.hex_only s = true ->
  length (data2ab (DString s)) = ((String.length s + 1) / 2)%nat
  /\ data2ab (DString s) <> str2ab s.
Proof.
  intros Hhex. unfold data2ab. rewrite Hhex.
  assert (Hlen : length (map (fun h => Js.toUint8 (Js.parseInt16 h))
                           (Js.chunks2 (String.length s) s))
                 = ((String.length s + 1) / 2)%nat)
    by (by rewrite length_map, length_chunks2).
  split; [done|]. intros Heq.
  assert (Hlen' : length (str2ab s) = String.length s).
  { unfold str2ab, Js.chars. rewrite length_map. clear. induction s; simpl; auto. }
  rewrite Heq, Hlen' in Hlen.
  destruct s as [|c [|d s]]; [discriminate Hhex| |].
  - unfold Js.hex_only in Hhex. cbn [Js.all_hex] in Hhex.
    apply andb_prop in Hhex as [Hc _]. apply is_hex_cases in Hc.
    revert Heq. clear -Hc.
    repeat (destruct Hc as [<-|Hc]; [vm_compute; discriminate|]). destruct Hc.
  - cbn [String.length] in Hlen.
    assert ((S (S (String.length s)) + 1) / 2 < S (S (String.length s)))%nat
      by (apply Nat.Div0.div_lt_upper_bound; lia).
    lia.
Qed.

(** X6. A string made of hexadecimal digits only is never sent as text:
    [data2ab] packs two digits per byte, so it yields half as many bytes
    (rounded up) as the string has characters, and these differ from the
    character codes; any other string is sent as its character codes. *)
Theorem data2ab_hex_or_text (s : string) :
  (Js.hex_only s = true ->
   length (data2ab (DString s)) = ((String.length s + 1) / 2)%nat
   /\ data2ab (DString s) <> str2ab s)
  /\ (Js.hex_only s = false -> data2ab (DString s) = str2ab s).
Proof.
  split; [apply hex_data_not_text | unfold data2ab; by intros ->].
Qed.

Lemma data2ab_hex_or_text_witness :
  length (data2ab (DString "cafe")) = 2%nat /\ data2ab (DString "cafe") <> str2ab "cafe".
Proof.
  apply (proj1 (data2ab_hex_or_text "cafe")). reflexivity.
Defined.

(** ** [ab2num] *)

Lemma toInt32_spec (z : Z) : exists k, toInt32 z = z + k * 2 ^ 32.
Proof.
  exists (- ((z + 2 ^ 31) / 2 ^ 32)). unfold toInt32.
  pose proof (Z.div_mod (z + 2 ^ 31) (2 ^ 32) ltac:(lia)). lia.
Qed.

Lemma toInt32_shift (z k : Z) : toInt32 (z + k * 2 ^ 32) = toInt32 z.
Proof.
  unfold toInt32. replace (z + k * 2 ^ 32 + 2 ^ 31) with (z + 2 ^ 31 + k * 2 ^ 32) by lia.
  by rewrite Z_mod_plus_full.
Qed.

Lemma toInt32_id (z : Z) : - 2 ^ 31 <= z < 2 ^ 31 -> toInt32 z = z.
Proof. intros H. unfold toInt32. rewrite Z.mod_small; lia. Qed.

Lemma lor_low_byte (m b : Z) : is_byte b -> Z.lor (m * 2 ^ 8) b = m * 2 ^ 8 + b.
Proof.
  intros [Hlo Hhi].
  assert (Hland : Z.land (m * 2 ^ 8) b = 0).
  { apply Z.bits_inj'. intros n Hn. rewrite Z.land_spec, Z.bits_0.
    destruct (Z.lt_ge_cases n 8) as [Hlt|Hge].
    - by rewrite Z.mul_pow2_bits_low.
    - destruct (Z.eq_dec b 0) as [->|Hb0]; [by rewrite Z.bits_0, andb_false_r|].
      rewrite (Z.bits_above_log2 b n); [apply andb_false_r | lia |].
      assert (Z.log2 b < 8) by (apply Z.log2_lt_pow2; lia). lia. }
  by rewrite <- Z.lxor_lor, <- Z.add_nocarry_lxor.
Qed.

(** One turn of the loop of [ab2num]. *)
Lemma ab2num_step (num b : Z) :
  is_byte b ->
  toInt32 (Z.lor (toInt32 (Z.shiftl (toInt32 num) 8)) b) = toInt32 (num * 256 + b).
Proof.
  intros Hb. rewrite Z.shiftl_mul_pow2 by lia.
  destruct (toInt32_spec num) as [k0 ->].
  destruct (toInt32_spec ((num + k0 * 2 ^ 32) * 2 ^ 8)) as [k1 ->].
  replace ((num + k0 * 2 ^ 32) * 2 ^ 8 + k1 * 2 ^ 32)
    with ((num + k0 * 2 ^ 32 + k1 * 2 ^ 24) * 2 ^ 8) by lia.
  rewrite lor_low_byte by done.
  replace ((num + k0 * 2 ^ 32 + k1 * 2 ^ 24) * 2 ^ 8 + b)
    with (num * 256 + b + (k0 * 2 ^ 8 + k1) * 2 ^ 32) by lia.
  apply toInt32_shift.
Qed.

Lemma ab2num_fold (buffer : list Z) (acc acc' : Z) :
  Forall is_byte buffer -> toInt32 acc = toInt32 acc' ->
  toInt32 (fold_left (fun num byte =>
                        toInt32 (Z.lor (toInt32 (Z.shiftl (toInt32 num) 8)) byte))
             buffer acc)
  = toInt32 (fold_left (fun num byte => num * 256 + byte) buffer acc').
Proof.
  intros Hb. revert acc acc'. induction Hb as [|b bs Hbyte _ IH]; intros acc acc' Hacc.
  - done.
  - cbn [fold_left]. apply IH. rewrite ab2num_step by done.
    destruct (toInt32_spec acc) as [k Hk]. destruct (toInt32_spec acc') as [k' Hk'].
    replace (acc * 256 + b) with (acc' * 256 + b + (k' - k) * 2 ^ 8 * 2 ^ 32) by lia.
    rewrite toInt32_shift. by rewrite toInt32_id by (destruct Hbyte;
      pose proof (Z.mod_pos_bound (acc' * 256 + b + 2 ^ 31) (2 ^ 32) ltac:(lia));
      unfold toInt32; lia).
Qed.

Lemma big_endian_bound (buffer : list Z) (acc : Z) :
  Forall is_byte buffer -> 0 <= acc ->
  0 <= fold_left (fun num byte => num * 256 + byte) buffer acc
    < (acc + 1) * 256 ^ Z.of_nat (length buffer).
Proof.
  intros Hb. revert acc. induction Hb as [|b bs [Hlo Hhi] _ IH]; intros acc Hacc.
  - simpl. lia.
  - cbn [fold_left length]. specialize (IH (acc * 256 + b) ltac:(lia)).
    rewrite Nat2Z.inj_succ, Z.pow_succ_r by lia. nia.
Qed.

Lemma toInt32_range (z : Z) : - 2 ^ 31 <= toInt32 z < 2 ^ 31.
Proof.
  unfold toInt32. pose proof (Z.mod_pos_bound (z + 2 ^ 31) (2 ^ 32) ltac:(lia)). lia.
Qed.

Lemma ab2num_int32 (buffer : list Z) : toInt32 (ab2num buffer) = ab2num buffer.
Proof.
  unfold ab2num. destruct buffer as [|b bs] using rev_ind; [done|].
  rewrite fold_left_app. cbn [fold_left]. apply toInt32_id, toInt32_range.
Qed.

(** X7. [ab2num] is the big-endian value of the buffer reduced to a
    signed 32-bit integer; it is the exact value for buffers of up to
    three bytes, and from four bytes on it can turn negative or lose the
    leading bytes. *)
Theorem ab2num_big_endian (buffer : list Z) :
  Forall is_byte buffer ->
  ab2num buffer = toInt32 (big_endian buffer)
  /\ ((length buffer <= 3)%nat -> ab2num buffer = big_endian buffer)
  /\ ab2num [255; 255; 255; 255] = -1
  /\ ab2num [1; 0; 0; 0; 0] = 0.
Proof.
  intros Hb.
  assert (H : ab2num buffer = toInt32 (big_endian buffer)).
  { rewrite <- ab2num_int32. unfold ab2num, big_endian. by apply ab2num_fold. }
  split; [done|]. split; [|by split].
  intros Hlen. rewrite H. apply toInt32_id.
  pose proof (big_endian_bound buffer 0 Hb ltac:(lia)) as Hbound.
  fold (big_endian buffer) in Hbound.
  assert (256 ^ Z.of_nat (length buffer) <= 256 ^ 3) by (apply Z.pow_le_mono_r; lia).
  lia.
Qed.

Lemma ab2num_big_endian_witness : ab2num [1; 2; 3] = 66051.
Proof.
  apply (proj1 (proj2 (ab2num_big_endian [1; 2; 3]
           ltac:(repeat constructor; unfold is_byte; lia)))).
  simpl. lia.
Defined.

(** ** The registry *)

Lemma dev_get_set_eq (key : string) (d : device) (ds : list (string * device)) :
  dev_get key (dev_set key d ds) = Some d.
Proof.
  induction ds as [|[k d'] ds IH]; simpl.
  - by rewrite String.eqb_refl.
  - destruct (String.eqb k key) eqn:E; simpl; by rewrite E.
Qed.

Lemma dev_get_set_ne (key key' : string) (d : device) (ds : list (string * device)) :
  key <> key' -> dev_get key' (dev_set key d ds) = dev_get key' ds.
Proof.
  intros Hne. induction ds as [|[k d'] ds IH]; simpl.
  - destruct (String.eqb_spec key key'); [done | reflexivity].
  - destruct (String.eqb_spec k key) as [->|Hk]; simpl.
    + destruct (String.eqb_spec key key'); [done | reflexivity].
    + by rewrite IH.
Qed.

(** ** [connect] and the connection result *)

(** The checks of [connect] once the address is resolved. *)
Ltac connect_tail w H :=
  lazymatch type of H with
  | context [isValidMacAddress ?addr] =>
      destruct (isConnected (ble w)) eqn:?; [right; left; exact H|];
      destruct (isValidMacAddress addr) eqn:?; cbn [negb] in H;
        [|right; right; left; eexists; exact H];
      destruct (connection_in_progress (ble w)) eqn:?;
        [right; right; left; eexists; exact H|];
      destruct (match dev_get addr (devices (ble w)) with
                | Some d => is_connected d
                | None => false
                end); [right; left; exact H|];
      unfold bind, resolve in H;
      repeat (destruct (existsb _ (global_names (host w)));
              [|right; right; right; right; eexists; exact H]);
      left; exists addr; repeat split; (exact H || assumption)
  end.

(** X8. Whatever the address and the state, [connect] ends in one of five
    ways: it issues the one transport call and sets the in-progress flag
    (only for an address that passes the format check, with no connection
    in progress and no connected device tracked); it answers "connected"
    without a call; it answers a failure status and returns false; it
    returns false for an empty address; or it throws on an unbound
    identifier. In the last four the state is untouched, and the callback
    is never invoked more than once. *)
Theorem connect_outcomes (dev_addr : string) (w : world) :
  (exists addr,
      connect dev_addr w =
      (Normal true, log (Call (mstConnect (mac2ab addr)))
                      (set_ble (with_connection_in_progress true (ble w)) w))
      /\ isValidMacAddress addr = true
      /\ connection_in_progress (ble w) = false
      /\ isConnected (ble w) = false)
  \/ connect dev_addr w = (Normal true, log (ConnectResponse true "connected") w)
  \/ (exists status,
        connect dev_addr w = (Normal false, log (ConnectResponse false status) w))
  \/ (dev_addr = EmptyString /\ connect dev_addr w = (Normal false, w))
  \/ (exists x, connect dev_addr w = (Abrupt (ReferenceError x), w)).
Proof.
  destruct dev_addr as [|c0 s0]; [right; right; right; left; split; reflexivity|].
  assert (Ht : Js.truthy (String c0 s0) = true) by reflexivity.
  generalize dependent (String c0 s0). intros dev_addr Ht.
  remember (connect dev_addr w) as r eqn:Hr.
  unfold connect in Hr. rewrite Ht in Hr. cbn [negb] in Hr.
  unfold bind at 1, read at 1 in Hr.
  destruct (Js.includes (Js.toLowerCase dev_addr) "xx"); [|connect_tail w Hr].
  destruct (findMatchingMacAddress (devices (ble w)) (Js.toLowerCase dev_addr)) as [m|];
    [destruct (Js.truthy m)|];
    first [connect_tail w Hr | right; right; left; eexists; exact Hr].
Qed.

(** X9. While a connection attempt is pending and no connected device is
    tracked, every further [connect] returns false without a transport
    call: it answers a failure status, or nothing for an empty address. *)
Theorem connect_refused_while_pending (dev_addr : string) (w : world) :
  connection_in_progress (ble w) = true -> isConnected (ble w) = false ->
  connect dev_addr w = (Normal false, w)
  \/ exists status,
       connect dev_addr w = (Normal false, log (ConnectResponse false status) w).
Proof.
  intros Hprog Hconn. unfold connect. destruct (Js.truthy dev_addr); [|by left].
  right. cbn [negb]. unfold bind at 1, read at 1. rewrite Hconn, Hprog.
  destruct (Js.includes (Js.toLowerCase dev_addr) "xx");
    [destruct (findMatchingMacAddress (devices (ble w)) (Js.toLowerCase dev_addr)) as [m|];
     [destruct (Js.truthy m)|]|];
    try (eexists; reflexivity);
    match goal with
    | |- context [isValidMacAddress ?a] => destruct (isValidMacAddress a); simpl; eauto
    end.
Qed.

Lemma connect_refused_while_pending_witness :
  let w := exec (connect "AA:BB:CC:DD:EE:FF") (fresh_world free_identifiers) in
  connect "11:22:33:44:55:66" w = (Normal false, w)
  \/ exists status,
       connect "11:22:33:44:55:66" w
       = (Normal false, log (ConnectResponse false status) w).
Proof.
  apply (connect_refused_while_pending "11:22:33:44:55:66"
           (exec (connect "AA:BB:CC:DD:EE:FF") (fresh_world free_identifiers)));
    reflexivity.
Defined.

Lemma dev_set_set (key : string) (d1 d2 : device) (ds : list (string * device)) :
  dev_set key d2 (dev_set key d1 ds) = dev_set key d2 ds.
Proof.
  induction ds as [|[k d] ds IH]; cbn.
  - by rewrite String.eqb_refl.
  - destruct (String.eqb k key) eqn:E; cbn; rewrite E; [done | by rewrite IH].
Qed.

(** The state after the transport reported a success for [key]. *)
Lemma connect_result_success (key : string) (result : connect_result) (w : world) :
  r_connected result = 0 ->
  exists d,
    on_connect_result key result w =
    (Normal tt,
     set_ble (with_connection_in_progress false
                (with_last_connected_mac (Some key)
                   (with_devices (dev_set key d (devices (ble w))) (ble w))))
       (log (ConnectResponse true "connected") w))
    /\ connect_id d = r_connect_id result /\ is_connected d = true
    /\ profile_pid d = dev_get key (devices (ble w)) ≫= profile_pid.
Proof.
  intros H0. unfold on_connect_result. rewrite H0. cbn [Z.eqb].
  unfold bind, read, when, handleSuccessfulConnection, update_ble, update, emit, ret.
  destruct (dev_get key (devices (ble w))) as [d0|] eqn:Hget; cbn.
  - rewrite Hget.
    exists (mkDevice (dev_name d0) (r_connect_id result) true (profile_pid d0)).
    by repeat split.
  - rewrite dev_get_set_eq. cbn. rewrite dev_set_set.
    exists (mkDevice (Some "default") (r_connect_id result) true None).
    by repeat split.
Qed.

(** X10. When the transport reports a success with a numeric connection
    id for a valid colon-separated address, whatever address the transport
    itself reports, the caller's address becomes the tracked, connected
    device, the in-progress flag is cleared, and [generateProfileObject]
    compiles every services map for it. *)
Theorem connected_device_is_ready
    (key : string) (result : connect_result) (id : Z) (w : world)
    (services : services_map) (permissions : gmap string Z) :
  isValidMacAddress key = true -> separator key = Some ":"%char ->
  r_connected result = 0 -> r_connect_id result = Some id ->
  let w' := exec (on_connect_result key result) w in
  isConnected (ble w') = true
  /\ connectionID (ble w') = Some id
  /\ connection_in_progress (ble w') = false
  /\ exists name,
       generateProfileObject (ble w') services permissions =
       GenProfile
         (mkProfile true id name (mac2ab key) 1
            [mkServiceList true (len_of services) (len_of services)
               (map (make_service permissions) services)]).
Proof.
  intros Hvalid Hsep H0 Hid w'.
  destruct (connect_result_success key result w H0) as (d & Heq & Hcid & Hconn & _).
  subst w'. unfold exec. rewrite Heq. cbn [snd].
  assert (Hready : ready (ble (set_ble
                     (with_connection_in_progress false
                        (with_last_connected_mac (Some key)
                           (with_devices (dev_set key d (devices (ble w))) (ble w))))
                     (log (ConnectResponse true "connected") w))) key d id).
  { unfold ready. cbn. rewrite dev_get_set_eq.
    repeat split; try done; [congruence | by apply valid_colon_split]. }
  pose proof (valid_truthy _ Hvalid) as Ht.
  split; [|split; [|split]].
  - unfold isConnected, getCurrentlyConnectedDevice. cbn.
    by rewrite Ht, dev_get_set_eq.
  - unfold connectionID, getCurrentlyConnectedDevice. cbn.
    rewrite Ht, dev_get_set_eq, Hconn. congruence.
  - reflexivity.
  - exists (profile_name d). by apply generate_ready.
Qed.

Lemma connected_device_is_ready_witness :
  isConnected
    (ble (exec (on_connect_result "aa:bb:cc:dd:ee:ff" (mkResult [1; 2; 3] 0 (Some 4)))
            (fresh_world []))) = true.
Proof.
  apply (connected_device_is_ready "aa:bb:cc:dd:ee:ff" (mkResult [1; 2; 3] 0 (Some 4)) 4
           (fresh_world []) [] ∅); reflexivity.
Defined.

(** X11. A dash-separated address passes the format check of [connect],
    but once connected it can never get a profile: for every services map
    [generateProfileObject] answers the invalid-address error. *)
Theorem dash_address_never_ready
    (key : string) (result : connect_result) (id : Z) (w : world)
    (services : services_map) (permissions : gmap string Z) :
  isValidMacAddress key = true -> separator key = Some "-"%char ->
  r_connected result = 0 -> r_connect_id result = Some id ->
  let w' := exec (on_connect_result key result) w in
  isConnected (ble w') = true
  /\ generateProfileObject (ble w') services permissions =
     GenError (ERR_INVALID_MAC_ADDR ++ ": " ++ key).
Proof.
  intros Hvalid Hsep H0 Hid w'.
  destruct (connect_result_success key result w H0) as (d & Heq & Hcid & Hconn & _).
  subst w'. unfold exec. rewrite Heq. cbn [snd].
  pose proof (valid_truthy _ Hvalid) as Ht.
  unfold isConnected, getCurrentlyConnectedDevice, generateProfileObject. cbn.
  rewrite Ht, dev_get_set_eq, Hconn. cbn. rewrite Hcid, Hid.
  unfold len_of. rewrite mac2ab_length, (valid_dash_split _ Hvalid Hsep). done.
Qed.

Lemma dash_address_never_ready_witness :
  generateProfileObject
    (ble (exec (on_connect_result "aa-bb-cc-dd-ee-ff" (mkResult [] 0 (Some 4)))
            (fresh_world [])))
    [("180F", [("2A19", ["2902"])])] ∅
  = GenError (ERR_INVALID_MAC_ADDR ++ ": " ++ "aa-bb-cc-dd-ee-ff").
Proof.
  apply (dash_address_never_ready "aa-bb-cc-dd-ee-ff" (mkResult [] 0 (Some 4)) 4
           (fresh_world []) [("180F", [("2A19", ["2902"])])] ∅); reflexivity.
Defined.

(** ** [disconnect], [quit] and what they leave behind *)

(** X12. After a successful [disconnect()] the registry entry is still
    marked connected while no device is tracked any more. A later
    [connect] to the same address (no attempt pending) therefore answers
    "connected" and returns true without any transport call, and leaves the
    library without a current device or profile handle. *)
Theorem reconnect_after_disconnect (dev_addr mac : string) (d : device) (w : world) :
  last_connected_mac (ble w) = Some mac ->
  dev_get mac (devices (ble w)) = Some d ->
  is_connected d = true ->
  connection_in_progress (ble w) = false ->
  isValidMacAddress mac = true ->
  Js.truthy dev_addr = true -> Js.toLowerCase dev_addr = mac ->
  let w1 := exec (disconnect true) w in
  disconnect true w = (Normal true, w1)
  /\ trace (host w1) = (trace (host w) ++ [Call (mstDisconnect (connect_id d))])%list
  /\ connect dev_addr w1 = (Normal true, log (ConnectResponse true "connected") w1)
  /\ getCurrentlyConnectedDevice (ble (exec (connect dev_addr) w1)) = None
  /\ current_pid (exec (connect dev_addr) w1) = None.
Proof.
  intros Hmac Hget Hconn Hprog Hvalid Ht Hlow w1.
  pose proof (valid_truthy _ Hvalid) as Htm.
  assert (Hw1 : disconnect true w =
                (Normal true,
                 set_ble (with_last_connected_mac None (ble w))
                   (log (Call (mstDisconnect (connect_id d))) w))).
  { unfold disconnect, bind, read. rewrite Hmac, Htm, Hget, Hconn. reflexivity. }
  assert (He : exec (disconnect true) w =
               set_ble (with_last_connected_mac None (ble w))
                 (log (Call (mstDisconnect (connect_id d))) w))
    by (unfold exec; rewrite Hw1; reflexivity).
  subst w1. rewrite He. clear He.
  set (w1 := set_ble _ _) in *.
  assert (Hc : connect dev_addr w1 = (Normal true, log (ConnectResponse true "connected") w1)).
  { unfold connect. rewrite Ht. cbn [negb]. unfold bind at 1, read at 1.
    rewrite Hlow, (not_x_includes _ (valid_not_x _ Hvalid)), Hvalid.
    subst w1. cbn. rewrite Hget, Hconn, Hprog. reflexivity. }
  split; [exact Hw1|]. split; [reflexivity|]. split; [exact Hc|].
  unfold exec. rewrite Hc. cbn [snd]. subst w1. split; reflexivity.
Qed.

Lemma reconnect_after_disconnect_witness :
  let w := sample_world in
  let w1 := exec (disconnect true) w in
  disconnect true w = (Normal true, w1)
  /\ trace (host w1) = (trace (host w) ++ [Call (mstDisconnect (Some 1))])%list
  /\ connect "AA:BB:CC:DD:EE:FF" w1
     = (Normal true, log (ConnectResponse true "connected") w1)
  /\ getCurrentlyConnectedDevice (ble (exec (connect "AA:BB:CC:DD:EE:FF") w1)) = None
  /\ current_pid (exec (connect "AA:BB:CC:DD:EE:FF") w1) = None.
Proof.
  exact (reconnect_after_disconnect "AA:BB:CC:DD:EE:FF" "aa:bb:cc:dd:ee:ff"
           sample_device sample_world eq_refl eq_refl eq_refl eq_refl eq_refl
           eq_refl eq_refl).
Defined.

(** ** The profile compiler *)

Lemma make_characteristic_counted (permissions : gmap string Z)
    (entry : string * list string) :
  chara_counted (make_characteristic permissions entry).
Proof.
  destruct entry as [u ds]. unfold chara_counted, make_characteristic, len_of.
  cbn [c_desc c_len c_list]. split; [reflexivity|].
  destruct ds as [|x ds].
  - cbn. split; [reflexivity|]. split; reflexivity.
  - replace (0 <? Z.of_nat (length (x :: ds))) with true
      by (symmetry; apply Z.ltb_lt; cbn [length]; lia).
    unfold default, id. rewrite length_map. split; [reflexivity|].
    split; [discriminate|]. cbn [length]. lia.
Qed.

Lemma make_service_counted (permissions : gmap string Z)
    (entry : string * list (string * list string)) :
  service_counted (make_service permissions entry).
Proof.
  destruct entry as [u cs]. unfold service_counted, make_service, len_of.
  cbn [s_len1 s_len2 s_list]. rewrite length_map.
  split; [reflexivity|]. split; [reflexivity|].
  apply Forall_map, Forall_forall. intros. apply make_characteristic_counted.
Qed.

(** X13. Whatever services map is given, a profile object that
    [generateProfileObject] returns is well counted: its root list has exactly
    one entry and [len] is 1, and at every level the two count fields agree
    with each other and with the length of the list below them (a
    characteristic without descriptors has no list at all); the services
    appear in the order of the map, and the device address has six bytes. *)
Theorem profile_is_well_counted (b : BLEMaster) (services : services_map)
    (permissions : gmap string Z) (p : profile_object) :
  generateProfileObject b services permissions = GenProfile p ->
  p_len p = 1
  /\ length (p_dev p) = 6%nat
  /\ exists sl, p_list p = [sl]
       /\ list_counted sl
       /\ map s_uuid (sl_list sl) = map fst services
       /\ Forall (fun s => s_permission s = 0) (sl_list sl).
Proof.
  unfold generateProfileObject. intros H.
  destruct (last_connected_mac b) as [mac|]; [|discriminate].
  destruct (negb (Js.truthy mac)); [discriminate|].
  destruct (dev_get mac (devices b)) as [d|]; [|discriminate].
  destruct (negb (is_connected d)); [discriminate|].
  destruct (connect_id d) as [id|]; [|discriminate].
  destruct (len_of (mac2ab mac) =? 6) eqn:Hlen; cbn [negb] in H; [|discriminate].
  injection H as <-. cbn [p_len p_dev p_list].
  split; [reflexivity|]. split.
  { apply Z.eqb_eq in Hlen. unfold len_of in Hlen. lia. }
  eexists. split; [reflexivity|].
  unfold list_counted. cbn [sl_size sl_len sl_list].
  split; [|split].
  - split; [reflexivity|]. unfold len_of. rewrite length_map. split; [reflexivity|].
    apply Forall_map, Forall_forall. intros. apply make_service_counted.
  - rewrite map_map. apply map_ext. by intros [u cs].
  - apply Forall_map, Forall_forall. by intros [u cs] _.
Qed.

Lemma profile_is_well_counted_witness :
  exists p,
    generateProfileObject sample_master
      [("1812", [("2a4d", ["2902"]); ("2a4e", [])]); ("180f", [])] ∅ = GenProfile p
    /\ p_len p = 1
    /\ length (p_dev p) = 6%nat
    /\ exists sl, p_list p = [sl]
         /\ list_counted sl
         /\ map s_uuid (sl_list sl) = ["1812"; "180f"]
         /\ Forall (fun s => s_permission s = 0) (sl_list sl).
Proof.
  eexists. split; [reflexivity|].
  exact (profile_is_well_counted sample_master
           [("1812", [("2a4d", ["2902"]); ("2a4e", [])]); ("180f", [])] ∅ _ eq_refl).
Defined.

(** The state that [quit] builds from a tracked, connected device. *)
Lemma quit_tracked (mac : string) (d : device) (w : world) :
  last_connected_mac (ble w) = Some mac -> Js.truthy mac = true ->
  dev_get mac (devices (ble w)) = Some d -> is_connected d = true ->
  trace (host (exec quit w))
  = (trace (host w) ++ map Call (teardown_calls d (is_scanning (ble w))))%list
  /\ dev_get mac (devices (ble (exec quit w)))
     = Some (mkDevice (dev_name d) (connect_id d) false (profile_pid d))
  /\ last_connected_mac (ble (exec quit w)) = None
  /\ is_scanning (ble (exec quit w)) = false
  /\ qm (exec quit w) = qm w /\ flags (exec quit w) = flags w
  /\ timer (host (exec quit w)) = timer (host w).
Proof.
  intros Hmac Ht Hget Hconn. unfold exec, teardown_calls.
  unfold quit, deregisterAll, disconnectDevice, stopScan, bind, read,
    update_ble, update, emit, ret.
  cbv beta. rewrite Hmac, Ht. cbn [negb]. rewrite Hget, Hconn.
  destruct (profile_pid d) as [pid|]; destruct (on_off (ble w)); cbn;
    destruct (is_scanning (ble w)) eqn:Hs; cbn; rewrite ?Hs; cbn;
    rewrite ?dev_get_set_eq, <- ?app_assoc; repeat split; try done.
Qed.

(** X14. [quit] with a tracked, connected device makes its transport calls
    in a fixed order: all listeners off, the profile instance destroyed
    when the device has one, the link closed, and the scan stopped when one
    was running. The registry entry stays, marked disconnected and with its
    profile handle; no device is tracked and no scan runs afterwards; the
    operation queue, the completion flags and a pending completion poll are
    left as they were. *)
Theorem quit_tears_down (mac : string) (d : device) (w : world) :
  last_connected_mac (ble w) = Some mac -> Js.truthy mac = true ->
  dev_get mac (devices (ble w)) = Some d -> is_connected d = true ->
  let w' := exec quit w in
  trace (host w') = (trace (host w) ++ map Call (teardown_calls d (is_scanning (ble w))))%list
  /\ dev_get mac (devices (ble w'))
     = Some (mkDevice (dev_name d) (connect_id d) false (profile_pid d))
  /\ last_connected_mac (ble w') = None
  /\ is_scanning (ble w') = false
  /\ qm w' = qm w /\ flags w' = flags w /\ timer (host w') = timer (host w).
Proof. intros. by apply quit_tracked. Qed.

Lemma quit_tears_down_witness :
  let w' := exec quit sample_world in
  trace (host w')
  = [Call mstOffAllCb; Call (mstDestroyProfileInstance 7); Call (mstDisconnect (Some 1))]
  /\ dev_get "aa:bb:cc:dd:ee:ff" (devices (ble w'))
     = Some (mkDevice (Some "sensor") (Some 1) false (Some 7))
  /\ last_connected_mac (ble w') = None
  /\ is_scanning (ble w') = false
  /\ qm w' = qm sample_world /\ flags w' = flags sample_world
  /\ timer (host w') = timer (host sample_world).
Proof.
  exact (quit_tears_down "aa:bb:cc:dd:ee:ff" sample_device sample_world
           eq_refl eq_refl eq_refl eq_refl).
Defined.

(** X15. The profile handle that [quit] destroys stays in the registry
    entry, and a later successful connection to the same address keeps it:
    after [quit] no handle is current, but once [#initiateConnection] has
    run and the transport reports the new connection, the destroyed handle
    is current again, with no prepare in between, and the next operation is
    issued on it. *)
Theorem destroyed_profile_survives_reconnect (mac : string) (d : device) (pid : Z)
    (result : connect_result) (op : operation) (w : world) :
  last_connected_mac (ble w) = Some mac -> Js.truthy mac = true ->
  dev_get mac (devices (ble w)) = Some d -> is_connected d = true ->
  profile_pid d = Some pid ->
  r_connected result = 0 ->
  let w1 := exec quit w in
  let w2 := exec (on_connect_result mac result) (exec (initiateConnection mac) w1) in
  In (Call (mstDestroyProfileInstance pid)) (trace (host w1))
  /\ current_pid w1 = None
  /\ trace (host w2)
     = (trace (host w1)
        ++ [Call (mstConnect (mac2ab mac)); ConnectResponse true "connected"])%list
  /\ current_pid w2 = Some pid
  /\ execute op w2 =
     match check_of op (now (host w2)) with
     | None => (log (Continuation None) (log (Call (transport_call pid op)) w2), true)
     | Some cb => run_check cb (log (Call (transport_call pid op)) w2)
     end.
Proof.
  intros Hmac Ht Hget Hconn Hpid H0 w1 w2.
  destruct (quit_tracked mac d w Hmac Ht Hget Hconn)
    as (Htr & Hget1 & Hmac1 & _).
  fold w1 in Htr, Hget1, Hmac1.
  set (wi := exec (initiateConnection mac) w1) in *.
  assert (Hgeti : dev_get mac (devices (ble wi)) = dev_get mac (devices (ble w1)))
    by reflexivity.
  assert (Htri : trace (host wi) = (trace (host w1) ++ [Call (mstConnect (mac2ab mac))])%list)
    by reflexivity.
  assert (Hw2 : w2 = snd (on_connect_result mac result wi)) by reflexivity.
  clearbody w2 wi.
  destruct (connect_result_success mac result wi H0) as (d2 & Hr & _ & _ & Hp2).
  rewrite Hr in Hw2. cbn [snd] in Hw2.
  rewrite Hgeti, Hget1 in Hp2. cbn in Hp2.
  assert (Hcur : current_pid w2 = Some pid).
  { rewrite Hw2. unfold current_pid, getCurrentlyConnectedDevice. cbn.
    rewrite Ht, dev_get_set_eq. congruence. }
  split.
  { rewrite Htr. apply in_or_app. right. unfold teardown_calls. rewrite Hpid.
    cbn. right. by left. }
  split.
  { unfold current_pid, getCurrentlyConnectedDevice. by rewrite Hmac1. }
  split.
  { rewrite Hw2. cbn. rewrite Htri, <- app_assoc. reflexivity. }
  split; [exact Hcur|].
  by apply execute_prepared.
Qed.

Lemma destroyed_profile_survives_reconnect_witness :
  let mac := "aa:bb:cc:dd:ee:ff" in
  let result := mkResult [170; 187; 204; 221; 238; 255] 0 (Some 2) in
  let op := ReadOperation "2a19" false in
  let w1 := exec quit sample_world in
  let w2 := exec (on_connect_result mac result) (exec (initiateConnection mac) w1) in
  In (Call (mstDestroyProfileInstance 7)) (trace (host w1))
  /\ current_pid w1 = None
  /\ trace (host w2)
     = (trace (host w1)
        ++ [Call (mstConnect (mac2ab mac)); ConnectResponse true "connected"])%list
  /\ current_pid w2 = Some 7
  /\ execute op w2 =
     match check_of op (now (host w2)) with
     | None => (log (Continuation None) (log (Call (transport_call 7 op)) w2), true)
     | Some cb => run_check cb (log (Call (transport_call 7 op)) w2)
     end.
Proof.
  exact (destroyed_profile_survives_reconnect "aa:bb:cc:dd:ee:ff" sample_device 7
           (mkResult [170; 187; 204; 221; 238; 255] 0 (Some 2))
           (ReadOperation "2a19" false) sample_world
           eq_refl eq_refl eq_refl eq_refl eq_refl eq_refl).
Defined.

(** ** Preparing a profile: [startListener] and its two callbacks *)

Lemma BX_CORE_CODES_success (status : Z) (msg code : string) :
  BX_CORE_CODES status = Some (msg, code) -> msg = "Success" -> status = 0.
Proof.
  intros H Hm. destruct (Z.eqb_spec status 0) as [|Hne]; [done|]. exfalso.
  unfold BX_CORE_CODES in H.
  repeat (destruct (_ =? _) in H; [injection H as <- <-; discriminate|]).
  apply Z.eqb_neq in Hne. rewrite Hne in H. discriminate.
Qed.

(** X16. A prepare event with status 0, for a tracked device and with no
    prepare event handled since the last profile build, stores the profile
    handle in the registry entry of the tracked device and in the [on]
    object, and answers success with the message "Success". From then on the
    handle is the one the operations use, subscribing no longer throws, and
    any further prepare event is dropped until the next profile build. *)
Theorem prepare_success (mac : string) (d : device) (profile : Z) (w : world) :
  last_connected_mac (ble w) = Some mac -> Js.truthy mac = true ->
  dev_get mac (devices (ble w)) = Some d ->
  prepare_starting (ble w) = false ->
  let w' := exec (on_prepare 0 profile) w in
  fst (on_prepare 0 profile w) = Normal tt
  /\ trace (host w') = (trace (host w) ++ [PrepareResponse true "Success" None])%list
  /\ current_pid w' = Some profile
  /\ on_off (ble w') = Some profile
  /\ dev_get mac (devices (ble w'))
     = Some (mkDevice (dev_name d) (connect_id d) (is_connected d) (Some profile))
  /\ (forall c h, fst (on_subscribe c h w') = Normal tt)
  /\ (forall status profile', on_prepare status profile' w' = (Normal tt, w')).
Proof.
  intros Hmac Ht Hget Hprep w'.
  assert (Hrun : on_prepare 0 profile w =
    (Normal tt,
     log (PrepareResponse true "Success" None)
       (set_ble (with_on_off (Some profile)
                   (with_devices
                      (dev_set mac (mkDevice (dev_name d) (connect_id d)
                                      (is_connected d) (Some profile))
                         (devices (ble w)))
                      (with_prepare_starting true (ble w)))) w))).
  { unfold on_prepare, bind, read, update_ble, update, emit.
    rewrite Hprep, Hmac. cbn. rewrite Hget. reflexivity. }
  subst w'. unfold exec. rewrite Hrun. cbn [fst snd].
  split; [reflexivity|]. split; [reflexivity|]. split.
  { unfold current_pid, getCurrentlyConnectedDevice. cbn.
    by rewrite Hmac, Ht, dev_get_set_eq. }
  split; [reflexivity|]. split; [cbn; by rewrite dev_get_set_eq|]. split.
  - intros c h. reflexivity.
  - intros status profile'. reflexivity.
Qed.

Lemma prepare_success_witness :
  let w := sample_world in
  let w' := exec (on_prepare 0 9) w in
  fst (on_prepare 0 9 w) = Normal tt
  /\ trace (host w') = (trace (host w) ++ [PrepareResponse true "Success" None])%list
  /\ current_pid w' = Some 9
  /\ on_off (ble w') = Some 9
  /\ dev_get "aa:bb:cc:dd:ee:ff" (devices (ble w'))
     = Some (mkDevice (Some "sensor") (Some 1) true (Some 9))
  /\ (forall c h, fst (on_subscribe c h w') = Normal tt)
  /\ (forall status profile', on_prepare status profile' w' = (Normal tt, w')).
Proof.
  exact (prepare_success "aa:bb:cc:dd:ee:ff" sample_device 9 sample_world
           eq_refl eq_refl eq_refl eq_refl).
Defined.

(** X17. A prepare event with a status other than 0 changes neither the
    registry nor the [on] object: it only answers failure, with the message
    and code of the status table, or "Unknown Error" and "UNKNOWN" for a
    status outside it; the message of a failure is never "Success". *)
Theorem prepare_failure (status profile : Z) (w : world) :
  status <> 0 -> prepare_starting (ble w) = false ->
  exists msg code,
    on_prepare status profile w =
    (Normal tt,
     log (PrepareResponse false msg (Some code))
       (set_ble (with_prepare_starting true (ble w)) w))
    /\ (msg, code) = default ("Unknown Error", "UNKNOWN") (BX_CORE_CODES status)
    /\ msg <> "Success".
Proof.
  intros Hne Hprep.
  destruct (default ("Unknown Error", "UNKNOWN") (BX_CORE_CODES status))
    as [msg code] eqn:Hd.
  exists msg, code. split; [|split; [reflexivity|]].
  - unfold on_prepare, bind, read, update_ble, update, emit.
    rewrite Hprep. destruct (Z.eqb_spec status 0) as [?|_]; [done|].
    destruct (BX_CORE_CODES status) as [[m c]|]; cbn in Hd;
      injection Hd as <- <-; reflexivity.
  - intros ->. destruct (BX_CORE_CODES status) as [[m c]|] eqn:Hc; cbn in Hd.
    + injection Hd as -> ->. by apply Hne, (BX_CORE_CODES_success _ _ _ Hc).
    + discriminate.
Qed.

Lemma prepare_failure_witness :
  exists msg code,
    on_prepare (-4) 9 sample_world =
    (Normal tt,
     log (PrepareResponse false msg (Some code))
       (set_ble (with_prepare_starting true (ble sample_world)) sample_world))
    /\ (msg, code) = default ("Unknown Error", "UNKNOWN") (BX_CORE_CODES (-4))
    /\ msg <> "Success".
Proof.
  apply (prepare_failure (-4) 9 sample_world); [lia | reflexivity].
Defined.

(** X18. A prepare event with status 0 that arrives while no device is
    tracked (after [disconnect()] or [quit]) throws a TypeError: nothing is
    answered and no handle is stored, and since the prepare guard stays set,
    every later prepare event is dropped until the next profile build. *)
Theorem prepare_without_device_throws (profile : Z) (w : world) :
  last_connected_mac (ble w) = None -> prepare_starting (ble w) = false ->
  let w' := set_ble (with_prepare_starting true (ble w)) w in
  on_prepare 0 profile w = (Abrupt (TypeError "cannot set properties of undefined"), w')
  /\ forall status profile', on_prepare status profile' w' = (Normal tt, w').
Proof.
  intros Hmac Hprep w'. split.
  - unfold on_prepare, bind, read, update_ble, update. rewrite Hprep, Hmac. reflexivity.
  - intros status profile'. reflexivity.
Qed.

Lemma prepare_without_device_throws_witness :
  let w := exec quit sample_world in
  let w' := set_ble (with_prepare_starting true (ble w)) w in
  on_prepare 0 9 w = (Abrupt (TypeError "cannot set properties of undefined"), w')
  /\ forall status profile', on_prepare status profile' w' = (Normal tt, w').
Proof.
  exact (prepare_without_device_throws 9 (exec quit sample_world) eq_refl eq_refl).
Defined.

(** X19. [startListener] registers the prepare callback once: a second
    call made before the delayed profile build has run does nothing at all
    (no transport call, its profile is never built), and the build makes
    its one [mstBuildProfile] call and clears both guards, so that the next
    [startListener] is accepted again. *)
Theorem startListener_guard (p : profile_object) (w : world) :
  listener_starting (ble w) = false ->
  let w1 := exec startListener w in
  let w2 := exec (build_later p) w1 in
  startListener w = (Normal true, w1)
  /\ trace (host w1) = (trace (host w) ++ [Call mstOnPrepare])%list
  /\ startListener w1 = (Normal false, w1)
  /\ trace (host w2) = (trace (host w1) ++ [Call (mstBuildProfile p)])%list
  /\ listener_starting (ble w2) = false /\ prepare_starting (ble w2) = false
  /\ fst (startListener w2) = Normal true.
Proof.
  intros Hl w1 w2.
  assert (H1 : startListener w =
               (Normal true,
                log (Call mstOnPrepare) (set_ble (with_listener_starting true (ble w)) w))).
  { unfold startListener, bind, read, update_ble, update, emit. by rewrite Hl. }
  subst w2 w1. unfold exec at 1 2 3 4 5 6 7. rewrite H1. cbn [snd].
  repeat split; reflexivity.
Qed.

Lemma startListener_guard_witness :
  let p := mkProfile true 1 "sensor" [170; 187; 204; 221; 238; 255] 1 [] in
  let w1 := exec startListener sample_world in
  let w2 := exec (build_later p) w1 in
  startListener sample_world = (Normal true, w1)
  /\ trace (host w1) = (trace (host sample_world) ++ [Call mstOnPrepare])%list
  /\ startListener w1 = (Normal false, w1)
  /\ trace (host w2) = (trace (host w1) ++ [Call (mstBuildProfile p)])%list
  /\ listener_starting (ble w2) = false /\ prepare_starting (ble w2) = false
  /\ fst (startListener w2) = Normal true.
Proof.
  exact (startListener_guard
           (mkProfile true 1 "sensor" [170; 187; 204; 221; 238; 255] 1 [])
           sample_world eq_refl).
Defined.

(** ** Completion events and the queue *)

Lemma listener_own_trace (c : capability) (own : Z) (w : world) :
  trace (host (listener c own own w)) = (trace (host w) ++ handler_log c w)%list.
Proof.
  unfold listener, handler_log. rewrite Z.eqb_refl.
  destruct c; cbn;
    match goal with
    | |- context [match ?x with Some _ => _ | None => _ end] => destruct x
    end; cbn; by rewrite ?app_nil_r.
Qed.

(** An operation issued on an idle queue while its flag is up calls back
    in the same turn. *)
Lemma enqueue_flag_up (op : operation) (cb : check) (pid : Z) (w : world) :
  current_pid w = Some pid ->
  qm w = mkQueue [] false ->
  check_of op (now (host w)) = Some cb ->
  flag_raised cb (flags w) = true ->
  enqueueOperation op w =
  set_qm (mkQueue [] false)
    (log (Continuation None)
       (set_flags (reset_flags cb (flags w))
          (log (Call (transport_call pid op)) w))).
Proof.
  intros Hpid Hqm Hcb Hflag. unfold enqueueOperation. rewrite Hqm.
  rewrite (processQueue_drain [op]) by reflexivity.
  cbn [drain with_queue operation_queue_arr app].
  assert (Hpid1 : current_pid (set_qm (mkQueue [] true)
                                 (set_qm (mkQueue [op] false) w)) = Some pid) by exact Hpid.
  rewrite (execute_prepared _ _ pid Hpid1).
  cbn [now host set_qm]. rewrite Hcb.
  match goal with
  | |- context [run_check ?c ?x] => destruct (run_check_cases c x)
      as [(Hgt & _)|[(_ & _ & ->)|(_ & Hf & _)]]
  end.
  - cbn in Hgt. apply check_of_start in Hcb. unfold queue_timeout in Hgt. lia.
  - destruct w as [b f c q h]. reflexivity.
  - cbn in Hf. congruence.
Qed.

Lemma reset_flags_down (cb : check) (f : On_flags) :
  flag_raised cb (reset_flags cb f) = false.
Proof. destruct cb as [ty s|[|] s]; reflexivity. Qed.

Lemma current_pid_ble (w w' : world) : ble w' = ble w -> current_pid w' = current_pid w.
Proof. unfold current_pid. by intros ->. Qed.

(** X20. A completion event that its closure accepts while the queue is
    idle is not lost: its flag stays up, and the next operation whose check
    reads that flag is issued and calls back in the same turn, without an
    error and without any poll being scheduled, leaving the flag down. The
    closure accepts the event when the response names the handle of the
    [On] instance the closure was created on, whatever the current handle
    is. *)
Theorem early_event_completes_next_operation
    (c : capability) (own : Z) (op : operation) (cb : check) (pid : Z) (w : world) :
  current_pid w = Some pid ->
  qm w = mkQueue [] false ->
  check_of op (now (host w)) = Some cb ->
  completes c cb = true ->
  let w' := run [EvPush c own own; EvEnqueue op] w in
  trace (host w')
  = (trace (host w) ++ handler_log c w
     ++ [Call (transport_call pid op); Continuation None])%list
  /\ qm w' = mkQueue [] false
  /\ timer (host w') = timer (host w)
  /\ flag_raised cb (flags w') = false.
Proof.
  intros Hpid Hqm Hcb Hc w'. subst w'. cbn [run fold_left step].
  destruct (listener_frame c own own w) as (Hb & Hq & _ & Hn & Ht & _).
  rewrite (enqueue_flag_up op cb pid).
  - cbn. rewrite (listener_own_trace c own w), <- !app_assoc, Ht.
    split; [reflexivity|]. split; [reflexivity|]. split; [reflexivity|].
    apply reset_flags_down.
  - by rewrite (current_pid_ble _ _ Hb).
  - by rewrite Hq.
  - by rewrite Hn.
  - by apply listener_raises.
Qed.

Lemma early_event_completes_next_operation_witness :
  let w := exec (on_subscribe descValueArrived 1%nat) sample_world in
  let w' := run [EvPush descValueArrived 7 7; EvEnqueue (ReadOperation "2a19-2902" true)]
              w in
  trace (host w')
  = (trace (host w) ++ handler_log descValueArrived w
     ++ [Call (transport_call 7 (ReadOperation "2a19-2902" true));
         Continuation None])%list
  /\ qm w' = mkQueue [] false
  /\ timer (host w') = timer (host w)
  /\ flag_raised (ReadCheck true 1000) (flags w') = false.
Proof.
  exact (early_event_completes_next_operation descValueArrived 7
           (ReadOperation "2a19-2902" true) (ReadCheck true 1000) 7
           (exec (on_subscribe descValueArrived 1%nat) sample_world)
           eq_refl eq_refl eq_refl eq_refl).
Defined.

(** The state after the poll that finds the flag of the pending check
    up. *)
Lemma polling_completes (w : world) (cb : check) (t : Z) :
  flag_raised cb (flags w) = true ->
  t + queue_check_interval - start_of cb <= queue_timeout ->
  qm w = mkQueue [] true ->
  tick (polling w cb t) =
  set_qm (mkQueue [] false)
    (log (Continuation None)
       (set_flags (reset_flags cb (flags w))
          (set_host (mkHost (t + queue_check_interval) None
                       (global_names (host w)) (trace (host w))) w))).
Proof.
  intros Hflag Hle Hqm.
  rewrite (tick_due _ cb (t + queue_check_interval))
    by (simpl; unfold queue_check_interval; first [lia | done]).
  unfold fire_timer. cbn [polling set_host with_now host timer now].
  rewrite Z.leb_refl.
  match goal with
  | |- context [run_check ?c ?x] => destruct (run_check_cases c x)
      as [(Hgt & _)|[(_ & _ & ->)|(_ & Hf & _)]]
  end.
  - simpl in Hgt. lia.
  - unfold continuation, processQueue. cbn. rewrite Hqm. cbn.
    destruct w as [b f c q h]. reflexivity.
  - simpl in Hf. congruence.
Qed.

Lemma listener_polling (c : capability) (own profile : Z) (w : world) (cb : check) (t : Z) :
  listener c own profile (polling w cb t) = polling (listener c own profile w) cb t.
Proof.
  unfold listener, polling. cbn. destruct (_ =? _); [|done].
  destruct c; cbn;
    match goal with
    | |- context [match ?x with Some _ => _ | None => _ end] => destruct x
    end; reflexivity.
Qed.

(** X21. An operation issued on an idle queue with its flag down stays
    pending until a completion event of its kind is accepted by its
    closure; the poll that follows the event, one interval after the issue,
    calls back without an error, leaves the queue idle with no poll
    pending, and leaves the flag of its check down. *)
Theorem event_completes_pending_operation
    (c : capability) (own : Z) (op : operation) (cb : check) (pid : Z) (w : world) :
  current_pid w = Some pid ->
  qm w = mkQueue [] false ->
  check_of op (now (host w)) = Some cb ->
  flag_raised cb (flags w) = false ->
  completes c cb = true ->
  let issued := enqueueOperation op w in
  let w' := tick (run [EvPush c own own] issued) in
  trace (host issued) = (trace (host w) ++ [Call (transport_call pid op)])%list
  /\ qm issued = mkQueue [] true
  /\ trace (host w')
     = (trace (host issued) ++ handler_log c w ++ [Continuation None])%list
  /\ now (host w') = now (host w) + queue_check_interval
  /\ qm w' = mkQueue [] false /\ timer (host w') = None
  /\ flag_raised cb (flags w') = false.
Proof.
  intros Hpid Hqm Hcb Hflag Hc issued w'.
  pose proof (enqueue_polls op cb pid w Hpid Hqm Hcb Hflag) as Hi.
  fold issued in Hi. subst w'. rewrite Hi. cbn [run fold_left step].
  split; [reflexivity|]. split; [reflexivity|].
  rewrite listener_polling.
  set (w1 := log (Call (transport_call pid op)) (set_qm (mkQueue [] true) w)).
  destruct (listener_frame c own own w1) as (Hb & Hq & _ & Hn & Ht & Hg).
  rewrite polling_completes.
  - cbn. rewrite (listener_own_trace c own w1).
    change (handler_log c w1) with (handler_log c w).
    change (trace (host w1)) with (trace (host w) ++ [Call (transport_call pid op)])%list.
    rewrite <- !app_assoc.
    split; [reflexivity|]. split; [reflexivity|]. split; [reflexivity|].
    split; [reflexivity|]. apply reset_flags_down.
  - by apply listener_raises.
  - apply check_of_start in Hcb. rewrite Hcb.
    unfold queue_check_interval, queue_timeout. lia.
  - by rewrite Hq.
Qed.

Lemma event_completes_pending_operation_witness :
  let w := exec (on_subscribe charaValueArrived 1%nat) sample_world in
  let op := ReadOperation "2a19" false in
  let issued := enqueueOperation op w in
  let w' := tick (run [EvPush charaValueArrived 7 7] issued) in
  trace (host issued) = (trace (host w) ++ [Call (transport_call 7 op)])%list
  /\ qm issued = mkQueue [] true
  /\ trace (host w')
     = (trace (host issued) ++ handler_log charaValueArrived w
        ++ [Continuation None])%list
  /\ now (host w') = now (host w) + queue_check_interval
  /\ qm w' = mkQueue [] false /\ timer (host w') = None
  /\ flag_raised (ReadCheck false 1000) (flags w') = false.
Proof.
  exact (event_completes_pending_operation charaValueArrived 7
           (ReadOperation "2a19" false) (ReadCheck false 1000) 7
           (exec (on_subscribe charaValueArrived 1%nat) sample_world)
           eq_refl eq_refl eq_refl eq_refl eq_refl).
Defined.

(** X22. Any other event leaves a pending operation pending: an event
    whose closure rejects it (the response names another handle than the
    one of the closure's own [On] instance), or one whose flag the waiter
    does not read (a descriptor event for a characteristic read and
    conversely, a read event for a write and conversely, a notification or
    service-change event), makes the next poll neither call back nor touch
    the queue; it only schedules the following poll. *)
Theorem other_event_leaves_operation_pending
    (c : capability) (own profile : Z) (op : operation) (cb : check) (pid : Z)
    (w : world) :
  current_pid w = Some pid ->
  qm w = mkQueue [] false ->
  check_of op (now (host w)) = Some cb ->
  flag_raised cb (flags w) = false ->
  completes c cb = false \/ own <> profile ->
  let issued := enqueueOperation op w in
  let pushed := run [EvPush c own profile] issued in
  let w' := tick pushed in
  trace (host w') = trace (host pushed)
  /\ io_calls (trace (host pushed)) = io_calls (trace (host issued))
  /\ qm w' = mkQueue [] true
  /\ timer (host w') = Some (cb, now (host w) + 2 * queue_check_interval)
  /\ flag_raised cb (flags w') = false.
Proof.
  intros Hpid Hqm Hcb Hflag Hc issued pushed w'.
  pose proof (enqueue_polls op cb pid w Hpid Hqm Hcb Hflag) as Hi.
  fold issued in Hi. subst w' pushed. rewrite Hi. cbn [run fold_left step].
  rewrite listener_polling.
  set (w1 := log (Call (transport_call pid op)) (set_qm (mkQueue [] true) w)).
  destruct (listener_frame c own profile w1) as (Hb & Hq & _ & Hn & Ht & Hg).
  assert (Hs : (completes c cb && (own =? profile))%bool = false).
  { destruct Hc as [-> | Hne]; [done|].
    apply andb_false_iff. right. by apply Z.eqb_neq. }
  assert (Hk : flag_raised cb (flags (listener c own profile w1)) = false).
  { rewrite listener_keeps by exact Hs. exact Hflag. }
  rewrite polling_tick.
  - cbn. rewrite Hq. repeat split; try reflexivity.
    + destruct (listener_handlers c own profile w1) as [hs ->].
      rewrite io_calls_app. unfold handlers.
      replace (io_calls (map Handler hs)) with (@nil hm_call);
        [by rewrite app_nil_r|].
      clear. induction hs as [|h hs IH]; [done | exact IH].
    + f_equal. f_equal. unfold queue_check_interval. lia.
    + exact Hk.
  - exact Hk.
  - apply check_of_start in Hcb. rewrite Hcb.
    unfold queue_check_interval, queue_timeout. lia.
Qed.

Lemma other_event_leaves_operation_pending_witness :
  let op := ReadOperation "2a19" false in
  let issued := enqueueOperation op sample_world in
  let pushed := run [EvPush charaReadComplete 7 9] issued in
  let w' := tick pushed in
  trace (host w') = trace (host pushed)
  /\ io_calls (trace (host pushed)) = io_calls (trace (host issued))
  /\ qm w' = mkQueue [] true
  /\ timer (host w')
     = Some (ReadCheck false 1000, now (host sample_world) + 2 * queue_check_interval)
  /\ flag_raised (ReadCheck false 1000) (flags w') = false.
Proof.
  apply (other_event_leaves_operation_pending charaReadComplete 7 9
           (ReadOperation "2a19" false) (ReadCheck false 1000) 7 sample_world
           eq_refl eq_refl eq_refl eq_refl).
  right. discriminate.
Defined.

(** ** Writes without response, notifications and descriptor reads *)

Lemma enqueue_without_response (op : operation) (pid : Z) (w : world) :
  current_pid w = Some pid ->
  qm w = mkQueue [] false ->
  without_response op = true ->
  enqueueOperation op w =
  set_qm (mkQueue [] false)
    (log (Continuation None) (log (Call (transport_call pid op)) w)).
Proof.
  intros Hpid Hqm Hop. unfold enqueueOperation. rewrite Hqm.
  rewrite (processQueue_drain [op]) by reflexivity.
  cbn [drain with_queue operation_queue_arr app].
  assert (Hpid1 : current_pid (set_qm (mkQueue [] true)
                                 (set_qm (mkQueue [op] false) w)) = Some pid) by exact Hpid.
  rewrite (execute_prepared _ _ pid Hpid1).
  destruct op as [uuid d [|]| |]; try discriminate Hop.
  cbn. destruct w as [b f c q h]. reflexivity.
Qed.

(** X23. Characteristic writes without response never wait: submitted to
    an idle queue in front of a prepared profile, any number of them are
    each issued and called back, in submission order, within the submitting
    turn; no poll is scheduled, the clock is not read, and the queue is idle
    again after each. *)
Theorem writes_without_response_run_at_once (ops : list operation) (pid : Z) (w : world) :
  current_pid w = Some pid ->
  qm w = mkQueue [] false ->
  forallb without_response ops = true ->
  let w' := run (map EvEnqueue ops) w in
  trace (host w')
  = (trace (host w)
     ++ flat_map (fun op => [Call (transport_call pid op); Continuation None]) ops)%list
  /\ qm w' = mkQueue [] false
  /\ timer (host w') = timer (host w)
  /\ flags w' = flags w.
Proof.
  revert w. induction ops as [|op ops IH]; intros w Hpid Hqm Hops.
  - cbn. by rewrite app_nil_r.
  - cbn [forallb] in Hops. apply andb_prop in Hops as [Hop Hops].
    cbn [map run fold_left step flat_map].
    rewrite (enqueue_without_response op pid w Hpid Hqm Hop).
    set (w1 := set_qm _ _).
    destruct (IH w1) as (Htr & Hq & Ht & Hf); [exact Hpid | reflexivity | exact Hops |].
    unfold run in Htr, Hq, Ht, Hf. rewrite Htr, Hq, Ht, Hf. subst w1. cbn.
    rewrite <- !app_assoc. by repeat split.
Qed.

Lemma writes_without_response_run_at_once_witness :
  let ops := [CharaWrite "2a19" (DString "0100") true;
              CharaWrite "2a1a" (DArrayBuffer [1; 2; 3]) true] in
  let w' := run (map EvEnqueue ops) sample_world in
  trace (host w')
  = (trace (host sample_world)
     ++ flat_map (fun op => [Call (transport_call 7 op); Continuation None]) ops)%list
  /\ qm w' = mkQueue [] false
  /\ timer (host w') = timer (host sample_world)
  /\ flags w' = flags sample_world.
Proof.
  exact (writes_without_response_run_at_once
           [CharaWrite "2a19" (DString "0100") true;
            CharaWrite "2a1a" (DArrayBuffer [1; 2; 3]) true] 7 sample_world
           eq_refl eq_refl eq_refl).
Defined.

(** X24. [enableCharaNotifications] is a descriptor write to the
    descriptor 2902 of the characteristic with the two bytes 01 00 (enable)
    or 00 00 (disable): on an idle queue with the write flags down it makes
    exactly that transport call and then waits like any descriptor write. *)
Theorem enableCharaNotifications_call (chara : string) (enable : bool) (pid : Z) (w : world) :
  current_pid w = Some pid ->
  qm w = mkQueue [] false ->
  desc_write_complete_flag (flags w) = false ->
  chara_write_complete_flag (flags w) = false ->
  let w' := enableCharaNotifications chara enable w in
  trace (host w')
  = (trace (host w)
     ++ [Call (mstWriteDescriptor pid chara "2902" [if enable then 1 else 0; 0] 2)])%list
  /\ timer (host w')
     = Some (WriteCheck Desc (now (host w)), now (host w) + queue_check_interval).
Proof.
  intros Hpid Hqm Hd Hc w'. subst w'.
  unfold enableCharaNotifications.
  assert (Hflag : flag_raised (WriteCheck Desc (now (host w))) (flags w) = false)
    by (cbn; by rewrite Hd, Hc).
  rewrite (enqueue_polls
             (DescriptorWrite chara "2902" (DString (if enable then "0100" else "0000")))
             (WriteCheck Desc (now (host w))) pid w Hpid Hqm eq_refl Hflag).
  split; [by destruct enable | reflexivity].
Qed.

Lemma enableCharaNotifications_call_witness :
  let w' := enableCharaNotifications "2a19" true sample_world in
  trace (host w')
  = (trace (host sample_world)
     ++ [Call (mstWriteDescriptor 7 "2a19" "2902" [1; 0] 2)])%list
  /\ timer (host w')
     = Some (WriteCheck Desc (now (host sample_world)),
             now (host sample_world) + queue_check_interval).
Proof.
  exact (enableCharaNotifications_call "2a19" true 7 sample_world
           eq_refl eq_refl eq_refl eq_refl).
Defined.

Lemma string_app_assoc (a b c : string) : ((a ++ b) ++ c)%string = (a ++ b ++ c)%string.
Proof.
  induction a as [|x a IH]; rewrite ?append_nil, ?append_cons; [done | by rewrite IH].
Qed.

Lemma split_dash_first_two (a b rest : string) :
  free_of "-" a -> free_of "-" b ->
  Js.split "-" (a ++ "-" ++ b) = [a; b]
  /\ Js.split "-" (a ++ "-" ++ b ++ "-" ++ rest) !! 0%nat = Some a
  /\ Js.split "-" (a ++ "-" ++ b ++ "-" ++ rest) !! 1%nat = Some b.
Proof.
  intros Ha Hb.
  rewrite !(append_cons "-" EmptyString), !append_nil, !split_app_sep.
  rewrite (split_free _ _ Ha), (split_free _ _ Hb). done.
Qed.

(** X25. [read.descriptor] joins its two UUIDs with a dash and
    [#performReadOperation] splits at every dash and keeps the first two
    parts. With two dash-free UUIDs the transport is asked for exactly that
    descriptor of that characteristic. With a characteristic UUID that
    itself contains dashes, the transport is asked for the first two parts
    of the characteristic UUID, and the descriptor UUID is not used at
    all. *)
Theorem read_descriptor_uuids (chara desc a b c : string) (pid : Z) (w : world) :
  current_pid w = Some pid ->
  qm w = mkQueue [] false ->
  desc_read_complete_flag (flags w) = false ->
  free_of "-" chara -> free_of "-" desc ->
  free_of "-" a -> free_of "-" b ->
  trace (host (read_descriptor chara desc w))
  = (trace (host w) ++ [Call (mstReadDescriptor pid (Some chara) (Some desc))])%list
  /\ trace (host (read_descriptor (a ++ "-" ++ b ++ "-" ++ c) desc w))
     = (trace (host w) ++ [Call (mstReadDescriptor pid (Some a) (Some b))])%list.
Proof.
  intros Hpid Hqm Hdesc Hc Hd Ha Hb.
  assert (Hflag : flag_raised (ReadCheck true (now (host w))) (flags w) = false)
    by (cbn; by rewrite Hdesc).
  assert (Hrun : forall uuid,
             trace (host (enqueueOperation (ReadOperation uuid true) w))
             = (trace (host w)
                ++ [Call (mstReadDescriptor pid (Js.split "-" uuid !! 0%nat)
                            (Js.split "-" uuid !! 1%nat))])%list).
  { intros uuid.
    by rewrite (enqueue_polls (ReadOperation uuid true) (ReadCheck true (now (host w)))
                  pid w Hpid Hqm eq_refl Hflag). }
  split.
  - unfold read_descriptor. rewrite Hrun.
    destruct (split_dash_first_two chara desc "" Hc Hd) as (-> & _). reflexivity.
  - unfold read_descriptor. rewrite Hrun.
    rewrite !string_app_assoc.
    destruct (split_dash_first_two a b (c ++ "-" ++ desc) Ha Hb) as (_ & -> & ->).
    reflexivity.
Qed.

Lemma read_descriptor_uuids_witness :
  trace (host (read_descriptor "2a19" "2902" sample_world))
  = (trace (host sample_world)
     ++ [Call (mstReadDescriptor 7 (Some "2a19") (Some "2902"))])%list
  /\ trace (host (read_descriptor
                    ("00002a19" ++ "-" ++ "0000" ++ "-" ++ "1000-8000-00805f9b34fb")
                    "2902" sample_world))
     = (trace (host sample_world)
        ++ [Call (mstReadDescriptor 7 (Some "00002a19") (Some "0000"))])%list.
Proof.
  apply (read_descriptor_uuids "2a19" "2902" "00002a19" "0000" "1000-8000-00805f9b34fb"
           7 sample_world eq_refl eq_refl eq_refl);
    unfold free_of; cbn; repeat constructor; discriminate.
Defined.

(** ** Wildcard addresses in [connect] and [hasMAC] *)

Lemma lower_ascii_idem (c : ascii) : Js.lower_ascii (Js.lower_ascii c) = Js.lower_ascii c.
Proof. destruct c as [[] [] [] [] [] [] [] []]; vm_compute; reflexivity. Qed.

Lemma toLowerCase_idem (s : string) :
  Js.toLowerCase (Js.toLowerCase s) = Js.toLowerCase s.
Proof. induction s as [|c s IH]; [done|]. cbn. by rewrite lower_ascii_idem, IH. Qed.

(** X26. A [connect] with a wildcard pattern behaves exactly like a
    [connect] to the first registry key that matches the pattern, when that
    key is a valid lowercase address (as the keys written by the scan and by
    [connect] are): same answer, same transport calls, same state. *)
Theorem wildcard_connect_is_first_match (pattern mac : string) (w : world) :
  Js.truthy pattern = true ->
  Js.includes (Js.toLowerCase pattern) "xx" = true ->
  findMatchingMacAddress (devices (ble w)) pattern = Some mac ->
  isValidMacAddress mac = true ->
  Js.toLowerCase mac = mac ->
  connect pattern w = connect mac w.
Proof.
  intros Ht Hx Hfind Hvalid Hlow.
  pose proof (valid_truthy _ Hvalid) as Htm.
  unfold connect. rewrite Ht, Htm. cbn [negb].
  unfold bind at 1 3, read at 1 2.
  rewrite Hx, Hlow, (not_x_includes _ (valid_not_x _ Hvalid)).
  unfold findMatchingMacAddress in *. rewrite toLowerCase_idem, Hfind, Htm.
  reflexivity.
Qed.

Lemma wildcard_connect_is_first_match_witness :
  connect "AA:XX:CC:dd:ee:xx" (exec quit sample_world)
  = connect "aa:bb:cc:dd:ee:ff" (exec quit sample_world).
Proof.
  exact (wildcard_connect_is_first_match "AA:XX:CC:dd:ee:xx" "aa:bb:cc:dd:ee:ff"
           (exec quit sample_world) eq_refl eq_refl eq_refl eq_refl eq_refl).
Defined.

Lemma dev_get_in (key : string) (ds : list (string * device)) :
  is_Some (dev_get key ds) <-> In key (map fst ds).
Proof.
  induction ds as [|[k d] ds IH]; cbn.
  - split; [by intros [? ?] | done].
  - destruct (String.eqb_spec k key) as [->|Hne].
    + split; [by left | by eexists].
    + rewrite IH. split; [by right | by intros [?|?]].
Qed.

(** X27. [hasMAC] answers true for a plain address exactly when its
    lowercased form is a key of the registry, and for a pattern exactly when
    some key matches the lowercased pattern octet by octet. A pattern for
    which it answers false is one [connect] refuses with "device not found",
    without a transport call. *)
Theorem hasMAC_spec (dev_addr : string) (w : world) :
  Js.truthy dev_addr = true ->
  (hasMAC (ble w) dev_addr = true <->
   if Js.includes (Js.toLowerCase dev_addr) "xx"
   then exists mac, In mac (map fst (devices (ble w)))
                    /\ isMacAddressMatch mac (Js.toLowerCase dev_addr) = true
   else In (Js.toLowerCase dev_addr) (map fst (devices (ble w))))
  /\ (Js.includes (Js.toLowerCase dev_addr) "xx" = true ->
      hasMAC (ble w) dev_addr = false ->
      connect dev_addr w
      = (Normal false, log (ConnectResponse false "device not found") w)).
Proof.
  intros Ht. unfold hasMAC, connect. rewrite Ht. cbn [negb].
  unfold findMatchingMacAddress. rewrite toLowerCase_idem.
  set (p := Js.toLowerCase dev_addr). set (keys := map fst (devices (ble w))).
  split.
  - destruct (Js.includes p "xx").
    + pose proof (find_key_spec keys p) as Hspec.
      destruct (find_key keys p) as [mac|] eqn:Hf.
      * destruct Hspec as (before & after & Hk & Hm & _).
        split; [|done]. intros _. exists mac. split; [|done].
        rewrite Hk. apply in_or_app. right. by left.
      * split; [discriminate|]. intros (mac & Hin & Hm).
        rewrite List.Forall_forall in Hspec.
        specialize (Hspec mac Hin). congruence.
    + unfold keys. rewrite <- dev_get_in. destruct (dev_get p (devices (ble w))).
      * split; [by eexists | done].
      * split; [discriminate | by intros [? ?]].
  - intros Hx Hno. rewrite Hx in Hno. unfold bind at 1, read at 1.
    fold p. rewrite Hx. fold keys.
    destruct (find_key keys p); [discriminate | reflexivity].
Qed.

Lemma hasMAC_spec_witness :
  (hasMAC (ble sample_world) "AA:BB:CC:DD:EE:FF" = true <->
   if Js.includes (Js.toLowerCase "AA:BB:CC:DD:EE:FF") "xx"
   then exists mac, In mac (map fst (devices (ble sample_world)))
                    /\ isMacAddressMatch mac (Js.toLowerCase "AA:BB:CC:DD:EE:FF") = true
   else In (Js.toLowerCase "AA:BB:CC:DD:EE:FF") (map fst (devices (ble sample_world))))
  /\ (Js.includes (Js.toLowerCase "AA:BB:CC:DD:EE:FF") "xx" = true ->
      hasMAC (ble sample_world) "AA:BB:CC:DD:EE:FF" = false ->
      connect "AA:BB:CC:DD:EE:FF" sample_world
      = (Normal false, log (ConnectResponse false "device not found") sample_world)).
Proof.
  exact (hasMAC_spec "AA:BB:CC:DD:EE:FF" sample_world eq_refl).
Defined.

(** ** Text and hexadecimal text of a buffer *)

Lemma length_ab2str (buffer : list Z) : String.length (ab2str buffer) = length buffer.
Proof.
  unfold ab2str. induction buffer as [|b buffer IH]; [done|]. cbn. by rewrite IH.
Qed.

Lemma units_ab2str (buffer : list Z) :
  Forall is_byte buffer -> units (ab2str buffer) = buffer.
Proof.
  intros Hb. unfold units, ab2str, Js.chars.
  rewrite list_ascii_of_string_of_list_ascii, map_map.
  rewrite <- (map_id buffer) at 2. apply map_ext_Forall.
  eapply Forall_impl; [exact Hb|]. intros b [Hlo Hhi].
  rewrite nat_ascii_embedding by lia. by rewrite Z2Nat.id by lia.
Qed.

Lemma ab2str_units_string (s : string) : ab2str (units s) = s.
Proof.
  unfold ab2str, units, Js.chars. rewrite map_map.
  rewrite <- (string_of_list_ascii_of_string s) at 2. f_equal.
  rewrite <- (map_id (list_ascii_of_string s)) at 2. apply map_ext. intros c.
  by rewrite Nat2Z.id, ascii_nat_embedding.
Qed.

Lemma unit_is_hex_ascii (c : ascii) :
  unit_is_hex (Z.of_nat (nat_of_ascii c)) = Js.is_hex c.
Proof. destruct c as [[] [] [] [] [] [] [] []]; vm_compute; reflexivity. Qed.

Lemma all_hex_units (s : string) : forallb unit_is_hex (units s) = Js.all_hex s.
Proof.
  induction s as [|c s IH]; [done|].
  change (units (String c s)) with (Z.of_nat (nat_of_ascii c) :: units s).
  cbn [forallb Js.all_hex]. by rewrite unit_is_hex_ascii, IH.
Qed.

Lemma hex_only_units_string (s : string) : hex_only_units (units s) = Js.hex_only s.
Proof.
  destruct s as [|c s]; [done|]. unfold Js.hex_only. rewrite <- all_hex_units.
  reflexivity.
Qed.

Lemma length_units (s : string) : length (units s) = String.length s.
Proof. unfold units, Js.chars. rewrite length_map. induction s; cbn; auto. Qed.

(** On a string of 8-bit characters the code-unit functions are the
    functions of the string model. *)
Lemma data2ab_units_string (s : string) : data2ab_units (units s) = data2ab (DString s).
Proof.
  unfold data2ab_units, data2ab.
  rewrite hex_only_units_string, ab2str_units_string, length_units.
  destruct (Js.hex_only s); [done|].
  unfold str2ab_units, units, str2ab. by rewrite map_map.
Qed.

(** A single hexadecimal digit is never read back as its own code. *)
Lemma hex_digit_not_itself (u : Z) :
  unit_is_hex u = true ->
  Js.toUint8 (Js.parseInt16 (ab2str [u])) mod 65536 <> u.
Proof.
  intros Hu.
  assert (Hb : is_byte u).
  { unfold unit_is_hex in Hu. unfold is_byte. lia. }
  pose proof (byte_cases
    (fun u => negb (unit_is_hex u)
              || negb (Js.toUint8 (Js.parseInt16 (ab2str [u])) mod 65536 =? u))%bool
    ltac:(vm_compute; reflexivity) u Hb) as H.
  cbv beta in H. rewrite Hu in H. cbn [negb orb] in H.
  apply negb_true_iff, Z.eqb_neq in H. exact H.
Qed.

Lemma map_fixed {A} (f : A -> A) (l : list A) :
  map f l = l <-> Forall (fun x => f x = x) l.
Proof.
  induction l as [|x l IH]; cbn; [by split|]. split.
  - intros [= Hx Hl]. constructor; [done | by apply IH].
  - inversion 1; subst. f_equal; [done | by apply IH].
Qed.

(** X28. A string given to a write call and read back with [ab2str] from
    the bytes sent is the same string exactly when it is not made of
    hexadecimal digits only and all its code units are below 256: text such
    as "cafe" or "1234" is sent as packed digits, and a character above 255
    is cut to its low byte. On strings of 8-bit characters [data2ab] is the
    function of the string model, and the code units of the text that
    [ab2str] returns are the bytes of the buffer. *)
Theorem text_round_trip (s : list Z) (t : string) (buffer : list Z) :
  Forall code_unit s -> Forall is_byte buffer ->
  (ab2str_units (data2ab_units s) = s
   <-> hex_only_units s = false /\ Forall (fun u => u < 256) s)
  /\ data2ab_units (units t) = data2ab (DString t)
  /\ units (ab2str buffer) = ab2str_units buffer.
Proof.
  intros Hs Hb. split; [|split; [apply data2ab_units_string|]].
  - unfold ab2str_units, data2ab_units.
    destruct (hex_only_units s) eqn:Hhex.
    + split; [|by intros [? _]]. intros Hrt. exfalso.
      assert (Hlen : length s = ((length s + 1) / 2)%nat).
      { rewrite <- Hrt at 1. rewrite !length_map, length_chunks2;
          by rewrite length_ab2str. }
      destruct s as [|u [|v s]]; [discriminate Hhex| |].
      * cbn [hex_only_units forallb] in Hhex. apply andb_prop in Hhex as [Hu _].
        cbn in Hrt. injection Hrt as Hrt.
        by apply (hex_digit_not_itself u Hu).
      * cbn [length] in Hlen.
        assert ((S (S (length s)) + 1) / 2 < S (S (length s)))%nat
          by (apply Nat.Div0.div_lt_upper_bound; lia).
        lia.
    + unfold str2ab_units. rewrite map_map, map_fixed. split.
      * intros H. split; [done|].
        eapply Forall_impl; [exact H|]. cbn. intros u Hu.
        pose proof (Z.mod_pos_bound u 256 ltac:(lia)).
        rewrite Z.mod_small in Hu by lia. lia.
      * intros [_ H]. rewrite Forall_forall in Hs, H. apply Forall_forall.
        intros u Hu. specialize (Hs u Hu). specialize (H u Hu). unfold code_unit in Hs.
        cbv beta in H. rewrite (Z.mod_small u 256) by lia. apply Z.mod_small. lia.
  - rewrite units_ab2str by done. unfold ab2str_units. symmetry.
    apply map_fixed. eapply Forall_impl; [exact Hb|]. cbn. intros b [? ?].
    apply Z.mod_small. lia.
Qed.

Lemma text_round_trip_witness :
  (ab2str_units (data2ab_units [8364; 104; 105]) = [8364; 104; 105]
   <-> hex_only_units [8364; 104; 105] = false
       /\ Forall (fun u => u < 256) [8364; 104; 105])
  /\ data2ab_units (units "hello") = data2ab (DString "hello")
  /\ units (ab2str [104; 105; 0; 255]) = ab2str_units [104; 105; 0; 255].
Proof.
  apply (text_round_trip [8364; 104; 105] "hello" [104; 105; 0; 255]);
    repeat constructor; unfold code_unit, is_byte; lia.
Defined.

(** The euro sign is sent as the byte 172 and comes back as another
    character. *)
Example euro_sign_is_cut :
  data2ab_units [8364] = [172] /\ ab2str_units (data2ab_units [8364]) <> [8364].
Proof. split; [reflexivity | discriminate]. Qed.

Lemma stripped_text (b : Z) :
  is_byte b ->
  slice_last2 ("00" ++ toString16 b) = padStart2 (toString16 b)
  /\ toUpperCase (padStart2 (toString16 b))
     = toUpperCase (slice_last2 ("0" ++ toString16 b)).
Proof.
  intros Hb.
  pose proof (byte_cases
    (fun b => String.eqb (slice_last2 ("00" ++ toString16 b)) (padStart2 (toString16 b))
              && String.eqb (toUpperCase (padStart2 (toString16 b)))
                            (toUpperCase (slice_last2 ("0" ++ toString16 b))))%bool
    ltac:(vm_compute; reflexivity) b Hb) as H.
  apply andb_prop in H as [H1 H2]. split; by apply String.eqb_eq.
Qed.

Lemma data2ab_pairs (pairs : list string) :
  Forall (fun p => two_hex p = true) pairs ->
  data2ab (DString (join "" pairs)) = map (fun p => Js.toUint8 (Js.parseInt16 p)) pairs.
Proof.
  intros Hpairs. destruct pairs as [|p ps]; [reflexivity|].
  unfold data2ab.
  assert (Hhex : Js.hex_only (join "" (p :: ps)) = true).
  { unfold Js.hex_only. rewrite (all_hex_pairs _ Hpairs). rewrite join_empty_cons.
    destruct (two_hex_inv p ltac:(by inversion Hpairs)) as (c & d & -> & _).
    by rewrite append_cons. }
  rewrite Hhex, chunks2_pairs; [done|done|rewrite length_join_pairs by done; lia].
Qed.

(** X29. The hexadecimal text that the scan reports for vendor and service
    data ([ab2str_stripped]) has two lowercase digits per byte; it is the
    address text of [ab2mac] without the colons and the text of [ab2hex] in
    lowercase; given back to a write call as a string it is sent as the
    bytes it was made from. *)
Theorem ab2str_stripped_spec (buffer : list Z) :
  Forall is_byte buffer ->
  ab2str_stripped buffer = join "" (Js.split ":" (ab2mac buffer))
  /\ toUpperCase (ab2str_stripped buffer) = ab2hex buffer false
  /\ String.length (ab2str_stripped buffer) = (2 * length buffer)%nat
  /\ data2ab (DString (ab2str_stripped buffer)) = buffer.
Proof.
  intros Hb.
  set (pairs := map (fun b => padStart2 (toString16 b)) buffer).
  assert (Hs : ab2str_stripped buffer = join "" pairs).
  { unfold ab2str_stripped, pairs. f_equal. apply map_ext_Forall.
    eapply Forall_impl; [exact Hb|]. intros b H. by apply stripped_text. }
  assert (Hpairs : Forall (fun p => two_hex p = true) pairs).
  { apply Forall_map. eapply Forall_impl; [exact Hb|]. intros b H. by apply octet_text. }
  rewrite Hs. split; [|split; [|split]].
  - unfold ab2mac. fold pairs. destruct buffer as [|b0 buffer0]; [reflexivity|].
    rewrite split_join; [done | done |].
    eapply Forall_impl; [exact Hpairs|]. intros p. apply two_hex_free.
  - unfold ab2hex. rewrite !upper_join_empty. unfold pairs. rewrite !map_map.
    f_equal. apply map_ext_Forall.
    eapply Forall_impl; [exact Hb|]. intros b H. by apply stripped_text.
  - rewrite length_join_pairs by done. unfold pairs. by rewrite length_map.
  - rewrite data2ab_pairs by done. unfold pairs. rewrite map_map.
    rewrite <- (map_id buffer) at 2. apply map_ext_Forall.
    eapply Forall_impl; [exact Hb|]. intros b H. by apply octet_text.
Qed.

Lemma ab2str_stripped_spec_witness :
  ab2str_stripped [10; 20; 30; 255] = join "" (Js.split ":" (ab2mac [10; 20; 30; 255]))
  /\ toUpperCase (ab2str_stripped [10; 20; 30; 255]) = ab2hex [10; 20; 30; 255] false
  /\ String.length (ab2str_stripped [10; 20; 30; 255]) = (2 * length [10; 20; 30; 255])%nat
  /\ data2ab (DString (ab2str_stripped [10; 20; 30; 255])) = [10; 20; 30; 255].
Proof.
  apply (ab2str_stripped_spec [10; 20; 30; 255]).
  repeat constructor; unfold is_byte; lia.
Defined.

(** ** The session after [quit] *)

Lemma untracked_no_device (b : BLEMaster) :
  untracked b = true -> getCurrentlyConnectedDevice b = None.
Proof.
  unfold untracked, getCurrentlyConnectedDevice.
  destruct (last_connected_mac b) as [mac|]; [|done].
  by destruct (Js.truthy mac).
Qed.

(** X30. Whatever the state before, after [quit] the library reports no
    session: [isConnected] is false, [profilePID] and [connectionID] are
    absent, no profile handle is current, [generateProfileObject] answers
    "device not connected", and [disconnect()] returns false without a
    transport call. *)
Theorem no_session_after_quit (w : world) (services : services_map)
    (permissions : gmap string Z) (ok : bool) :
  let w' := exec quit w in
  isConnected (ble w') = false
  /\ profilePID (ble w') = None
  /\ connectionID (ble w') = None
  /\ current_pid w' = None
  /\ generateProfileObject (ble w') services permissions = GenError ERR_DEVICE_NOT_CONNECTED
  /\ disconnect ok w' = (Normal false, w').
Proof.
  intros w'. destruct (quit_untracks w) as [_ Hu]. fold w' in Hu.
  pose proof (untracked_no_device _ Hu) as Hnone.
  unfold isConnected, profilePID, connectionID, current_pid. rewrite Hnone.
  repeat split.
  - unfold generateProfileObject. unfold untracked in Hu.
    destruct (last_connected_mac (ble w')) as [mac|]; [|done].
    by destruct (Js.truthy mac).
  - unfold disconnect, bind, read. unfold untracked in Hu.
    destruct (last_connected_mac (ble w')) as [mac|]; [|done].
    by destruct (Js.truthy mac).
Qed.
